(** * Split penalties of yapf: the penalty-assignment pass

    A shallow embedding of [yapf/yapflib/split_penalty.py]: the visitor
    [_TreePenaltyAssigner] that walks a lib2to3 parse tree and annotates its
    tokens with the cost of breaking the line before them, and the properties
    of that pass.

    Python objects are mutable and compared by identity.  A node of the tree is
    therefore identified by its address, the list of child indices that leads
    to it from the root, and the annotations live in a store keyed by
    addresses.  Python exceptions are results of type [result]. *)

From stdpp Require Import gmap strings list.
From Stdlib Require Import ZArith Lia.

Local Open Scope string_scope.
Local Open Scope list_scope.

(** ** The parse tree (lib2to3's pytree) *)

(** [pytree.Leaf] carries a token: the name of its type ([NAME], [COLON],
    ...) and its text.  [pytree.Node] carries the name of a grammar symbol and
    its children.  lib2to3 keeps token numbers below 256 and symbol numbers
    from 256 on, so the name of a Leaf is never the name of a symbol. *)
#[local] Unset Elimination Schemes.
Inductive node : Type :=
| Leaf (name : string) (value : string)
| Node (name : string) (children : list node).
#[local] Set Elimination Schemes.

Abbreviation path := (list nat).

(** A reference to a node object: its address and the subtree found there. *)
Abbreviation obj := (path * node)%type.

Definition NodeName (n : node) : string :=
  match n with Leaf name _ => name | Node name _ => name end.

(** [Base.children] is the empty tuple for a Leaf. *)
Definition children (n : node) : list node :=
  match n with Leaf _ _ => [] | Node _ ch => ch end.

Definition isLeaf (n : node) : bool :=
  match n with Leaf _ _ => true | Node _ _ => false end.

(** ** Exceptions *)

Inductive exn := IndexError | AttributeError | TypeError.

Inductive result (A : Type) : Type :=
| Ok (a : A)
| Err (e : exn).
Arguments Ok {A} a.
Arguments Err {A} e.

#[global] Instance result_ret : MRet result := fun A a => Ok a.
#[global] Instance result_bind : MBind result := fun A B f m =>
  match m with Ok a => f a | Err e => Err e end.

(** [n.value]: only a Leaf has the attribute. *)
Definition value (n : node) : result string :=
  match n with Leaf _ v => Ok v | Node _ _ => Err AttributeError end.

(** [node.children[i]] with Python's indexing: a negative index counts from
    the end, an index out of range raises. *)
Definition item (p : path) (ch : list node) (i : Z) : result obj :=
  let j := (if i <? 0 then Z.of_nat (length ch) + i else i)%Z in
  if (j <? 0)%Z then Err IndexError
  else match ch !! Z.to_nat j with
       | Some c => Ok (p ++ [Z.to_nat j], c)
       | None => Err IndexError
       end.

Definition child (o : obj) (i : Z) : result obj := item o.1 (children o.2) i.

(** The children of the node at [p], each with its address. *)
Definition kids (p : path) (ch : list node) : list obj :=
  imap (fun i c => (p ++ [i], c)) ch.

(** ** The annotation store *)

(** One write of the SplitPenalty annotation: the node written, the value it
    had and the value stored. *)
Record write := MkWrite { w_node : path; w_old : option Z; w_new : option Z }.

(** The SplitPenalty annotations of the tree, and the history of the writes
    made so far (latest first).  The history is a ghost: nothing reads it. *)
Record heap := Heap { annot : gmap path Z; writes : list write }.

(** Modelled from the spec: [pytree_utils.GetNodeAnnotation] is not under
    src/.  SplitPenalty is an optional integer; absent (Python's [None]) means
    that no constraint is asserted. *)
Definition GetNodeAnnotation (p : path) (h : heap) : option Z := annot h !! p.

(** Modelled from the spec: [pytree_utils.SetNodeAnnotation] is not under
    src/.  Storing [None] resets the annotation to absent. *)
Definition store (p : path) (v : option Z) (m : gmap path Z) : gmap path Z :=
  match v with
  | Some x => <[p := x]> m
  | None => delete p m
  end.

Definition SetNodeAnnotation (p : path) (v : option Z) (h : heap) : heap :=
  {| annot := store p v (annot h);
     writes := MkWrite p (annot h !! p) v :: writes h |}.

Definition UNBREAKABLE : Z := 1000 * 1000.
Definition STRONGLY_CONNECTED : Z := 1000.
Definition ARITHMETIC_EXPRESSION : Z := 42.

(** ** Loops over children *)

(** [for child in children: body(child)], the body receiving the index of the
    child; [from] is the index of the first element of the list. *)
Definition iter_from {A} (body : nat -> A -> heap -> heap)
  : nat -> list A -> heap -> heap :=
  fix go from l h :=
    match l with
    | [] => h
    | x :: l' => go (S from) l' (body from x h)
    end.

Definition for_from {A} (body : nat -> A -> heap -> result heap)
  : nat -> list A -> heap -> result heap :=
  fix go from l h :=
    match l with
    | [] => Ok h
    | x :: l' => h' ← body from x h; go (S from) l' h'
    end.

(** ** The propagation primitive *)

(** [_RecAnnotate(tree, SPLIT_PENALTY, annotate_value)]. *)
Fixpoint _RecAnnotate (p : path) (tree : node) (annotate_value : Z) (h : heap)
  : heap :=
  match tree with
  | Node _ ch =>
      iter_from (fun i c => _RecAnnotate (p ++ [i]) c annotate_value) 0 ch h
  | Leaf _ _ =>
      match GetNodeAnnotation p h with
      | None => SetNodeAnnotation p (Some annotate_value) h
      | Some cur_annotate =>
          if (cur_annotate <? annotate_value)%Z
          then SetNodeAnnotation p (Some annotate_value) h
          else h
      end
  end.

(** ** The arithmetic rule *)

(** The interpreter the pass runs on ([py3compat] serves both). *)
Inductive python := Python2 | Python3.

(** [a < b] for an annotation [a] and an integer [b].  Python 2 orders [None]
    below every integer; Python 3 raises [TypeError]. *)
Definition annotation_lt (py : python) (a : option Z) (b : Z) : result bool :=
  match a with
  | Some x => Ok (x <? b)%Z
  | None => match py with Python2 => Ok true | Python3 => Err TypeError end
  end.

(** The address of the leaf [FirstChildNode] returns. *)
Fixpoint FirstChildNode (p : path) (n : node) : result path :=
  match n with
  | Leaf _ _ => Ok p
  | Node _ ch =>
      match ch with
      | [] => Err IndexError
      | c :: _ => FirstChildNode (p ++ [0]) c
      end
  end.

Fixpoint RecArithmeticExpression (py : python) (p : path) (n : node)
    (first_child_leaf : path) (h : heap) : result heap :=
  if decide (p = first_child_leaf) then Ok h
  else match n with
       | Leaf _ _ =>
           lt ← annotation_lt py (GetNodeAnnotation p h) ARITHMETIC_EXPRESSION;
           if (lt : bool)
           then Ok (SetNodeAnnotation p (Some ARITHMETIC_EXPRESSION) h)
           else Ok h
       | Node _ ch =>
           for_from
             (fun i c => RecArithmeticExpression py (p ++ [i]) c first_child_leaf)
             0 ch h
       end.

Definition _SetArithmeticExpression (py : python) (o : obj) (h : heap)
  : result heap :=
  first ← FirstChildNode o.1 o.2;
  RecArithmeticExpression py o.1 o.2 first h.

(** ** Procedures *)

(** A method that mutates the annotations and may raise. *)
Definition proc := heap -> result heap.

Definition skip : proc := fun h => Ok h.

(** A statement that cannot raise. *)
Definition step (f : heap -> heap) : proc := fun h => Ok (f h).

(** [f] then [g]; when [f] raises, [g] is not run. *)
Definition seq (f g : proc) : proc := fun h => h' ← f h; g h'.

(** The rest [k] of a method after an expression [r] that may raise and does
    not touch the annotations. *)
Definition eval {A} (r : result A) (k : A -> proc) : proc :=
  match r with
  | Ok a => k a
  | Err e => fun _ => Err e
  end.

Declare Scope proc_scope.
Delimit Scope proc_scope with proc.
Bind Scope proc_scope with proc.
Notation "f >> g" := (seq f g)
  (at level 100, g at level 200, right associativity) : proc_scope.
Notation "'let!' x ':=' r 'in' k" := (eval r (fun x => k))
  (at level 10, x name, r at level 100, k at level 200) : proc_scope.

Local Open Scope proc_scope.

Definition _SetUnbreakable (o : obj) : proc :=
  step (_RecAnnotate o.1 o.2 UNBREAKABLE).

Definition _SetStronglyConnected (nodes : list obj) : proc :=
  step (fun h => foldl (fun h o => _RecAnnotate o.1 o.2 STRONGLY_CONNECTED h) h nodes).

(** [_SetStronglyConnected] with the arguments Python lets a caller pass: any
    of the nodes may be [None], as [prev_child] is in the first round of the
    loop of [Visit_dictsetmaker].  [_RecAnnotate] reads [tree.children]
    first, which raises [AttributeError] on [None]; the nodes before it have
    been marked by then. *)
Fixpoint _SetStronglyConnected_any (nodes : list (option obj)) : proc :=
  match nodes with
  | [] => skip
  | Some o :: nodes' =>
      step (_RecAnnotate o.1 o.2 STRONGLY_CONNECTED) >>
      _SetStronglyConnected_any nodes'
  | None :: _ => fun _ => Err AttributeError
  end.

(** ** The rules of [_TreePenaltyAssigner] *)

Section Rules.
Variable py : python.

(** [self.Visit(child)] for the child at position [i] of the node visited. *)
Variable visit : nat -> node -> proc.

(** Modelled from the spec: [PyTreeVisitor.DefaultNodeVisit] is not under
    src/.  The default behaviour is to visit each child in order. *)
Definition DefaultNodeVisit (ch : list node) : proc := for_from visit 0 ch.

(** Each rule receives the address [p] of the node and its children [ch]. *)

Definition Visit_classdef (p : path) (ch : list node) : proc :=
  let! name := item p ch 1 in
  _SetUnbreakable name >>
  (if decide (4 < length ch)
   then let! paren := item p ch 2 in _SetUnbreakable paren
   else skip) >>
  let! colon := item p ch (-2) in
  _SetUnbreakable colon >>
  DefaultNodeVisit ch.

(** The first loop of [Visit_funcdef]; [rest] is [children[colon_idx:]]. *)
Fixpoint skip_simple_stmt (colon_idx : nat) (rest : list node) : result nat :=
  match rest with
  | [] => Err IndexError
  | c :: rest' =>
      if String.eqb (NodeName c) "simple_stmt"
      then skip_simple_stmt (S colon_idx) rest'
      else Ok colon_idx
  end.

(** The second loop; it leaves [colon_idx] at [len(children)] when no colon
    is found. *)
Fixpoint find_colon (colon_idx : nat) (rest : list node) : nat :=
  match rest with
  | [] => colon_idx
  | c :: rest' =>
      match c with
      | Leaf _ ":" => colon_idx
      | _ => find_colon (S colon_idx) rest'
      end
  end.

Definition Visit_funcdef (p : path) (ch : list node) : proc :=
  let! colon_idx := skip_simple_stmt 1 (drop 1 ch) in
  let! name := item p ch (Z.of_nat colon_idx) in
  _SetUnbreakable name >>
  let colon_idx := find_colon colon_idx (drop colon_idx ch) in
  let! colon := item p ch (Z.of_nat colon_idx) in
  _SetUnbreakable colon >>
  DefaultNodeVisit ch.

(** [for i in range(1, num_children): self._SetUnbreakable(children[i])],
    from index [i] with [count] indices left. *)
Fixpoint unbreakable_range (p : path) (ch : list node) (i count : nat) : proc :=
  match count with
  | O => skip
  | S count' =>
      let! c := item p ch (Z.of_nat i) in
      _SetUnbreakable c >>
      unbreakable_range p ch (S i) count'
  end.

Definition _SetUnbreakableOnChildren (p : path) (ch : list node)
    (num_children : nat) : proc :=
  for_from visit 0 ch >>
  unbreakable_range p ch 1 (num_children - 1).

Definition Visit_lambdef (p : path) (ch : list node) : proc :=
  let! c1 := item p ch 1 in
  let lambda_has_arglist := negb (String.eqb (NodeName c1.2) "COLON") in
  _SetUnbreakableOnChildren p ch (if lambda_has_arglist then 3 else 2).

Definition Visit_parameters (p : path) (ch : list node) : proc :=
  DefaultNodeVisit ch >>
  let! paren := item p ch 0 in
  _SetUnbreakable paren >>
  if decide (length ch = 2)
  then let! c1 := item p ch 1 in _SetStronglyConnected [c1]
  else skip.

Definition Visit_dotted_name (p : path) (ch : list node) : proc :=
  _SetUnbreakableOnChildren p ch (length ch).

(** The loop of [Visit_dictsetmaker]; [rest] are the children from position
    [i] on.  [_SetStronglyConnected(prev_child, child)] reads
    [prev_child.children] first, which raises when [prev_child] is [None]. *)
Fixpoint dictsetmaker_loop (p : path) (i : nat) (prev_child : option obj)
    (rest : list node) : proc :=
  match rest with
  | [] => skip
  | c :: rest' =>
      visit i c >>
      (if String.eqb (NodeName c) "COLON"
       then let! prev := match prev_child with
                         | None => Err AttributeError
                         | Some prev => Ok prev
                         end in
            _SetStronglyConnected [prev; (p ++ [i], c)]
       else skip) >>
      dictsetmaker_loop p (S i) (Some (p ++ [i], c)) rest'
  end.

Definition Visit_dictsetmaker (p : path) (ch : list node) : proc :=
  dictsetmaker_loop p 0 None ch.

(** [Visit_comparison], [Visit_arith_expr] and [Visit_term] have the same
    body; [self] is the node visited. *)
Definition Visit_arith (self : node) (p : path) (ch : list node) : proc :=
  DefaultNodeVisit ch >>
  _SetArithmeticExpression py (p, self).

Definition Visit_trailer (p : path) (ch : list node) : proc :=
  DefaultNodeVisit ch >>
  let! c0 := item p ch 0 in
  let! v := value c0.2 in
  if String.eqb v "."
  then let! last := item p ch (-1) in _SetStronglyConnected [c0; last]
  else if String.eqb v "["
       then let! last := item p ch (-1) in _SetStronglyConnected [last]
       else skip.

(** The [and] chain that computes [surrounded_by_parens]. *)
Definition surrounded_by_parens (parent : option node) : result bool :=
  match parent with
  | None => Ok false
  | Some par =>
      if negb (String.eqb (NodeName par) "atom") then Ok false
      else
        c0 ← item [] (children par) 0;
        if negb (isLeaf c0.2) then Ok false
        else
          v0 ← value c0.2;
          if negb (String.eqb v0 "(") then Ok false
          else
            cl ← item [] (children par) (-1);
            if negb (isLeaf cl.2) then Ok false
            else vl ← value cl.2; Ok (String.eqb vl ")")
  end.

(** The [while prev_trailer_idx < len(node.children) - 1] loop of
    [Visit_power]: [prev_trailer] is the child at [prev_trailer_idx] and
    [rest] are the children after it, the first of them at [cur_trailer_idx]. *)
Fixpoint trailer_chain (surrounded : bool) (p : path) (prev_trailer : obj)
    (cur_trailer_idx : nat) (rest : list node) : proc :=
  match rest with
  | [] => skip
  | c :: rest' =>
      let cur_trailer : obj := (p ++ [cur_trailer_idx], c) in
      if String.eqb (NodeName c) "trailer" then
        let! last := child prev_trailer (-1) in
        let! v := value last.2 in
        (if negb (String.eqb v ")") then _SetUnbreakable last else skip) >>
        (if negb surrounded
         then let! first := child cur_trailer 0 in _SetUnbreakable first
         else skip) >>
        trailer_chain surrounded p cur_trailer (S cur_trailer_idx) rest'
      else skip
  end.

(** The closing [for trailer in node.children[1:]] loop of [Visit_power];
    [rest] are the children from position [i] on. *)
Fixpoint call_parens (p : path) (i : nat) (rest : list node) : proc :=
  match rest with
  | [] => skip
  | c :: rest' =>
      let trailer : obj := (p ++ [i], c) in
      if negb (String.eqb (NodeName c) "trailer") then skip
      else
        let! first := child trailer 0 in
        let! v := value first.2 in
        (if String.eqb v "(" && bool_decide (2 < length (children c))
         then let! last := child trailer (-1) in _SetUnbreakable last
         else skip) >>
        call_parens p (S i) rest'
  end.

Definition Visit_power (parent : option node) (p : path) (ch : list node)
  : proc :=
  DefaultNodeVisit ch >>
  let! surrounded := surrounded_by_parens parent in
  (if decide (1 < length ch) then
     let! c1 := item p ch 1 in
     if String.eqb (NodeName c1.2) "trailer" then
       let! first := child c1 0 in
       _SetUnbreakable first >>
       trailer_chain surrounded p c1 2 (drop 2 ch)
     else skip
   else skip) >>
  call_parens p 1 (drop 1 ch).

Definition Visit_subscript (p : path) (ch : list node) : proc :=
  _SetStronglyConnected (kids p ch) >>
  DefaultNodeVisit ch.

Definition Visit_comp_for (p : path) (ch : list node) : proc :=
  _SetStronglyConnected (drop 1 (kids p ch)) >>
  DefaultNodeVisit ch.

Definition Visit_comp_if (p : path) (ch : list node) : proc :=
  let! c0 := item p ch 0 in
  step (SetNodeAnnotation c0.1 None) >>
  _SetStronglyConnected (drop 1 (kids p ch)) >>
  DefaultNodeVisit ch.
End Rules.

(** ** The visitor *)

(** The [Visit_] methods of the class, by the name they are looked up under. *)
Inductive rule :=
| R_classdef | R_funcdef | R_lambdef | R_parameters | R_dotted_name
| R_dictsetmaker | R_comparison | R_arith_expr | R_term | R_trailer | R_power
| R_subscript | R_comp_for | R_comp_if | R_default.

Definition rule_of (name : string) : rule :=
  if String.eqb name "classdef" then R_classdef
  else if String.eqb name "funcdef" then R_funcdef
  else if String.eqb name "lambdef" then R_lambdef
  else if String.eqb name "parameters" then R_parameters
  else if String.eqb name "dotted_name" then R_dotted_name
  else if String.eqb name "dictsetmaker" then R_dictsetmaker
  else if String.eqb name "comparison" then R_comparison
  else if String.eqb name "arith_expr" then R_arith_expr
  else if String.eqb name "term" then R_term
  else if String.eqb name "trailer" then R_trailer
  else if String.eqb name "power" then R_power
  else if String.eqb name "subscript" then R_subscript
  else if String.eqb name "comp_for" then R_comp_for
  else if String.eqb name "comp_if" then R_comp_if
  else R_default.

(** Modelled from the spec: [PyTreeVisitor.Visit] is not under src/.  A node
    whose production has a rule gets that rule; any other interior node has
    each child visited in order; for a leaf no action is taken.  [parent] is
    [node.parent] and [p] the address of [node]. *)
Fixpoint Visit (py : python) (parent : option node) (p : path) (n : node)
    {struct n} : proc :=
  match n with
  | Leaf _ _ => skip
  | Node name ch =>
      let visit := fun i c => Visit py (Some n) (p ++ [i]) c in
      match rule_of name with
      | R_classdef => Visit_classdef visit p ch
      | R_funcdef => Visit_funcdef visit p ch
      | R_lambdef => Visit_lambdef visit p ch
      | R_parameters => Visit_parameters visit p ch
      | R_dotted_name => Visit_dotted_name visit p ch
      | R_dictsetmaker => Visit_dictsetmaker visit p ch
      | R_comparison | R_arith_expr | R_term => Visit_arith py visit n p ch
      | R_trailer => Visit_trailer visit p ch
      | R_power => Visit_power visit parent p ch
      | R_subscript => Visit_subscript visit p ch
      | R_comp_for => Visit_comp_for visit p ch
      | R_comp_if => Visit_comp_if visit p ch
      | R_default => DefaultNodeVisit visit ch
      end
  end.

(** [tree] is the top-level node: it has no parent and its address is empty. *)
Definition ComputeSplitPenalties (py : python) (tree : node) : proc :=
  Visit py None [] tree.

(** ** Addresses, subtrees and leaves *)

(** The node found at the relative address [r] below [t]. *)
Fixpoint subtree (t : node) (r : path) : option node :=
  match r with
  | [] => Some t
  | i :: r' =>
      match children t !! i with
      | Some c => subtree c r'
      | None => None
      end
  end.

Definition leaf_at (t : node) (r : path) : bool :=
  match subtree t r with
  | Some (Leaf _ _) => true
  | _ => false
  end.

(** [strip p q] is the address of [q] relative to [p], when [q] lies at or
    below [p]. *)
Fixpoint strip (p q : path) : option path :=
  match p, q with
  | [], _ => Some q
  | a :: p', b :: q' => if decide (a = b) then strip p' q' else None
  | _ :: _, [] => None
  end.

(** [q] is the address of a Leaf of the subtree [o]. *)
Definition leaf_under (o : obj) (q : path) : bool :=
  match strip o.1 q with
  | Some r => leaf_at o.2 r
  | None => false
  end.

(** [max(cur, v)] where an absent [cur] counts as minus infinity. *)
Definition raise (cur : option Z) (v : Z) : Z :=
  match cur with
  | None => v
  | Some c => Z.max c v
  end.

(** [q] lies in the subtree of one of the children [l], the first of which
    has index [from], and [L] holds of that child. *)
Definition any_kid (L : obj -> path -> bool) (p : path) (from : nat)
    (l : list node) (q : path) : bool :=
  match strip p q with
  | Some (j :: _) =>
      if decide (from <= j)
      then match l !! (j - from) with
           | Some c => L (p ++ [j], c) q
           | None => false
           end
      else false
  | _ => false
  end.

(** ** The vocabulary of the properties *)

(** The leaves the arithmetic rule compares: those of the subtree other than
    [first]. *)
Definition arith_leaf (first : path) (o : obj) (q : path) : bool :=
  leaf_under o q && bool_decide (q <> first).

(** [f] is not the address of an interior node of the subtree [o]: it is the
    address of a Leaf object. *)
Definition not_interior (o : obj) (f : path) : Prop :=
  forall r name ch, f = o.1 ++ r -> subtree o.2 r <> Some (Node name ch).

(** The tree of [x + y]. *)
Definition x_plus_y : node :=
  Node "arith_expr" [Leaf "NAME" "x"; Leaf "PLUS" "+"; Leaf "NAME" "y"].

(** A tree no token of which is annotated yet. *)
Definition no_annotations : heap := Heap ∅ [].

(** What a procedure does to the penalty found at one address: the new
    penalty, or nothing when the procedure raises because of it. *)
Definition xform := option Z -> option (option Z).

Definition xcomp (s1 s2 : xform) : xform := fun x => s1 x ≫= s2.

(** The order on penalties in which absent is below every integer, and its
    maximum. *)
Definition ole (x y : option Z) : Prop :=
  match x, y with
  | None, _ => True
  | Some a, Some b => (a <= b)%Z
  | Some _, None => False
  end.

Definition ojoin (x c : option Z) : option Z :=
  match x, c with
  | None, _ => c
  | Some a, None => Some a
  | Some a, Some b => Some (Z.max a b)
  end.

(** [f] acts on each address [q] by [t q], and raises exactly when some
    address makes it raise. *)
Definition sums (f : proc) (t : path -> xform) : Prop :=
  forall h,
    match f h with
    | Ok h' => forall q, t q (annot h !! q) = Some (annot h' !! q)
    | Err _ => exists q, t q (annot h !! q) = None
    end.

(** What the marks a rule makes before it visits the children are: a maximum
    with a constant, or a constant. *)
Definition pre_like (s : xform) : Prop :=
  exists c, (forall x, s x = Some (ojoin x c)) \/ (forall x, s x = Some c).

(** What the marks a rule makes after it has visited the children are: a
    maximum with a constant, which may raise on a penalty and then raises on
    every lower one. *)
Definition post_like (s : xform) : Prop :=
  exists c, (forall x y, s x = Some y -> y = ojoin x c) /\
            (forall x x', is_Some (s x) -> ole x x' -> is_Some (s x')).

(** What a visit is at one address: constant, or as the marks made after the
    children. *)
Definition good (s : xform) : Prop :=
  (exists r, forall x, s x = r) \/ post_like s.

(** The summary [t] raises everywhere, or is in the class [P] at every address
    and the identity outside [S]. *)
Definition family (P : xform -> Prop) (S : path -> Prop) (t : path -> xform)
  : Prop :=
  (forall q x, t q x = None) \/
  ((forall q, P (t q)) /\ (forall q, ~ S q -> forall x, t q x = Some x)).

(** A write that does not lower the penalty, or that clears an address of [R]. *)
Definition ok_write (R : path -> Prop) (w : write) : Prop :=
  ole (w_old w) (w_new w) \/ (w_new w = None /\ R (w_node w)).

(** The writes [l], the latest first, lead from the annotations [m] to the
    annotations [m'], each recording the penalty it found. *)
Inductive trace (m : gmap path Z) : list write -> gmap path Z -> Prop :=
| trace_nil : trace m [] m
| trace_cons l m1 q v :
    trace m l m1 -> trace m (MkWrite q (m1 !! q) v :: l) (store q v m1).

(** The writes [f] makes are added to the history, they account for the
    change of the annotations, and each is one of those. *)
Definition logs (R : path -> Prop) (f : proc) : Prop :=
  forall h h', f h = Ok h' ->
    exists l, writes h' = l ++ writes h /\ trace (annot h) l (annot h') /\
              Forall (ok_write R) l.

(** [f] has a summary of class [P] that is the identity outside [S], and its
    writes raise or clear an address of [R]. *)
Definition sound (P : xform -> Prop) (R S : path -> Prop) (f : proc) : Prop :=
  (exists t, sums f t /\ family P S t) /\ logs R f.

(** [q] lies at or below [p]; [q] lies below [p]. *)
Definition below (p q : path) : Prop := is_Some (strip p q).

Definition sbelow (p q : path) : Prop := exists i r, q = p ++ i :: r.

(** The object [o] is a child of the node at [p], or lies below one. *)
Definition desc_of (p : path) (o : obj) : Prop := exists k r, o.1 = p ++ k :: r.

(** [q] is the address of the first child of a [comp_if] node of the subtree
    [o]: the leading [if] of a comprehension filter. *)
Definition comp_if_head (o : obj) (q : path) : Prop :=
  exists r name ch,
    subtree o.2 r = Some (Node name ch) /\ rule_of name = R_comp_if /\
    q = o.1 ++ r ++ [0].

(** [q] lies at or below a child with an index from [lo] up to [hi], the
    latter excluded. *)
Definition in_kids (p : path) (lo hi : nat) (q : path) : Prop :=
  exists k, lo <= k < hi /\ below (p ++ [k]) q.

(** The summary of a procedure that leaves the address alone. *)
Definition xid : xform := fun x => Some x.

(** The classes of marks: closed under sequencing, with the identity and the
    maximum with a constant. *)
Definition mark_class (P : xform -> Prop) : Prop :=
  P xid /\
  (forall c, P (fun x => Some (ojoin x c))) /\
  (forall s1 s2, P s1 -> P s2 -> P (xcomp s1 s2)) /\
  (forall s s' : xform, (forall x, s x = s' x) -> P s -> P s').

(** The tree of [1 + [x for x in y if z]]. *)
Definition filtered_sum : node :=
  Node "arith_expr"
    [Leaf "NUMBER" "1"; Leaf "PLUS" "+";
     Node "atom"
       [Leaf "LSQB" "[";
        Node "listmaker"
          [Leaf "NAME" "x";
           Node "comp_for"
             [Leaf "NAME" "for"; Leaf "NAME" "x"; Leaf "NAME" "in"; Leaf "NAME" "y";
              Node "comp_if" [Leaf "NAME" "if"; Leaf "NAME" "z"]]];
        Leaf "RSQB" "]"]].

(** The heap a procedure returns, for a run known to return. *)
Definition returned (r : result heap) : heap :=
  match r with
  | Ok h => h
  | Err _ => no_annotations
  end.

(** The penalty is present and at least [v]. *)
Definition at_least (v : Z) (x : option Z) : Prop :=
  exists a, x = Some a /\ (v <= a)%Z.

(** The tree of [class Foo(Base): pass]. *)
Definition class_Foo : node :=
  Node "classdef"
    [Leaf "NAME" "class"; Leaf "NAME" "Foo"; Leaf "LPAR" "("; Leaf "NAME" "Base";
     Leaf "RPAR" ")"; Leaf "COLON" ":"; Node "suite" [Leaf "NAME" "pass"]].

(** The tree of [class Foo(A, B): pass], whose bases are an interior node. *)
Definition class_Foo_A_B : node :=
  Node "classdef"
    [Leaf "NAME" "class"; Leaf "NAME" "Foo"; Leaf "LPAR" "(";
     Node "arglist" [Leaf "NAME" "A"; Leaf "COMMA" ","; Leaf "NAME" "B"];
     Leaf "RPAR" ")"; Leaf "COLON" ":"; Node "suite" [Leaf "NAME" "pass"]].

(** A subtree no node of which has a rule of its own, as a list of base
    classes that are names: the visitor walks it and no rule marks it. *)
Fixpoint plain (n : node) : bool :=
  match n with
  | Leaf _ _ => true
  | Node name ch =>
      match rule_of name with
      | R_default => forallb plain ch
      | _ => false
      end
  end.

(** The tree of [lambda x: x + y]. *)
Definition lambda_x_plus_y : node :=
  Node "lambdef" [Leaf "NAME" "lambda"; Leaf "NAME" "x"; Leaf "COLON" ":"; x_plus_y].

(** The maker of [{1: 2, 3: 4}]. *)
Definition dict_1_2_3_4 : node :=
  Node "dictsetmaker"
    [Leaf "NUMBER" "1"; Leaf "COLON" ":"; Leaf "NUMBER" "2"; Leaf "COMMA" ",";
     Leaf "NUMBER" "3"; Leaf "COLON" ":"; Leaf "NUMBER" "4"].

(** The elements of [l] up to index [k], included, are trailers. *)
Definition trailers_upto (l : list node) (k : nat) : Prop :=
  forall j, j <= k -> exists c, l !! j = Some c /\ NodeName c = "trailer".

(** The marks of [Visit_power] between the visit of the children and the
    closing loop. *)
Definition power_chain (surrounded : bool) (p : path) (ch : list node) : proc :=
  if decide (1 < length ch) then
    let! c1 := item p ch 1 in
    if String.eqb (NodeName c1.2) "trailer" then
      let! first := child c1 0 in
      _SetUnbreakable first >>
      trailer_chain surrounded p c1 2 (drop 2 ch)
    else skip
  else skip.

(** The trees of [f().g], of [f(1)()] and of [a.b().c]. *)
Definition empty_call : node := Node "trailer" [Leaf "LPAR" "("; Leaf "RPAR" ")"].

Definition attribute (name : string) : node :=
  Node "trailer" [Leaf "DOT" "."; Leaf "NAME" name].

Definition f_call_g : node :=
  Node "power" [Leaf "NAME" "f"; empty_call; attribute "g"].

Definition f_1_call : node :=
  Node "power"
    [Leaf "NAME" "f";
     Node "trailer" [Leaf "LPAR" "("; Leaf "NUMBER" "1"; Leaf "RPAR" ")"];
     empty_call].

Definition a_b_call_c : node :=
  Node "power" [Leaf "NAME" "a"; attribute "b"; empty_call; attribute "c"].

(** A store in which the three tokens of [x + y] carry STRONGLY_CONNECTED. *)
Definition x_plus_y_strong : heap :=
  Heap (list_to_map [([0], 1000%Z); ([1], 1000%Z); ([2], 1000%Z)]) [].

(** A store in which [+] and [y] of [x + y] carry a penalty and [x] none. *)
Definition x_plus_y_marked : heap :=
  Heap (list_to_map [([1], 7%Z); ([2], 1000%Z)]) [].

(** The tree of [def f(): pass]. *)
Definition def_f : node :=
  Node "funcdef"
    [Leaf "NAME" "def"; Leaf "NAME" "f";
     Node "parameters" [Leaf "LPAR" "("; Leaf "RPAR" ")"];
     Leaf "COLON" ":"; Node "suite" [Leaf "NAME" "pass"]].

(** [c] is a colon token, as the second loop of [Visit_funcdef] tests it. *)
Definition is_colon (c : node) : bool :=
  match c with
  | Leaf _ v => String.eqb v ":"
  | Node _ _ => false
  end.

(** The tree of the dotted name [a.b.c]. *)
Definition a_b_c : node :=
  Node "dotted_name"
    [Leaf "NAME" "a"; Leaf "DOT" "."; Leaf "NAME" "b"; Leaf "DOT" "."; Leaf "NAME" "c"].

(** The trailer [[i]] and the power node [a ** b]. *)
Definition index_i : node :=
  Node "trailer" [Leaf "LSQB" "["; Leaf "NAME" "i"; Leaf "RSQB" "]"].

Definition a_pow_b : node :=
  Node "power" [Leaf "NAME" "a"; Leaf "DOUBLESTAR" "**"; Leaf "NAME" "b"].

(** The run of [f] raises [TypeError] or does what the run of [g] does: it
    returns the same store or raises the same exception. *)
Definition agree (f g : proc) : Prop :=
  forall h, f h = Err TypeError \/ f h = g h.

(** [f] never raises [e]. *)
Definition never (e : exn) (f : proc) : Prop := forall h, f h <> Err e.

(** The penalties the pass stores. *)
Definition penalty_constant (v : Z) : Prop :=
  v = UNBREAKABLE \/ v = STRONGLY_CONNECTED \/ v = ARITHMETIC_EXPRESSION.

(** A write that clears, or stores one of the three penalties on a token of
    the subtree [o]. *)
Definition token_write (o : obj) (w : write) : Prop :=
  w_new w = None \/
  (leaf_under o (w_node w) = true /\
   exists v, w_new w = Some v /\ penalty_constant v).

(** The writes [f] adds to the history all satisfy [W]. *)
Definition writes_sat (W : write -> Prop) (f : proc) : Prop :=
  forall h h', f h = Ok h' -> exists l, writes h' = l ++ writes h /\ Forall W l.

(** The tokens of [o'] are tokens of [o]. *)
Definition within (o o' : obj) : Prop :=
  forall q, leaf_under o' q = true -> leaf_under o q = true.

(** The tree of the parenthesized chain [(a.b().c)]. *)
Definition paren_chain : node :=
  Node "atom" [Leaf "LPAR" "("; a_b_call_c; Leaf "RPAR" ")"].

(** ** Basic facts *)

Lemma node_ind (P : node -> Prop) :
  (forall name v, P (Leaf name v)) ->
  (forall name ch, Forall P ch -> P (Node name ch)) ->
  forall t, P t.
Proof.
  intros HL HN. fix IH 1. intros [name v | name ch].
  - apply HL.
  - apply HN. induction ch as [| c ch IHch]; constructor; [apply IH | apply IHch].
Qed.

Lemma bind_Ok {A B} (m : result A) (f : A -> result B) b :
  m ≫= f = Ok b <-> exists a, m = Ok a /\ f a = Ok b.
Proof.
  destruct m as [a | e]; simpl; split.
  - intros H. exists a. auto.
  - intros (a' & [= <-] & H). exact H.
  - discriminate.
  - intros (a' & [=] & _).
Qed.

Lemma strip_app p r : strip p (p ++ r) = Some r.
Proof. induction p as [| a p IH]; simpl; [done |]. by rewrite decide_True. Qed.

Lemma strip_Some p q r : strip p q = Some r <-> q = p ++ r.
Proof.
  split; [| intros ->; apply strip_app].
  revert q. induction p as [| a p IH]; intros [| b q]; simpl; try done.
  - by intros [= ->].
  - by intros [= ->].
  - case_decide; [| done]. subst. intros H. by rewrite (IH _ H).
Qed.

Lemma strip_snoc p i q :
  strip (p ++ [i]) q =
    match strip p q with
    | Some (j :: r) => if decide (i = j) then Some r else None
    | _ => None
    end.
Proof.
  revert q. induction p as [| a p IH]; intros [| b q]; simpl; try done.
  all: case_decide; try done; try apply IH.
  all: destruct q; repeat case_decide; congruence.
Qed.

Lemma strip_self p : strip p p = Some [].
Proof. rewrite <- (app_nil_r p) at 2. apply strip_app. Qed.

Lemma leaf_under_Leaf p name v q :
  leaf_under (p, Leaf name v) q = bool_decide (q = p).
Proof.
  unfold leaf_under; simpl. destruct (strip p q) as [r |] eqn:E.
  - apply strip_Some in E. subst q. destruct r as [| i r].
    + rewrite app_nil_r. by rewrite bool_decide_eq_true_2.
    + unfold leaf_at; simpl. rewrite bool_decide_eq_false_2; [done |].
      intros H. rewrite <- (app_nil_r p) in H at 2. by apply app_inv_head in H.
  - rewrite bool_decide_eq_false_2; [done |]. intros ->.
    by rewrite strip_self in E.
Qed.

Lemma leaf_under_Node p name ch q :
  leaf_under (p, Node name ch) q = any_kid leaf_under p 0 ch q.
Proof.
  unfold leaf_under, any_kid; simpl. destruct (strip p q) as [[| j r] |] eqn:E; try done.
  rewrite Nat.sub_0_r.
  unfold leaf_at at 1; simpl. rewrite strip_snoc, E, decide_True by done.
  unfold leaf_at. by destruct (ch !! j).
Qed.

Lemma leaf_under_local o q : leaf_under o q = true -> is_Some (strip o.1 q).
Proof. unfold leaf_under. destruct (strip o.1 q); [eauto | done]. Qed.

Lemma any_kid_nil L p from q : any_kid L p from [] q = false.
Proof.
  unfold any_kid. destruct (strip p q) as [[| j r] |]; try done.
  case_decide; [| done]. by rewrite lookup_nil.
Qed.

Lemma any_kid_cons L p from c l q :
  (forall o q, L o q = true -> is_Some (strip o.1 q)) ->
  any_kid L p from (c :: l) q = L (p ++ [from], c) q || any_kid L p (S from) l q.
Proof.
  intros Hloc. unfold any_kid.
  destruct (L (p ++ [from], c) q) eqn:EL.
  - destruct (Hloc _ _ EL) as [r Hr]. simpl in Hr. rewrite strip_snoc in Hr.
    destruct (strip p q) as [[| j r'] |]; try done.
    case_decide; [| done]. subst j. rewrite decide_True by lia.
    rewrite Nat.sub_diag. simpl. by rewrite EL.
  - simpl. destruct (strip p q) as [[| j r'] |]; try done.
    destruct (decide (from = j)) as [-> | Hne].
    + rewrite decide_True by lia. rewrite Nat.sub_diag. simpl. rewrite EL.
      by rewrite decide_False by lia.
    + destruct (decide (from <= j)) as [Hle | Hgt].
      * rewrite decide_True by lia.
        replace (j - from) with (S (j - S from)) by lia. done.
      * by rewrite decide_False by lia.
Qed.

(** A child's part of the tree and a later child's part are disjoint. *)
Lemma any_kid_later L p from l q :
  (forall o q, L o q = true -> is_Some (strip o.1 q)) ->
  any_kid L p (S from) l q = true -> is_Some (strip (p ++ [from]) q) -> False.
Proof.
  intros Hloc H [r Hr]. rewrite strip_snoc in Hr. unfold any_kid in H.
  destruct (strip p q) as [[| j r'] |]; try done.
  case_decide; [subst j | done]. by rewrite decide_False in H by lia.
Qed.

Lemma annot_Set p v h q :
  annot (SetNodeAnnotation p v h) !! q = if decide (p = q) then v else annot h !! q.
Proof.
  unfold SetNodeAnnotation, store; simpl. destruct v as [x |].
  - rewrite lookup_insert. by case_decide.
  - rewrite lookup_delete. by case_decide.
Qed.

Lemma for_from_pure {A} (body : nat -> A -> heap -> heap) from l h :
  for_from (fun i c h => Ok (body i c h)) from l h = Ok (iter_from body from l h).
Proof. revert from h. induction l as [| c l IH]; intros from h; simpl; [done | apply IH]. Qed.

(** A loop over the children whose body changes the annotations of the child
    it is given, and only where [L] holds, by [G]. *)
Lemma for_from_pointwise (L : obj -> path -> bool) (G : option Z -> option Z)
    (body : nat -> node -> heap -> result heap) (p : path) :
  (forall o q, L o q = true -> is_Some (strip o.1 q)) ->
  forall l from h h',
    (forall k c h h', l !! k = Some c -> body (from + k) c h = Ok h' ->
       forall q, annot h' !! q =
         if L (p ++ [from + k], c) q then G (annot h !! q) else annot h !! q) ->
    for_from body from l h = Ok h' ->
    forall q, annot h' !! q =
      if any_kid L p from l q then G (annot h !! q) else annot h !! q.
Proof.
  intros Hloc l. induction l as [| c l IH]; intros from h h' Hbody Hrun q.
  - simpl in Hrun. injection Hrun as <-. by rewrite any_kid_nil.
  - simpl in Hrun. apply bind_Ok in Hrun as (h1 & H1 & Hrest).
    rewrite any_kid_cons by done.
    assert (Hhead := Hbody 0 c h h1 eq_refl). rewrite Nat.add_0_r in Hhead.
    specialize (Hhead H1 q).
    assert (Htail : forall q, annot h' !! q =
              if any_kid L p (S from) l q then G (annot h1 !! q) else annot h1 !! q).
    { apply IH with (h := h1); [| done]. intros k c' h2 h2' Hk H2.
      replace (S from + k) with (from + S k) in * by lia.
      by apply (Hbody (S k)). }
    rewrite Htail. destruct (L (p ++ [from], c) q) eqn:EL; simpl.
    + destruct (any_kid L p (S from) l q) eqn:EK; [| done].
      exfalso. eapply any_kid_later; eauto. by apply Hloc in EL.
    + by rewrite Hhead.
Qed.

(** ** The propagation primitive: what [_RecAnnotate] does *)

Lemma RecAnnotate_annot tree : forall p v h q,
  annot (_RecAnnotate p tree v h) !! q =
    if leaf_under (p, tree) q then Some (raise (annot h !! q) v)
    else annot h !! q.
Proof.
  induction tree as [name val | name ch IH] using node_ind; intros p v h q.
  - rewrite leaf_under_Leaf. simpl. unfold GetNodeAnnotation.
    destruct (annot h !! p) as [cur |] eqn:E.
    + destruct (cur <? v)%Z eqn:Elt.
      * rewrite annot_Set. case_bool_decide; subst.
        -- rewrite decide_True by done. rewrite E. simpl. f_equal. lia.
        -- by rewrite decide_False by done.
      * case_bool_decide; subst; [| done]. rewrite E. simpl. f_equal. lia.
    + rewrite annot_Set. case_bool_decide; subst.
      * rewrite decide_True by done. by rewrite E.
      * by rewrite decide_False by done.
  - rewrite leaf_under_Node. simpl.
    apply for_from_pointwise
      with (body := fun i c h => Ok (_RecAnnotate (p ++ [i]) c v h))
           (G := fun x => Some (raise x v)) (h := h).
    + apply leaf_under_local.
    + intros k c h1 h1' Hk [= <-] q'. simpl.
      rewrite Forall_lookup in IH. apply (IH _ _ Hk).
    + apply (for_from_pure (fun i c h => _RecAnnotate (p ++ [i]) c v h)).
Qed.

(** C1. [_RecAnnotate(node, SPLIT_PENALTY, value)] leaves every Leaf of the
    subtree of [node] with the maximum of its previous penalty and [value], an
    absent penalty counting as minus infinity; every other address, that of a
    leaf outside the subtree or of an interior node, keeps what it had. *)
Theorem RecAnnotate_raises_subtree (p : path) (tree : node) (v : Z) (h : heap) :
  let h' := _RecAnnotate p tree v h in
  (forall q, leaf_under (p, tree) q = true ->
     annot h' !! q = Some (raise (annot h !! q) v)) /\
  (forall q, leaf_under (p, tree) q = true -> annot h !! q = None ->
     annot h' !! q = Some v) /\
  (forall q, leaf_under (p, tree) q = false -> annot h' !! q = annot h !! q).
Proof.
  simpl. repeat split; intros q Hq.
  - by rewrite RecAnnotate_annot, Hq.
  - intros Hnone. by rewrite RecAnnotate_annot, Hq, Hnone.
  - by rewrite RecAnnotate_annot, Hq.
Qed.

(** ** The arithmetic rule: what [RecArithmeticExpression] does *)


Lemma arith_leaf_local first o q :
  arith_leaf first o q = true -> is_Some (strip o.1 q).
Proof. unfold arith_leaf. intros [H _]%andb_prop. by apply leaf_under_local. Qed.

Lemma arith_leaf_Node first p name ch q :
  arith_leaf first (p, Node name ch) q = any_kid (arith_leaf first) p 0 ch q.
Proof.
  unfold arith_leaf. rewrite leaf_under_Node. unfold any_kid.
  destruct (strip p q) as [[| j r] |]; try done.
  case_decide; [| done]. by destruct (ch !! (j - 0)).
Qed.

Lemma not_interior_child p name ch i c f :
  ch !! i = Some c -> not_interior (p, Node name ch) f ->
  not_interior (p ++ [i], c) f.
Proof.
  intros Hi H r name' ch' -> Hsub. simpl in *.
  apply (H (i :: r) name' ch').
  - by rewrite <- app_assoc.
  - simpl. by rewrite Hi.
Qed.

(** The loop up to child [k], child [k], and the loop after it. *)
Lemma for_from_split {A} (body : nat -> A -> heap -> result heap) l :
  forall k c from h, l !! k = Some c ->
    for_from body from l h =
      (h1 ← for_from body from (take k l) h;
       h2 ← body (from + k) c h1;
       for_from body (S (from + k)) (drop (S k) l) h2).
Proof.
  induction l as [| x l IH]; intros [| k] c from h Hk; try done.
  - injection Hk as ->. simpl. by rewrite Nat.add_0_r.
  - simpl in *. destruct (body from x h) as [h1 | e]; simpl; [| done].
    rewrite (IH k c (S from) h1 Hk). by replace (S from + k) with (from + S k) by lia.
Qed.

Lemma any_kid_take_miss L p from (l : list node) k q :
  is_Some (strip (p ++ [from + k]) q) -> any_kid L p from (take k l) q = false.
Proof.
  intros [r Hr]. rewrite strip_snoc in Hr. unfold any_kid.
  destruct (strip p q) as [[| j r'] |]; try done.
  case_decide; [subst j | done]. rewrite decide_True by lia.
  rewrite lookup_take_ge; [done | lia].
Qed.

Lemma RecArithmeticExpression_annot n : forall py p first h h',
  not_interior (p, n) first ->
  RecArithmeticExpression py p n first h = Ok h' ->
  forall q, annot h' !! q =
    if arith_leaf first (p, n) q
    then Some (raise (annot h !! q) ARITHMETIC_EXPRESSION)
    else annot h !! q.
Proof.
  induction n as [name val | name ch IH] using node_ind;
    intros py p first h h' Hni Hrun q.
  - unfold arith_leaf. rewrite leaf_under_Leaf. simpl in Hrun.
    destruct (decide (p = first)) as [-> | Hne].
    + injection Hrun as <-. case_bool_decide; subst; simpl; [| done].
      by rewrite bool_decide_eq_false_2 by auto.
    + apply bind_Ok in Hrun as (lt & Hlt & Hrun). unfold GetNodeAnnotation in Hlt.
      case_bool_decide; subst; simpl.
      * rewrite bool_decide_eq_true_2 by done.
        destruct (annot h !! p) as [cur |] eqn:E; simpl in Hlt.
        -- injection Hlt as <-. destruct (cur <? _)%Z eqn:Elt;
             injection Hrun as <-.
           ++ rewrite annot_Set, decide_True by done. simpl. f_equal. lia.
           ++ rewrite E. simpl. f_equal. lia.
        -- destruct py; [| done]. injection Hlt as <-. injection Hrun as <-.
           by rewrite annot_Set, decide_True.
      * destruct lt; injection Hrun as <-; [| done].
        by rewrite annot_Set, decide_False.
  - rewrite arith_leaf_Node. simpl in Hrun.
    destruct (decide (p = first)) as [-> | Hne].
    { exfalso. apply (Hni [] name ch); simpl; [by rewrite app_nil_r | done]. }
    eapply for_from_pointwise with (G := fun x => Some (raise x ARITHMETIC_EXPRESSION));
      [apply arith_leaf_local | | exact Hrun].
    intros k c h1 h1' Hk H1 q'. simpl in *.
    rewrite Forall_lookup in IH. eapply (IH _ _ Hk); [| exact H1].
    eapply not_interior_child; eauto.
Qed.

(** The comparison raises only in Python 3, and only [TypeError], at a leaf
    whose annotation is absent. *)
Lemma RecArithmeticExpression_Err n : forall py p first h e,
  not_interior (p, n) first ->
  RecArithmeticExpression py p n first h = Err e ->
  py = Python3 /\ e = TypeError /\
  exists q, arith_leaf first (p, n) q = true /\ annot h !! q = None.
Proof.
  induction n as [name val | name ch IH] using node_ind;
    intros py p first h e Hni Hrun.
  - simpl in Hrun. destruct (decide (p = first)) as [-> | Hne]; [done |].
    unfold GetNodeAnnotation in Hrun.
    destruct (annot h !! p) as [cur |] eqn:E; simpl in Hrun.
    + by destruct (cur <? _)%Z.
    + destruct py; [done |]. injection Hrun as <-. repeat split.
      exists p. split; [| done]. unfold arith_leaf. rewrite leaf_under_Leaf.
      by rewrite !bool_decide_eq_true_2.
  - simpl in Hrun. destruct (decide (p = first)) as [-> | Hne]; [done |].
    assert (Hgen : forall l from h,
      (forall k c, l !! k = Some c -> ch !! (from + k) = Some c) ->
      for_from (fun i c => RecArithmeticExpression py (p ++ [i]) c first) from l h
        = Err e ->
      py = Python3 /\ e = TypeError /\
      exists q, any_kid (arith_leaf first) p from l q = true /\ annot h !! q = None).
    { clear Hrun h. induction l as [| c l IHl]; intros from h Hsub Hrun; [done |].
      simpl in Hrun.
      assert (Hc : ch !! from = Some c).
      { specialize (Hsub 0 c eq_refl). by rewrite Nat.add_0_r in Hsub. }
      assert (Hnic := not_interior_child _ _ _ _ _ _ Hc Hni).
      destruct (RecArithmeticExpression py (p ++ [from]) c first h) as [h1 | e1] eqn:E1;
        simpl in Hrun.
      - destruct (IHl (S from) h1) as (-> & -> & q & Hq & Hnone); [| done |].
        { intros k c' Hk. replace (S from + k) with (from + S k) by lia.
          by apply Hsub. }
        repeat split. exists q. rewrite any_kid_cons by apply arith_leaf_local.
        rewrite Hq, orb_true_r. split; [done |].
        rewrite (RecArithmeticExpression_annot _ _ _ _ _ _ Hnic E1) in Hnone.
        destruct (arith_leaf first (p ++ [from], c) q) eqn:EL; [done | done].
      - injection Hrun as ->. rewrite Forall_lookup in IH.
        destruct (IH _ _ Hc _ _ _ _ _ Hnic E1) as (-> & -> & q & Hq & Hnone).
        repeat split. exists q. rewrite any_kid_cons by apply arith_leaf_local.
        by rewrite Hq. }
    destruct (Hgen ch 0 h) as (-> & -> & q & Hq & Hnone); [by intros k c Hk | done |].
    repeat split. exists q. by rewrite arith_leaf_Node.
Qed.

(** When it returns, no leaf it compared was absent under Python 3. *)
Lemma RecArithmeticExpression_py3_Ok n : forall p first h h',
  not_interior (p, n) first ->
  RecArithmeticExpression Python3 p n first h = Ok h' ->
  forall q, arith_leaf first (p, n) q = true -> is_Some (annot h !! q).
Proof.
  induction n as [name val | name ch IH] using node_ind;
    intros p first h h' Hni Hrun q Hq.
  - unfold arith_leaf in Hq. rewrite leaf_under_Leaf in Hq.
    apply andb_prop in Hq as [Hq1%bool_decide_eq_true Hq2%bool_decide_eq_true].
    subst q. simpl in Hrun. rewrite decide_False in Hrun by done.
    unfold GetNodeAnnotation in Hrun. by destruct (annot h !! p).
  - simpl in Hrun. destruct (decide (p = first)) as [-> | Hne].
    { exfalso. apply (Hni [] name ch); simpl; [by rewrite app_nil_r | done]. }
    rewrite arith_leaf_Node in Hq. unfold any_kid in Hq.
    destruct (strip p q) as [[| j r] |] eqn:Es; try done.
    rewrite Nat.sub_0_r in Hq. case_decide; [| done].
    destruct (ch !! j) as [c |] eqn:Ej; [| done].
    rewrite (for_from_split _ _ j c 0 h Ej) in Hrun. simpl in Hrun.
    apply bind_Ok in Hrun as (h1 & Hpre & Hrun).
    apply bind_Ok in Hrun as (h2 & Hj & _).
    assert (Hnic := not_interior_child _ _ _ _ _ _ Ej Hni).
    rewrite Forall_lookup in IH.
    destruct (IH _ _ Ej _ _ _ _ Hnic Hj q Hq) as [x Hx].
    assert (Hsame : annot h1 !! q = annot h !! q).
    { erewrite (for_from_pointwise (arith_leaf first)
                  (fun x => Some (raise x ARITHMETIC_EXPRESSION)) _ p
                  (arith_leaf_local first)); [| | exact Hpre].
      - rewrite any_kid_take_miss; [done |]. simpl.
        by apply arith_leaf_local in Hq.
      - intros k c' h3 h3' Hk H3 q'. simpl in *.
        apply lookup_take_Some in Hk as [Hk _].
        eapply RecArithmeticExpression_annot; [| exact H3].
        eapply not_interior_child; eauto. }
    rewrite <- Hsame. eauto.
Qed.

Lemma FirstChildNode_leaf n : forall p first,
  FirstChildNode p n = Ok first -> leaf_under (p, n) first = true.
Proof.
  induction n as [name val | name ch IH] using node_ind; intros p first Hf.
  - injection Hf as <-. rewrite leaf_under_Leaf. by apply bool_decide_eq_true_2.
  - simpl in Hf. destruct ch as [| c ch]; [done |].
    apply Forall_cons in IH as [IHc _]. specialize (IHc _ _ Hf).
    rewrite leaf_under_Node, any_kid_cons by apply leaf_under_local.
    by rewrite IHc.
Qed.

Lemma leaf_not_interior o f : leaf_under o f = true -> not_interior o f.
Proof.
  unfold leaf_under, leaf_at. intros H r name ch -> Hsub.
  rewrite strip_app, Hsub in H. done.
Qed.

Lemma FirstChildNode_not_interior p n first :
  FirstChildNode p n = Ok first -> not_interior (p, n) first.
Proof. intros H. by apply leaf_not_interior, FirstChildNode_leaf. Qed.

(** Whenever the rule returns, on either interpreter: every leaf of the
    subtree but the first has the maximum of its old penalty and 42, and
    nothing else is changed. *)
Lemma SetArithmeticExpression_annot py p n first h h' :
  FirstChildNode p n = Ok first ->
  _SetArithmeticExpression py (p, n) h = Ok h' ->
  forall q, annot h' !! q =
    if arith_leaf first (p, n) q
    then Some (raise (annot h !! q) ARITHMETIC_EXPRESSION)
    else annot h !! q.
Proof.
  intros Hf Hrun. unfold _SetArithmeticExpression in Hrun. simpl in Hrun.
  rewrite Hf in Hrun. simpl in Hrun.
  eapply RecArithmeticExpression_annot; [| exact Hrun].
  by apply FirstChildNode_not_interior.
Qed.

(** On Python 2 the rule returns whenever the first leaf exists. *)
Lemma SetArithmeticExpression_python2 p n first h :
  FirstChildNode p n = Ok first ->
  exists h', _SetArithmeticExpression Python2 (p, n) h = Ok h'.
Proof.
  intros Hf. unfold _SetArithmeticExpression. simpl. rewrite Hf. simpl.
  destruct (RecArithmeticExpression Python2 p n first h) as [h' | e] eqn:E; [eauto |].
  apply RecArithmeticExpression_Err in E as (? & _); [done |].
  by apply FirstChildNode_not_interior.
Qed.

(** On Python 3 it returns exactly when every leaf it compares is annotated,
    and raises [TypeError] otherwise. *)
Lemma SetArithmeticExpression_python3 p n first h :
  FirstChildNode p n = Ok first ->
  (exists q, arith_leaf first (p, n) q = true /\ annot h !! q = None) ->
  _SetArithmeticExpression Python3 (p, n) h = Err TypeError.
Proof.
  intros Hf (q & Hq & Hnone). unfold _SetArithmeticExpression. simpl.
  rewrite Hf. simpl. assert (Hni := FirstChildNode_not_interior _ _ _ Hf).
  destruct (RecArithmeticExpression Python3 p n first h) as [h' | e] eqn:E.
  - destruct (RecArithmeticExpression_py3_Ok _ _ _ _ _ Hni E q Hq) as [x Hx].
    congruence.
  - by apply RecArithmeticExpression_Err in E as (_ & -> & _).
Qed.

Lemma SetArithmeticExpression_python3_Ok p n first h :
  FirstChildNode p n = Ok first ->
  (forall q, arith_leaf first (p, n) q = true -> is_Some (annot h !! q)) ->
  exists h', _SetArithmeticExpression Python3 (p, n) h = Ok h'.
Proof.
  intros Hf Hall. unfold _SetArithmeticExpression. simpl. rewrite Hf. simpl.
  destruct (RecArithmeticExpression Python3 p n first h) as [h' | e] eqn:E; [eauto |].
  apply RecArithmeticExpression_Err in E as (_ & _ & q & Hq & Hnone);
    [| by apply FirstChildNode_not_interior].
  destruct (Hall q Hq) as [x Hx]. congruence.
Qed.

(** The arithmetic rule as the spec has it, which the code meets on Python 2:
    it returns, every leaf but the first ends at 42 or more, a leaf that had 42
    or more keeps its penalty, and the first leaf is not touched. *)
Lemma arithmetic_rule_python2 p n first h :
  FirstChildNode p n = Ok first ->
  exists h', _SetArithmeticExpression Python2 (p, n) h = Ok h' /\
    (forall q, leaf_under (p, n) q = true -> q <> first ->
       exists x, annot h' !! q = Some x /\ (ARITHMETIC_EXPRESSION <= x)%Z) /\
    (forall q x, annot h !! q = Some x -> (ARITHMETIC_EXPRESSION <= x)%Z ->
       annot h' !! q = Some x) /\
    annot h' !! first = annot h !! first.
Proof.
  intros Hf. destruct (SetArithmeticExpression_python2 p n first h Hf) as [h' Hrun].
  exists h'. split; [done |].
  assert (Heq := SetArithmeticExpression_annot _ _ _ _ _ _ Hf Hrun).
  repeat split.
  - intros q Hq Hne. rewrite Heq. unfold arith_leaf.
    rewrite Hq, bool_decide_eq_true_2 by done. simpl. eexists. split; [done |].
    destruct (annot h !! q); simpl; lia.
  - intros q x Hx Hle. rewrite Heq, Hx. destruct (arith_leaf first (p, n) q); [| done].
    simpl. f_equal. lia.
  - rewrite Heq. unfold arith_leaf. rewrite bool_decide_eq_false_2 by auto.
    by rewrite andb_false_r.
Qed.


(** C4. On Python 3 the arithmetic rule does not deliver what the claim says:
    on [x + y] with no annotation yet, the comparison of the absent penalty of
    [+] with 42 raises [TypeError] and the rule, and with it the whole pass,
    stops; [+] and [y] are left without a penalty.  (On Python 2 the same
    input gives [+] and [y] the penalty 42 and leaves [x] alone.) *)
Theorem arithmetic_rule_python3_unannotated :
  _SetArithmeticExpression Python3 ([], x_plus_y) no_annotations = Err TypeError /\
  ComputeSplitPenalties Python3 x_plus_y no_annotations = Err TypeError /\
  exists h', ComputeSplitPenalties Python2 x_plus_y no_annotations = Ok h' /\
    annot h' !! [0] = None /\
    annot h' !! [1] = Some ARITHMETIC_EXPRESSION /\
    annot h' !! [2] = Some ARITHMETIC_EXPRESSION.
Proof.
  split; [reflexivity |]. split; [reflexivity |].
  eexists. split; [vm_compute; reflexivity |]. by vm_compute.
Qed.

(** C10. Whenever the subtree the arithmetic rule is run on has a leaf other
    than its first leaf whose SplitPenalty is absent, the rule compares the
    absent value with 42: on Python 3 the comparison raises [TypeError], on
    Python 2 it holds and the leaf is set to 42.  [_RecAnnotate] on the same
    tree tests for the absent value first and stores its value on either
    interpreter. *)
Theorem arithmetic_rule_compares_absent (p : path) (n : node) (first q : path)
    (h : heap) :
  FirstChildNode p n = Ok first ->
  leaf_under (p, n) q = true -> q <> first -> annot h !! q = None ->
  _SetArithmeticExpression Python3 (p, n) h = Err TypeError /\
  (exists h', _SetArithmeticExpression Python2 (p, n) h = Ok h' /\
     annot h' !! q = Some ARITHMETIC_EXPRESSION) /\
  (forall v, annot (_RecAnnotate p n v h) !! q = Some v).
Proof.
  intros Hf Hq Hne Hnone.
  assert (Ha : arith_leaf first (p, n) q = true).
  { unfold arith_leaf. by rewrite Hq, bool_decide_eq_true_2. }
  repeat split.
  - eapply SetArithmeticExpression_python3; eauto.
  - destruct (SetArithmeticExpression_python2 p n first h Hf) as [h' Hrun].
    exists h'. split; [done |].
    by rewrite (SetArithmeticExpression_annot _ _ _ _ _ _ Hf Hrun), Ha, Hnone.
  - intros v. by rewrite RecAnnotate_annot, Hq, Hnone.
Qed.

Lemma arithmetic_rule_compares_absent_witness :
  _SetArithmeticExpression Python3 ([], x_plus_y) no_annotations = Err TypeError /\
  (exists h', _SetArithmeticExpression Python2 ([], x_plus_y) no_annotations = Ok h' /\
     annot h' !! [1] = Some ARITHMETIC_EXPRESSION) /\
  (forall v, annot (_RecAnnotate [] x_plus_y v no_annotations) !! [1] = Some v).
Proof.
  apply (arithmetic_rule_compares_absent [] x_plus_y [0] [1] no_annotations);
    [reflexivity | reflexivity | discriminate | reflexivity].
Defined.

(** ** Summaries of procedures *)


Ltac osolve :=
  repeat match goal with
         | x : option Z |- _ => destruct x
         end;
  simpl in *; try done; try (f_equal; lia); try lia.

Lemma ole_refl x : ole x x.
Proof. osolve. Qed.

Lemma ole_trans x y z : ole x y -> ole y z -> ole x z.
Proof. osolve. Qed.

Lemma ole_ojoin x c : ole x (ojoin x c).
Proof. osolve. Qed.

Lemma ojoin_assoc x a b : ojoin (ojoin x a) b = ojoin x (ojoin a b).
Proof. osolve. Qed.

Lemma ojoin_mono x x' c : ole x x' -> ole (ojoin x c) (ojoin x' c).
Proof. osolve. Qed.

Lemma ojoin_idem x c : ojoin (ojoin x c) c = ojoin x c.
Proof. osolve. Qed.

Lemma raise_ojoin x v : Some (raise x v) = ojoin x (Some v).
Proof. osolve. Qed.


Lemma pre_like_id : pre_like xid.
Proof. exists None. left. intros x. unfold xid. f_equal. osolve. Qed.

Lemma post_like_id : post_like xid.
Proof.
  exists None. split.
  - intros x y [= <-]. osolve.
  - unfold xid. eauto.
Qed.

Lemma pre_like_good s : pre_like s -> good s.
Proof.
  intros [c [H | H]].
  - right. exists c. split.
    + intros x y. rewrite H. by intros [= <-].
    + intros x x' _ _. rewrite H. eauto.
  - left. eauto.
Qed.

Lemma post_like_good s : post_like s -> good s.
Proof. by right. Qed.

Lemma pre_pre s1 s2 : pre_like s1 -> pre_like s2 -> pre_like (xcomp s1 s2).
Proof.
  unfold xcomp. intros [c1 [H1 | H1]] [c2 [H2 | H2]].
  - exists (ojoin c1 c2). left. intros x. rewrite H1. simpl. rewrite H2.
    by rewrite ojoin_assoc.
  - exists c2. right. intros x. rewrite H1. simpl. by rewrite H2.
  - exists (ojoin c1 c2). right. intros x. rewrite H1. simpl. by rewrite H2.
  - exists c2. right. intros x. rewrite H1. simpl. by rewrite H2.
Qed.

Lemma post_post s1 s2 : post_like s1 -> post_like s2 -> post_like (xcomp s1 s2).
Proof.
  unfold xcomp. intros (c1 & H1 & U1) (c2 & H2 & U2). exists (ojoin c1 c2). split.
  - intros x y. destruct (s1 x) as [y1 |] eqn:E1; simpl; [| done].
    intros Hy. rewrite (H1 _ _ E1) in Hy. rewrite (H2 _ _ Hy).
    apply ojoin_assoc.
  - intros x x' [y Hy] Hle. destruct (s1 x) as [y1 |] eqn:E1; simpl in Hy; [| done].
    destruct (U1 x x') as [y1' E1']; [by rewrite E1 | done |].
    rewrite E1'. simpl. apply (U2 y1); [by rewrite Hy |].
    rewrite (H1 _ _ E1), (H1 _ _ E1'). by apply ojoin_mono.
Qed.

Lemma pre_good s1 s2 : pre_like s1 -> good s2 -> good (xcomp s1 s2).
Proof.
  unfold xcomp. intros [c1 [H1 | H1]] [[r Hr] | (c2 & H2 & U2)].
  - left. exists r. intros x. rewrite H1. simpl. apply Hr.
  - right. exists (ojoin c1 c2). split.
    + intros x y. rewrite H1. simpl. intros Hy. rewrite (H2 _ _ Hy).
      apply ojoin_assoc.
    + intros x x'. rewrite !H1. simpl. intros Hs Hle. apply (U2 _ _ Hs).
      by apply ojoin_mono.
  - left. exists (s2 c1). intros x. by rewrite H1.
  - left. exists (s2 c1). intros x. by rewrite H1.
Qed.

Lemma good_post s1 s2 : good s1 -> post_like s2 -> good (xcomp s1 s2).
Proof.
  unfold xcomp. intros [[r Hr] | H1] H2.
  - left. exists (r ≫= s2). intros x. by rewrite Hr.
  - right. by apply post_post.
Qed.

(** A good summary, applied to what it produced, produces it again. *)
Lemma good_idem s x y : good s -> s x = Some y -> s y = Some y.
Proof.
  intros [[r Hr] | (c & H & U)] Hx.
  - rewrite Hr in *. done.
  - destruct (U x y) as [z Hz]; [by rewrite Hx | |].
    + rewrite (H _ _ Hx). apply ole_ojoin.
    + rewrite Hz. f_equal. rewrite (H _ _ Hz), (H _ _ Hx). apply ojoin_idem.
Qed.

Lemma seq_Ok f g h h' :
  (f >> g) h = Ok h' <-> exists h1, f h = Ok h1 /\ g h1 = Ok h'.
Proof. unfold seq. apply bind_Ok. Qed.

Lemma sums_seq f g t1 t2 :
  sums f t1 -> sums g t2 -> sums (f >> g) (fun q => xcomp (t1 q) (t2 q)).
Proof.
  intros Hf Hg h. unfold seq, xcomp. specialize (Hf h).
  destruct (f h) as [h1 | e]; simpl.
  - specialize (Hg h1). destruct (g h1) as [h2 | e].
    + intros q. rewrite Hf. simpl. apply Hg.
    + destruct Hg as [q Hq]. exists q. rewrite Hf. simpl. apply Hq.
  - destruct Hf as [q Hq]. exists q. by rewrite Hq.
Qed.

Lemma family_seq (P1 P2 P3 : xform -> Prop) S t1 t2 :
  (forall s1 s2, P1 s1 -> P2 s2 -> P3 (xcomp s1 s2)) ->
  family P1 S t1 -> family P2 S t2 ->
  family P3 S (fun q => xcomp (t1 q) (t2 q)).
Proof.
  unfold xcomp. intros HP [F1 | [H1 I1]] [F2 | [H2 I2]].
  - left. intros q x. by rewrite F1.
  - left. intros q x. by rewrite F1.
  - left. intros q x. destruct (t1 q x); simpl; [apply F2 | done].
  - right. split.
    + intros q. by apply HP.
    + intros q Hq x. rewrite I1 by done. simpl. by apply I2.
Qed.

Lemma good_ext (s s' : xform) : (forall x, s x = s' x) -> good s -> good s'.
Proof.
  intros He [[r Hr] | (c & H & U)].
  - left. exists r. intros x. by rewrite <- He.
  - right. exists c. split.
    + intros x y. rewrite <- He. apply H.
    + intros x x'. rewrite <- !He. apply U.
Qed.

Lemma family_seq_disjoint S1 S2 t1 t2 :
  (forall q, S1 q \/ ~ S1 q) ->
  (forall q, S1 q -> S2 q -> False) ->
  family good S1 t1 -> family good S2 t2 ->
  family good (fun q => S1 q \/ S2 q) (fun q => xcomp (t1 q) (t2 q)).
Proof.
  unfold xcomp. intros Hdec Hd [F1 | [H1 I1]] [F2 | [H2 I2]].
  - left. intros q x. by rewrite F1.
  - left. intros q x. by rewrite F1.
  - left. intros q x. destruct (t1 q x); simpl; [apply F2 | done].
  - right. split.
    + intros q. destruct (Hdec q) as [Hq | Hq].
      * apply good_ext with (s := t1 q); [| done]. intros x.
        destruct (t1 q x) as [y |]; simpl; [| done].
        symmetry. apply I2. intros Hq2. by apply (Hd q).
      * apply good_ext with (s := t2 q); [| done]. intros x.
        by rewrite I1.
    + intros q Hq x. rewrite I1 by tauto. simpl. apply I2. tauto.
Qed.

Lemma trace_app m l1 m1 l2 m2 :
  trace m l1 m1 -> trace m1 l2 m2 -> trace m (l2 ++ l1) m2.
Proof.
  intros H1 H2. induction H2 as [| l m' q v H2 IH]; simpl; [done |].
  by constructor.
Qed.

(** Doing nothing, and one call of [SetNodeAnnotation]. *)
Lemma logs_same R h : 
  exists l, writes h = l ++ writes h /\ trace (annot h) l (annot h) /\
            Forall (ok_write R) l.
Proof. exists []. repeat split; [constructor | done]. Qed.

Lemma logs_Set R q v h :
  ok_write R (MkWrite q (annot h !! q) v) ->
  exists l, writes (SetNodeAnnotation q v h) = l ++ writes h /\
            trace (annot h) l (annot (SetNodeAnnotation q v h)) /\
            Forall (ok_write R) l.
Proof.
  intros Hok. exists [MkWrite q (annot h !! q) v]. repeat split.
  - simpl. apply trace_cons. constructor.
  - by constructor.
Qed.

Lemma logs_seq R f g : logs R f -> logs R g -> logs R (f >> g).
Proof.
  intros Hf Hg h h' (h1 & H1 & H2)%seq_Ok.
  destruct (Hf _ _ H1) as (l1 & E1 & T1 & F1).
  destruct (Hg _ _ H2) as (l2 & E2 & T2 & F2).
  exists (l2 ++ l1). split; [| split].
  - by rewrite E2, E1, app_assoc.
  - by eapply trace_app.
  - by apply Forall_app.
Qed.

Lemma sound_weaken (P P' : xform -> Prop) (R R' S S' : path -> Prop) f :
  (forall s, P s -> P' s) -> (forall q, R q -> R' q) -> (forall q, S q -> S' q) ->
  sound P R S f -> sound P' R' S' f.
Proof.
  intros HP HR HS [(t & Ht & Hfam) Hl]. split.
  - exists t. split; [done |]. destruct Hfam as [F | [H I]]; [by left | right].
    split; [intros q; apply HP, H |]. intros q Hq. apply I. auto.
  - intros h h' Hrun. destruct (Hl _ _ Hrun) as (l & E & T & F). exists l.
    split; [done |]. split; [done |]. eapply Forall_impl; [exact F |].
    intros w [Hw | [Hn Hw]]; [by left | right; auto].
Qed.

Lemma sound_seq (P1 P2 P3 : xform -> Prop) R S f g :
  (forall s1 s2, P1 s1 -> P2 s2 -> P3 (xcomp s1 s2)) ->
  sound P1 R S f -> sound P2 R S g -> sound P3 R S (f >> g).
Proof.
  intros HP [(t1 & Hs1 & Hf1) Hl1] [(t2 & Hs2 & Hf2) Hl2]. split.
  - exists (fun q => xcomp (t1 q) (t2 q)). split; [by apply sums_seq |].
    by eapply family_seq.
  - by apply logs_seq.
Qed.

Lemma sound_seq_disjoint R S1 S2 f g :
  (forall q, S1 q \/ ~ S1 q) ->
  (forall q, S1 q -> S2 q -> False) ->
  sound good R S1 f -> sound good R S2 g ->
  sound good R (fun q => S1 q \/ S2 q) (f >> g).
Proof.
  intros Hdec Hd [(t1 & Hs1 & Hf1) Hl1] [(t2 & Hs2 & Hf2) Hl2]. split.
  - exists (fun q => xcomp (t1 q) (t2 q)). split; [by apply sums_seq |].
    by apply family_seq_disjoint.
  - by apply logs_seq.
Qed.

Lemma sound_err P R S e : sound P R S (fun _ => Err e).
Proof.
  split.
  - exists (fun _ _ => None). split; [| by left]. intros h. by exists [].
  - intros h h' [=].
Qed.

Lemma sound_skip (P : xform -> Prop) R S : P xid -> sound P R S skip.
Proof.
  intros HP. split.
  - exists (fun _ => xid). split; [by intros h q | right]. split; [done |].
    by intros q _ x.
  - intros h h' [= <-]. apply logs_same.
Qed.

Lemma sound_eval {A} P R S (r : result A) (k : A -> proc) :
  (forall a, r = Ok a -> sound P R S (k a)) -> sound P R S (eval r k).
Proof. destruct r as [a | e]; simpl; [auto | intros _; apply sound_err]. Qed.

Lemma sound_if P R S (b : bool) (f g : proc) :
  sound P R S f -> sound P R S g -> sound P R S (if b then f else g).
Proof. by destruct b. Qed.

Lemma sound_decide P R S (Q : Prop) `{Decision Q} (f g : proc) :
  sound P R S f -> sound P R S g -> sound P R S (if decide Q then f else g).
Proof. by case_decide. Qed.

(** *** The summaries of the primitives *)


Lemma pre_mark : mark_class pre_like.
Proof.
  split; [apply pre_like_id |]. split; [| split; [apply pre_pre |]].
  - intros c. exists c. by left.
  - intros s s' He [c [H | H]]; exists c; [left | right]; intros x;
      by rewrite <- He.
Qed.

Lemma post_mark : mark_class post_like.
Proof.
  split; [apply post_like_id |]. split; [| split; [apply post_post |]].
  - intros c. exists c. split; [by intros x y [= <-] | eauto].
  - intros s s' He (c & H & U). exists c. split.
    + intros x y. rewrite <- He. apply H.
    + intros x x'. rewrite <- !He. apply U.
Qed.

Lemma below_dec p q : below p q \/ ~ below p q.
Proof.
  unfold below. destruct (strip p q); [left; eauto | right].
  by intros [? ?].
Qed.

Lemma below_snoc p i q : below (p ++ [i]) q -> sbelow p q.
Proof.
  intros [r Hr]. apply strip_Some in Hr. exists i, r.
  by rewrite Hr, <- app_assoc.
Qed.

Lemma below_snoc_inj p i k q : below (p ++ [i]) q -> below (p ++ [k]) q -> i = k.
Proof.
  intros [r Hr] [r' Hr']. rewrite strip_snoc in Hr, Hr'.
  destruct (strip p q) as [[| j r0] |]; try done.
  repeat case_decide; congruence.
Qed.

Lemma below_app p r q : below (p ++ r) q -> below p q.
Proof.
  intros [r' Hr]. apply strip_Some in Hr. subst q. rewrite <- app_assoc.
  unfold below. rewrite strip_app. eauto.
Qed.

Lemma below_sbelow_app p i r q : below (p ++ i :: r) q -> sbelow p q.
Proof.
  intros [r' Hr]. apply strip_Some in Hr. subst q. exists i, (r ++ r').
  by rewrite <- app_assoc.
Qed.

Lemma logs_skip R : logs R skip.
Proof. intros h h' [= <-]. apply logs_same. Qed.

Lemma logs_for_from {A} R (body : nat -> A -> proc) l : forall from,
  (forall k c, l !! k = Some c -> logs R (body (from + k) c)) ->
  logs R (for_from body from l).
Proof.
  induction l as [| c l IH]; intros from Hbody; [apply logs_skip |].
  apply (logs_seq R (body from c) (for_from body (S from) l)).
  - specialize (Hbody 0 c eq_refl). by rewrite Nat.add_0_r in Hbody.
  - apply IH. intros k c' Hk. replace (S from + k) with (from + S k) by lia.
    by apply Hbody.
Qed.

Lemma logs_RecAnnotate R tree : forall p v, logs R (step (_RecAnnotate p tree v)).
Proof.
  induction tree as [name val | name ch IH] using node_ind; intros p v h h' Hrun.
  - unfold step in Hrun. simpl in Hrun. injection Hrun as <-.
    unfold GetNodeAnnotation.
    destruct (annot h !! p) as [cur |] eqn:E.
    + destruct (cur <? v)%Z eqn:Elt.
      * apply logs_Set. left. rewrite E. simpl. lia.
      * apply logs_same.
    + apply logs_Set. left. by rewrite E.
  - assert (Hl : logs R (for_from (fun i c => step (_RecAnnotate (p ++ [i]) c v)) 0 ch)).
    { apply logs_for_from. intros k c Hk. rewrite Forall_lookup in IH.
      apply (IH _ _ Hk). }
    apply Hl. unfold step in *. simpl in Hrun.
    by rewrite (for_from_pure (fun i c => _RecAnnotate (p ++ [i]) c v)).
Qed.

Lemma sound_RecAnnotate P R p tree v :
  mark_class P -> sound P R (below p) (step (_RecAnnotate p tree v)).
Proof.
  intros (Hid & Hjoin & _ & Hext). split; [| apply logs_RecAnnotate].
  exists (fun q x => Some (if leaf_under (p, tree) q then Some (raise x v) else x)).
  split.
  - intros h q. unfold step. by rewrite RecAnnotate_annot.
  - right. split.
    + intros q. destruct (leaf_under (p, tree) q); [| apply Hid].
      apply (Hext (fun x => Some (ojoin x (Some v)))); [| apply Hjoin].
      intros x. by rewrite raise_ojoin.
    + intros q Hq x. destruct (leaf_under (p, tree) q) eqn:E; [| done].
      by apply leaf_under_local in E.
Qed.

Lemma sound_SetUnbreakable P R S o :
  mark_class P -> (forall q, below o.1 q -> S q) ->
  sound P R S (_SetUnbreakable o).
Proof.
  intros HP HS.
  apply (sound_weaken P P R R (below o.1) S); [done | done | exact HS |].
  by apply sound_RecAnnotate.
Qed.

Lemma sound_SetStronglyConnected P R S nodes :
  mark_class P -> (forall o q, o ∈ nodes -> below o.1 q -> S q) ->
  sound P R S (_SetStronglyConnected nodes).
Proof.
  intros HP. unfold _SetStronglyConnected.
  induction nodes as [| o nodes IH]; intros HS.
  - apply sound_skip, HP.
  - assert (H1 : sound P R S (step (_RecAnnotate o.1 o.2 STRONGLY_CONNECTED))).
    { apply (sound_weaken P P R R (below o.1) S); [done | done | |].
      - intros q. apply HS. by left.
      - by apply sound_RecAnnotate. }
    assert (H2 := IH (fun o' q Ho => HS o' q (list_elem_of_further _ _ _ Ho))).
    destruct HP as (_ & _ & Hseq & _).
    apply (sound_seq P P P R S _ _ Hseq H1 H2).
Qed.

Lemma sound_clear R S q0 :
  R q0 -> S q0 -> sound pre_like R S (step (SetNodeAnnotation q0 None)).
Proof.
  intros HR HS. split.
  - exists (fun q x => Some (if decide (q0 = q) then None else x)). split.
    + intros h q. unfold step. by rewrite annot_Set.
    + right. split.
      * intros q. case_decide; [| apply pre_like_id]. exists None. by right.
      * intros q Hq x. case_decide; [by subst | done].
  - intros h h' [= <-]. apply logs_Set. by right.
Qed.

Lemma logs_RecArithmeticExpression R n : forall py p first,
  logs R (RecArithmeticExpression py p n first).
Proof.
  induction n as [name val | name ch IH] using node_ind; intros py p first.
  - intros h h' Hrun. simpl in Hrun.
    destruct (decide (p = first)); [injection Hrun as <-; apply logs_same |].
    apply bind_Ok in Hrun as (lt & Hlt & Hrun). unfold GetNodeAnnotation in Hlt.
    destruct lt; injection Hrun as <-; [| apply logs_same].
    apply logs_Set. left. simpl.
    destruct (annot h !! p) as [cur |]; simpl in *; [| done].
    injection Hlt as Hlt. lia.
  - simpl. destruct (decide (p = first)); [apply logs_skip |].
    apply logs_for_from. intros k c Hk. rewrite Forall_lookup in IH.
    apply (IH _ _ Hk).
Qed.

Lemma logs_SetArithmeticExpression R py o : logs R (_SetArithmeticExpression py o).
Proof.
  intros h h' Hrun. unfold _SetArithmeticExpression in Hrun.
  apply bind_Ok in Hrun as (first & _ & Hrun).
  by apply (logs_RecArithmeticExpression R) in Hrun.
Qed.

Lemma sound_SetArithmeticExpression R (S : path -> Prop) py p n :
  (forall first q, arith_leaf first (p, n) q = true -> S q) ->
  sound post_like R S (_SetArithmeticExpression py (p, n)).
Proof.
  intros HS. split; [| apply logs_SetArithmeticExpression].
  destruct (FirstChildNode p n) as [first | e] eqn:Hf.
  - exists (fun q x =>
              if arith_leaf first (p, n) q
              then match py, x with
                   | Python3, None => None
                   | _, _ => Some (Some (raise x ARITHMETIC_EXPRESSION))
                   end
              else Some x).
    split.
    + intros h.
      destruct (_SetArithmeticExpression py (p, n) h) as [h' | e] eqn:Hrun.
      * intros q. rewrite (SetArithmeticExpression_annot _ _ _ _ _ _ Hf Hrun).
        destruct (arith_leaf first (p, n) q) eqn:Hq; [| done].
        destruct py; [done |]. destruct (annot h !! q) eqn:E; [done |].
        rewrite (SetArithmeticExpression_python3 p n first h Hf) in Hrun; [done |].
        eauto.
      * unfold _SetArithmeticExpression in Hrun. simpl in Hrun.
        rewrite Hf in Hrun. simpl in Hrun.
        apply RecArithmeticExpression_Err in Hrun as (-> & _ & q & Hq & Hnone);
          [| by apply FirstChildNode_not_interior].
        exists q. by rewrite Hq, Hnone.
    + right. split.
      * intros q. destruct (arith_leaf first (p, n) q); [| apply post_like_id].
        exists (Some ARITHMETIC_EXPRESSION). split.
        -- intros x y Hy. rewrite <- raise_ojoin.
           destruct py, x; simplify_eq; done.
        -- intros x x' [y Hy] Hle. destruct py, x, x'; simpl in *; eauto; done.
      * intros q Hq x. destruct (arith_leaf first (p, n) q) eqn:E; [| done].
        by apply HS in E.
  - exists (fun _ _ => None). split; [| by left].
    intros h. unfold _SetArithmeticExpression. simpl. rewrite Hf. simpl.
    by exists [].
Qed.

(** *** Loops over the children *)

Lemma sound_ext P R S (f g : proc) :
  (forall h, f h = g h) -> sound P R S f -> sound P R S g.
Proof.
  intros He [(t & Ht & Hfam) Hl]. split.
  - exists t. split; [| done]. intros h. rewrite <- He. apply Ht.
  - intros h h'. rewrite <- He. apply Hl.
Qed.

Lemma seq_assoc (f g k : proc) h : ((f >> g) >> k) h = (f >> (g >> k)) h.
Proof. unfold seq. by destruct (f h). Qed.

Lemma seq_skip_r (f : proc) h : (f >> skip) h = f h.
Proof. unfold seq, skip. by destruct (f h). Qed.

Lemma in_kids_dec p lo hi q : in_kids p lo hi q \/ ~ in_kids p lo hi q.
Proof.
  unfold in_kids, below. destruct (strip p q) as [[| j r] |] eqn:E.
  - right. intros (k & _ & [r' Hr]). by rewrite strip_snoc, E in Hr.
  - destruct (decide (lo <= j < hi)) as [Hj | Hj].
    + left. exists j. split; [done |]. rewrite strip_snoc, E, decide_True by done.
      eauto.
    + right. intros (k & Hk & [r' Hr]). rewrite strip_snoc, E in Hr.
      case_decide; [by subst | done].
  - right. intros (k & _ & [r' Hr]). by rewrite strip_snoc, E in Hr.
Qed.

Lemma in_kids_sbelow p lo hi q : in_kids p lo hi q -> sbelow p q.
Proof. intros (k & _ & Hk). by eapply below_snoc. Qed.

Lemma sound_for_from R p (body : nat -> node -> proc) l : forall from,
  (forall k c, l !! k = Some c ->
     sound good R (below (p ++ [from + k])) (body (from + k) c)) ->
  sound good R (in_kids p from (from + length l)) (for_from body from l).
Proof.
  induction l as [| c l IH]; intros from Hbody.
  - apply sound_skip. apply post_like_good, post_like_id.
  - assert (H1 : sound good R (below (p ++ [from])) (body from c)).
    { specialize (Hbody 0 c eq_refl). by rewrite Nat.add_0_r in Hbody. }
    assert (H2 : sound good R (in_kids p (S from) (S from + length l))
                   (for_from body (S from) l)).
    { apply IH. intros k c' Hk. replace (S from + k) with (from + S k) by lia.
      by apply Hbody. }
    assert (Hd : forall q, below (p ++ [from]) q ->
                   in_kids p (S from) (S from + length l) q -> False).
    { intros q Hq (k & Hk & Hq'). assert (from = k) by by eapply below_snoc_inj.
      lia. }
    apply (sound_weaken good good R R _ (in_kids p from (from + length (c :: l))))
      with (4 := sound_seq_disjoint R _ _ _ _ (below_dec (p ++ [from])) Hd H1 H2);
      try done.
    intros q [Hq | (k & Hk & Hq)]; [exists from | exists k];
      (split; [simpl; lia | done]).
Qed.

(** *** The rules are sound *)

Lemma item_Ok p ch i o :
  item p ch i = Ok o -> exists k, o.1 = p ++ [k] /\ ch !! k = Some o.2.
Proof.
  unfold item. cbv zeta. destruct (_ <? 0)%Z; [done |].
  destruct (ch !! _) as [c |] eqn:E; [| done]. intros [= <-]. eauto.
Qed.

Lemma item_desc p ch i o : item p ch i = Ok o -> desc_of p o.
Proof. intros (k & Hk & _)%item_Ok. by exists k, []. Qed.

Lemma child_desc p o i o' : desc_of p o -> child o i = Ok o' -> desc_of p o'.
Proof.
  intros (k & r & Hr) (j & Hj & _)%item_Ok. exists k, (r ++ [j]).
  by rewrite Hj, Hr, <- app_assoc.
Qed.

Lemma kid_desc p i c : desc_of p (p ++ [i], c).
Proof. by exists i, []. Qed.

Lemma kids_desc p ch : Forall (desc_of p) (kids p ch).
Proof.
  apply Forall_forall. intros o Ho. unfold kids in Ho.
  apply elem_of_lookup_imap in Ho as (i & c & -> & _). apply kid_desc.
Qed.

Lemma drop_kids_desc p ch n : Forall (desc_of p) (drop n (kids p ch)).
Proof. apply Forall_drop, kids_desc. Qed.

Lemma desc_sbelow p o q : desc_of p o -> below o.1 q -> sbelow p q.
Proof. intros (k & r & ->). apply below_sbelow_app. Qed.

Create HintDb desc.
#[local] Hint Resolve item_desc child_desc kid_desc kids_desc drop_kids_desc : desc.
#[local] Hint Constructors Forall : desc.

Lemma sound_mark P R p o :
  mark_class P -> desc_of p o -> sound P R (sbelow p) (_SetUnbreakable o).
Proof.
  intros HP Ho. apply sound_SetUnbreakable; [done |].
  intros q. by apply desc_sbelow.
Qed.

Lemma sound_SC P R p nodes :
  mark_class P -> Forall (desc_of p) nodes ->
  sound P R (sbelow p) (_SetStronglyConnected nodes).
Proof.
  intros HP Hn. apply sound_SetStronglyConnected; [done |].
  intros o q Ho. rewrite Forall_forall in Hn. by apply desc_sbelow, Hn.
Qed.

Lemma sound_seq_mark P R S f g :
  mark_class P -> sound P R S f -> sound P R S g -> sound P R S (f >> g).
Proof. intros (_ & _ & Hseq & _). by apply sound_seq. Qed.

Lemma sound_skip_mark P R S : mark_class P -> sound P R S skip.
Proof. intros (Hid & _). by apply sound_skip. Qed.

(** The marks of a rule, all of one class [P]. *)
Ltac mark_phase :=
  repeat match goal with
         | |- sound _ _ _ (eval _ _) => apply sound_eval; intros ? ?
         | |- sound _ _ _ (_ >> _) => apply sound_seq_mark; [assumption | |]
         | |- sound _ _ _ skip => apply sound_skip_mark; assumption
         | |- sound _ _ _ (_SetUnbreakable _) =>
             apply sound_mark; [assumption | eauto with desc]
         | |- sound _ _ _ (_SetStronglyConnected _) =>
             apply sound_SC; [assumption | eauto 6 with desc]
         | |- sound _ _ _ (if _ then _ else _) =>
             first [apply sound_if | apply sound_decide]
         end.

Section RuleSoundness.
Variables (py : python) (R : path -> Prop) (p : path) (ch : list node).
Variable visit : nat -> node -> proc.
Hypothesis Hvisit : forall k c, ch !! k = Some c ->
  sound good R (below (p ++ [k])) (visit k c).

Lemma sound_DefaultNodeVisit : sound good R (sbelow p) (DefaultNodeVisit visit ch).
Proof.
  apply (sound_weaken good good R R (in_kids p 0 (0 + length ch))); try done.
  - apply in_kids_sbelow.
  - apply sound_for_from. intros k c Hk. by apply Hvisit.
Qed.

Lemma sound_pre_good (f g : proc) :
  sound pre_like R (sbelow p) f -> sound good R (sbelow p) g ->
  sound good R (sbelow p) (f >> g).
Proof. apply (sound_seq pre_like good good), pre_good. Qed.

(** A rule that marks, then visits the children. *)
Lemma sound_pre_visit (f : proc) :
  sound pre_like R (sbelow p) f ->
  sound good R (sbelow p) (f >> DefaultNodeVisit visit ch).
Proof. intros Hf. apply sound_pre_good; [done | apply sound_DefaultNodeVisit]. Qed.

(** A rule that visits the children, then marks. *)
Lemma sound_visit_post (g : proc) :
  sound post_like R (sbelow p) g ->
  sound good R (sbelow p) (DefaultNodeVisit visit ch >> g).
Proof.
  intros Hg. apply (sound_seq good post_like good); [apply good_post | | done].
  apply sound_DefaultNodeVisit.
Qed.

Lemma sound_Visit_classdef : sound good R (sbelow p) (Visit_classdef visit p ch).
Proof.
  assert (Hpre := pre_mark). unfold Visit_classdef.
  apply sound_eval; intros name Hname.
  apply sound_pre_good; [mark_phase |].
  apply sound_pre_good; [mark_phase |].
  apply sound_eval; intros colon Hcolon.
  apply sound_pre_visit. mark_phase.
Qed.

Lemma sound_Visit_funcdef : sound good R (sbelow p) (Visit_funcdef visit p ch).
Proof.
  assert (Hpre := pre_mark). unfold Visit_funcdef.
  apply sound_eval; intros colon_idx Hidx.
  apply sound_eval; intros name Hname.
  apply sound_pre_good; [mark_phase |]. cbv zeta.
  apply sound_eval; intros colon Hcolon.
  apply sound_pre_visit. mark_phase.
Qed.

Lemma sound_unbreakable_range count : forall i,
  sound post_like R (sbelow p) (unbreakable_range p ch i count).
Proof.
  assert (Hpost := post_mark).
  induction count as [| count IH]; intros i; simpl; mark_phase. apply IH.
Qed.

Lemma sound_SetUnbreakableOnChildren num :
  sound good R (sbelow p) (_SetUnbreakableOnChildren visit p ch num).
Proof. apply sound_visit_post, sound_unbreakable_range. Qed.

Lemma sound_Visit_lambdef : sound good R (sbelow p) (Visit_lambdef visit p ch).
Proof.
  unfold Visit_lambdef. apply sound_eval; intros c1 Hc1. cbv zeta.
  apply sound_SetUnbreakableOnChildren.
Qed.

Lemma sound_Visit_parameters :
  sound good R (sbelow p) (Visit_parameters visit p ch).
Proof.
  assert (Hpost := post_mark). unfold Visit_parameters.
  apply sound_visit_post. mark_phase.
Qed.

Lemma sound_Visit_dotted_name :
  sound good R (sbelow p) (Visit_dotted_name visit p ch).
Proof. apply sound_SetUnbreakableOnChildren. Qed.

Lemma sound_Visit_arith name ch' :
  sound good R (sbelow p) (Visit_arith py visit (Node name ch') p ch).
Proof.
  unfold Visit_arith. apply sound_visit_post.
  apply sound_SetArithmeticExpression. intros first q.
  unfold arith_leaf. rewrite leaf_under_Node. unfold any_kid.
  destruct (strip p q) as [[| j r] |] eqn:E; try done.
  intros _. apply strip_Some in E. by exists j, r.
Qed.

Lemma sound_Visit_trailer : sound good R (sbelow p) (Visit_trailer visit p ch).
Proof.
  assert (Hpost := post_mark). unfold Visit_trailer.
  apply sound_visit_post. mark_phase.
Qed.

Lemma sound_trailer_chain surrounded rest : forall prev i,
  desc_of p prev ->
  sound post_like R (sbelow p) (trailer_chain surrounded p prev i rest).
Proof.
  assert (Hpost := post_mark).
  induction rest as [| c rest IH]; intros prev i Hprev; simpl; mark_phase.
  apply IH. apply kid_desc.
Qed.

Lemma sound_call_parens rest : forall i,
  sound post_like R (sbelow p) (call_parens p i rest).
Proof.
  assert (Hpost := post_mark).
  induction rest as [| c rest IH]; intros i; simpl; mark_phase. apply IH.
Qed.

Lemma sound_Visit_power parent :
  sound good R (sbelow p) (Visit_power visit parent p ch).
Proof.
  assert (Hpost := post_mark). unfold Visit_power.
  apply sound_visit_post. mark_phase.
  - apply sound_trailer_chain. eauto with desc.
  - apply sound_call_parens.
Qed.

Lemma sound_Visit_subscript : sound good R (sbelow p) (Visit_subscript visit p ch).
Proof.
  assert (Hpre := pre_mark). unfold Visit_subscript.
  apply sound_pre_visit. mark_phase.
Qed.

Lemma sound_Visit_comp_for : sound good R (sbelow p) (Visit_comp_for visit p ch).
Proof.
  assert (Hpre := pre_mark). unfold Visit_comp_for.
  apply sound_pre_visit. mark_phase.
Qed.

Lemma sound_Visit_comp_if :
  R (p ++ [0]) -> sound good R (sbelow p) (Visit_comp_if visit p ch).
Proof.
  intros HR. assert (Hpre := pre_mark). unfold Visit_comp_if.
  apply sound_eval; intros c0 Hc0.
  apply sound_pre_good; [| apply sound_pre_visit; mark_phase].
  unfold item in Hc0. simpl in Hc0. destruct ch as [| c ch0]; [done |].
  injection Hc0 as <-. simpl.
  apply sound_clear; [done | by exists 0, []].
Qed.
End RuleSoundness.

Section DictSetMaker.
Variables (R : path -> Prop) (p : path) (ch : list node).
Variable visit : nat -> node -> proc.
Hypothesis Hvisit : forall k c, ch !! k = Some c ->
  sound good R (below (p ++ [k])) (visit k c).

(** The loop interleaves visits and marks: the children before [i] have
    been visited and marked by [acc] when child [i] is visited. *)
Lemma sound_dictsetmaker_loop rest : forall i prev (acc : proc),
  (forall k c, rest !! k = Some c -> ch !! (i + k) = Some c) ->
  (forall o, prev = Some o -> exists k, k < i /\ o.1 = p ++ [k]) ->
  sound good R (in_kids p 0 i) acc ->
  sound good R (sbelow p) (acc >> dictsetmaker_loop visit p i prev rest).
Proof.
  induction rest as [| c rest IH]; intros i prev acc Hsub Hprev Hacc.
  - simpl. apply (sound_ext good R (sbelow p) acc).
    + intros h. by rewrite seq_skip_r.
    + revert Hacc. apply sound_weaken; try done. apply in_kids_sbelow.
  - simpl.
    set (M := (if String.eqb (NodeName c) "COLON"
               then let! prev0 := match prev with
                                  | Some prev0 => Ok prev0
                                  | None => Err AttributeError
                                  end in
                    _SetStronglyConnected [prev0; (p ++ [i], c)]
               else skip)%proc).
    apply (sound_ext good R (sbelow p)
             (((acc >> visit i c) >> M) >>
              dictsetmaker_loop visit p (S i) (Some (p ++ [i], c)) rest)).
    { intros h. by rewrite !seq_assoc. }
    apply IH.
    + intros k c' Hk. replace (S i + k) with (i + S k) by lia. by apply Hsub.
    + intros o [= <-]. exists i. split; [lia | done].
    + assert (Hc : ch !! i = Some c).
      { specialize (Hsub 0 c eq_refl). by rewrite Nat.add_0_r in Hsub. }
      apply (sound_seq good post_like good); [apply good_post | |].
      * assert (Hd : forall q, in_kids p 0 i q -> below (p ++ [i]) q -> False).
        { intros q (k & Hk & Hq) Hq'.
          assert (k = i) by by eapply below_snoc_inj. lia. }
        apply (sound_weaken good good R R _ (in_kids p 0 (S i)))
          with (4 := sound_seq_disjoint R _ _ _ _ (in_kids_dec p 0 i) Hd
                       Hacc (Hvisit i c Hc)); try done.
        intros q [(k & Hk & Hq) | Hq]; [exists k | exists i];
          (split; [lia | done]).
      * subst M. apply sound_if; [| apply sound_skip, post_like_id].
        apply sound_eval. intros prev0 Hprev0.
        apply sound_SetStronglyConnected; [apply post_mark |].
        intros o q Ho Hq.
        apply elem_of_cons in Ho as [-> | Ho].
        -- destruct prev as [o |]; [| done]. injection Hprev0 as ->.
           destruct (Hprev _ eq_refl) as (k & Hk & Ek). exists k.
           split; [lia |]. by rewrite <- Ek.
        -- apply list_elem_of_singleton in Ho as ->. exists i. split; [lia | done].
Qed.

Lemma sound_Visit_dictsetmaker :
  sound good R (sbelow p) (Visit_dictsetmaker visit p ch).
Proof.
  unfold Visit_dictsetmaker.
  apply (sound_ext good R (sbelow p)
           (skip >> dictsetmaker_loop visit p 0 None ch)); [done |].
  apply sound_dictsetmaker_loop; [by intros k c Hk | done |].
  apply sound_skip, post_like_good, post_like_id.
Qed.
End DictSetMaker.

(** *** The visitor is sound *)

Lemma comp_if_head_child p name ch k c q :
  ch !! k = Some c -> comp_if_head (p ++ [k], c) q ->
  comp_if_head (p, Node name ch) q.
Proof.
  intros Hk (r & name' & ch' & Hsub & Hrule & ->). simpl in *.
  exists (k :: r), name', ch'. simpl. rewrite Hk. repeat split; try done.
  by rewrite <- app_assoc.
Qed.

Lemma sbelow_below p q : sbelow p q -> below p q.
Proof. intros (i & r & ->). unfold below. rewrite strip_app. eauto. Qed.

(** The visit of a node changes annotations below the node only; at each
    address what it does is constant, or a maximum with a constant that raises
    on lower penalties if it raises at all; and each write it makes raises the
    penalty or clears the first child of a [comp_if] node of the subtree. *)
Theorem Visit_sound n : forall py parent p,
  sound good (comp_if_head (p, n)) (sbelow p) (Visit py parent p n).
Proof.
  induction n as [name val | name ch IH] using node_ind; intros py parent p.
  - apply sound_skip, post_like_good, post_like_id.
  - set (R := comp_if_head (p, Node name ch)).
    assert (Hvisit : forall k c, ch !! k = Some c ->
              sound good R (below (p ++ [k]))
                (Visit py (Some (Node name ch)) (p ++ [k]) c)).
    { intros k c Hk. rewrite Forall_lookup in IH.
      apply (sound_weaken good good (comp_if_head (p ++ [k], c)) R
               (sbelow (p ++ [k])) (below (p ++ [k]))); try done.
      - intros q. by apply comp_if_head_child.
      - apply sbelow_below.
      - apply (IH _ _ Hk). }
    simpl. destruct (rule_of name) eqn:Hrule.
    + by apply sound_Visit_classdef.
    + by apply sound_Visit_funcdef.
    + by apply sound_Visit_lambdef.
    + by apply sound_Visit_parameters.
    + by apply sound_Visit_dotted_name.
    + by apply sound_Visit_dictsetmaker.
    + by apply sound_Visit_arith.
    + by apply sound_Visit_arith.
    + by apply sound_Visit_arith.
    + by apply sound_Visit_trailer.
    + by apply sound_Visit_power.
    + by apply sound_Visit_subscript.
    + by apply sound_Visit_comp_for.
    + apply sound_Visit_comp_if; [done |]. exists [], name, ch. by simpl.
    + by apply sound_DefaultNodeVisit.
Qed.

(** ** The whole pass *)

(** The visit of a node leaves every address that is not below it alone. *)
Lemma Visit_frame py parent p n h h' q :
  Visit py parent p n h = Ok h' -> ~ sbelow p q -> annot h' !! q = annot h !! q.
Proof.
  intros Hrun Hq. destruct (Visit_sound n py parent p) as [(t & Ht & Hfam) _].
  specialize (Ht h). rewrite Hrun in Ht. specialize (Ht q).
  destruct Hfam as [F | [_ I]]; [by rewrite F in Ht |].
  rewrite (I q Hq) in Ht. by injection Ht.
Qed.

Lemma sound_idempotent R S (f : proc) h h1 :
  sound good R S f -> f h = Ok h1 ->
  exists h2, f h1 = Ok h2 /\ annot h2 = annot h1.
Proof.
  intros [(t & Ht & Hfam) _] Hrun.
  assert (H1 := Ht h). rewrite Hrun in H1.
  assert (Hgood : forall q, good (t q)).
  { destruct Hfam as [F | [G _]]; [| done]. specialize (H1 []). by rewrite F in H1. }
  assert (Hfix : forall q, t q (annot h1 !! q) = Some (annot h1 !! q)).
  { intros q. eapply good_idem; [apply Hgood | apply H1]. }
  assert (H2 := Ht h1). destruct (f h1) as [h2 | e].
  - exists h2. split; [done |]. apply map_eq. intros q.
    specialize (H2 q). rewrite Hfix in H2. by injection H2.
  - destruct H2 as [q Hq]. by rewrite Hfix in Hq.
Qed.


(** C2. Throughout a pass that returns, the annotations change by the writes
    the pass adds to the history and by nothing else, and each of these writes
    stores a penalty that is not below the one it found, or is a clear, to
    absent, of the first child of a [comp_if] node of the tree. *)
Theorem pass_never_lowers (py : python) (tree : node) (h h' : heap) :
  ComputeSplitPenalties py tree h = Ok h' ->
  exists l,
    writes h' = l ++ writes h /\
    trace (annot h) l (annot h') /\
    Forall (fun w => ole (w_old w) (w_new w) \/
                     (w_new w = None /\ comp_if_head ([], tree) (w_node w))) l.
Proof.
  intros Hrun. destruct (Visit_sound tree py None []) as [_ Hl].
  apply (Hl h h' Hrun).
Qed.

Lemma pass_never_lowers_witness :
  let h' := returned (ComputeSplitPenalties Python2 filtered_sum no_annotations) in
  exists l,
    writes h' = l ++ [] /\
    trace ∅ l (annot h') /\
    Forall (fun w => ole (w_old w) (w_new w) \/
                     (w_new w = None /\
                      comp_if_head ([], filtered_sum) (w_node w))) l.
Proof.
  apply (pass_never_lowers Python2 filtered_sum no_annotations).
  vm_compute. reflexivity.
Defined.

(** C3. When the pass returns, running it again on the annotated tree returns
    too and leaves every annotation as the first run left it: two runs in
    succession end with the annotations of one. *)
Theorem pass_idempotent (py : python) (tree : node) (h h1 : heap) :
  ComputeSplitPenalties py tree h = Ok h1 ->
  exists h2,
    (ComputeSplitPenalties py tree >> ComputeSplitPenalties py tree) h = Ok h2 /\
    annot h2 = annot h1.
Proof.
  intros Hrun.
  destruct (sound_idempotent _ _ _ h h1 (Visit_sound tree py None []) Hrun)
    as (h2 & H2 & Heq).
  exists h2. split; [| done]. apply seq_Ok. eauto.
Qed.

Lemma pass_idempotent_witness :
  exists h2,
    (ComputeSplitPenalties Python2 filtered_sum >>
     ComputeSplitPenalties Python2 filtered_sum) no_annotations = Ok h2 /\
    annot h2 =
    annot (returned (ComputeSplitPenalties Python2 filtered_sum no_annotations)).
Proof.
  apply (pass_idempotent Python2 filtered_sum no_annotations).
  vm_compute. reflexivity.
Defined.

(** ** The rules one by one *)


Lemma at_least_ole v x y : at_least v x -> ole x y -> at_least v y.
Proof.
  intros (a & -> & Ha) Hle. destruct y as [b |]; simpl in Hle; [| done].
  exists b. split; [done | lia].
Qed.

Lemma at_least_raise v x : at_least v (Some (raise x v)).
Proof. eexists. split; [done |]. destruct x; simpl; lia. Qed.

Lemma raise_raise x v : raise (Some (raise x v)) v = raise x v.
Proof. destruct x; simpl; lia. Qed.

Lemma SetUnbreakable_annot o h h' q :
  _SetUnbreakable o h = Ok h' ->
  annot h' !! q =
    if leaf_under o q then Some (raise (annot h !! q) UNBREAKABLE)
    else annot h !! q.
Proof. intros [= <-]. destruct o as [p t]. apply RecAnnotate_annot. Qed.

Lemma SetUnbreakable_ole o h h' q :
  _SetUnbreakable o h = Ok h' -> ole (annot h !! q) (annot h' !! q).
Proof.
  intros H. rewrite (SetUnbreakable_annot _ _ _ _ H).
  destruct (leaf_under o q); [| apply ole_refl].
  rewrite raise_ojoin. apply ole_ojoin.
Qed.

(** The marks a rule makes after the visit of the children only raise. *)
Lemma post_monotone R S (f : proc) h h' q :
  sound post_like R S f -> f h = Ok h' -> ole (annot h !! q) (annot h' !! q).
Proof.
  intros [(t & Ht & Hfam) _] Hrun. specialize (Ht h). rewrite Hrun in Ht.
  specialize (Ht q). destruct Hfam as [F | [HP _]]; [by rewrite F in Ht |].
  destruct (HP q) as (c & Hc & _). rewrite (Hc _ _ Ht). apply ole_ojoin.
Qed.

Lemma post_frame (P : xform -> Prop) R (S : path -> Prop) (f : proc) h h' q :
  sound P R S f -> f h = Ok h' -> ~ S q -> annot h' !! q = annot h !! q.
Proof.
  intros [(t & Ht & Hfam) _] Hrun Hq. specialize (Ht h). rewrite Hrun in Ht.
  specialize (Ht q). destruct Hfam as [F | [_ I]]; [by rewrite F in Ht |].
  rewrite (I q Hq) in Ht. by injection Ht.
Qed.

(** *** The visit of the children, seen from one address *)

Lemma not_sbelow_self p r : ~ sbelow (p ++ r) p.
Proof.
  intros (i & r' & H). rewrite <- app_assoc in H.
  rewrite <- (app_nil_r p) in H at 1. apply app_inv_head in H.
  by destruct r.
Qed.

Lemma sbelow_snoc_below p k q : sbelow (p ++ [k]) q -> below (p ++ [k]) q.
Proof. apply sbelow_below. Qed.

Section ChildrenVisit.
Variables (py : python) (parent : option node) (p : path).

Let visit := fun i c => Visit py parent (p ++ [i]) c.

(** What lies at or below no child that is visited stays as it is. *)
Lemma children_visit_frame l : forall from h h' q,
  for_from visit from l h = Ok h' ->
  (forall k, from <= k < from + length l -> ~ sbelow (p ++ [k]) q) ->
  annot h' !! q = annot h !! q.
Proof.
  induction l as [| c l IH]; intros from h h' q Hrun Hq.
  - by injection Hrun as <-.
  - simpl in Hrun. apply bind_Ok in Hrun as (h1 & H1 & Hrest).
    rewrite (IH _ _ _ _ Hrest).
    + eapply Visit_frame; [exact H1 |]. apply Hq. simpl. lia.
    + intros k Hk. apply Hq. simpl. lia.
Qed.

(** Below child [i], the visit of the children is the visit of child [i]. *)
Lemma children_visit_at l i c h h' :
  l !! i = Some c -> for_from visit 0 l h = Ok h' ->
  exists ha hb,
    Visit py parent (p ++ [i]) c ha = Ok hb /\
    (forall q, below (p ++ [i]) q -> annot ha !! q = annot h !! q) /\
    (forall q, below (p ++ [i]) q -> annot h' !! q = annot hb !! q).
Proof.
  intros Hi Hrun. rewrite (for_from_split _ _ i c 0 h Hi) in Hrun.
  apply bind_Ok in Hrun as (ha & Hpre & Hrun).
  apply bind_Ok in Hrun as (hb & Hc & Hpost). simpl in Hc.
  exists ha, hb. split; [done |]. split.
  - intros q Hq. eapply children_visit_frame; [exact Hpre |].
    intros k Hk Hs. rewrite length_take in Hk.
    assert (k = i) by (eapply below_snoc_inj; [by apply sbelow_below | done]).
    lia.
  - intros q Hq. eapply children_visit_frame; [exact Hpost |].
    intros k Hk Hs.
    assert (k = i) by (eapply below_snoc_inj; [by apply sbelow_below | done]).
    lia.
Qed.

(** A child that is a Leaf keeps its annotation. *)
Lemma children_visit_leaf l i h h' :
  for_from visit 0 l h = Ok h' ->
  annot h' !! (p ++ [i]) = annot h !! (p ++ [i]).
Proof.
  intros Hrun. eapply children_visit_frame; [exact Hrun |].
  intros k _. rewrite <- (app_nil_r (p ++ [k])).
  intros (j & r & H). rewrite <- !app_assoc in H. apply app_inv_head in H.
  simpl in H. injection H as _ H. by destruct r.
Qed.
End ChildrenVisit.

Lemma eval_Ok {A} (r : result A) (k : A -> proc) h h' :
  eval r k h = Ok h' <-> exists a, r = Ok a /\ k a h = Ok h'.
Proof.
  destruct r as [a | e]; simpl; split.
  - eauto.
  - by intros (a' & [= <-] & H).
  - done.
  - by intros (a' & [=] & _).
Qed.

(** The index Python resolves [i] to. *)
Lemma item_inv p ch i o :
  item p ch i = Ok o ->
  exists k c, ch !! k = Some c /\ o = (p ++ [k], c) /\
    ((0 <= i)%Z -> k = Z.to_nat i) /\
    ((i < 0)%Z -> Z.of_nat k = (Z.of_nat (length ch) + i)%Z).
Proof.
  unfold item. cbv zeta. destruct (i <? 0)%Z eqn:Ei.
  - destruct (Z.of_nat (length ch) + i <? 0)%Z eqn:Ej; [discriminate |].
    destruct (ch !! _) as [c |] eqn:E; [| discriminate]. intros [= <-].
    eexists _, c. repeat split; [done | lia | lia].
  - rewrite Ei. destruct (ch !! _) as [c |] eqn:E; [| discriminate].
    intros [= <-]. eexists _, c. repeat split; [done | lia].
Qed.

Lemma leaf_under_kid p k c i :
  leaf_under (p ++ [k], c) (p ++ [i]) = bool_decide (k = i) && isLeaf c.
Proof.
  unfold leaf_under. simpl. rewrite strip_snoc, strip_app.
  case_decide; case_bool_decide; try done; unfold leaf_at; simpl; by destruct c.
Qed.

Lemma Visit_Node py parent p name ch :
  Visit py parent p (Node name ch) =
    let visit := fun i c => Visit py (Some (Node name ch)) (p ++ [i]) c in
    match rule_of name with
    | R_classdef => Visit_classdef visit p ch
    | R_funcdef => Visit_funcdef visit p ch
    | R_lambdef => Visit_lambdef visit p ch
    | R_parameters => Visit_parameters visit p ch
    | R_dotted_name => Visit_dotted_name visit p ch
    | R_dictsetmaker => Visit_dictsetmaker visit p ch
    | R_comparison | R_arith_expr | R_term =>
        Visit_arith py visit (Node name ch) p ch
    | R_trailer => Visit_trailer visit p ch
    | R_power => Visit_power visit parent p ch
    | R_subscript => Visit_subscript visit p ch
    | R_comp_for => Visit_comp_for visit p ch
    | R_comp_if => Visit_comp_if visit p ch
    | R_default => DefaultNodeVisit visit ch
    end.
Proof. reflexivity. Qed.


(** What one [_SetUnbreakable] of a child does to a child that is a token. *)
Lemma SetUnbreakable_kid p k c i h h' :
  _SetUnbreakable (p ++ [k], c) h = Ok h' ->
  annot h' !! (p ++ [i]) =
    if bool_decide (k = i) && isLeaf c
    then Some (raise (annot h !! (p ++ [i])) UNBREAKABLE)
    else annot h !! (p ++ [i]).
Proof. intros H. by rewrite (SetUnbreakable_annot _ _ _ _ H), leaf_under_kid. Qed.

(** One mark leaves what lies below another child alone. *)
Lemma SetUnbreakable_other p j cj k h h1 q :
  _SetUnbreakable (p ++ [j], cj) h = Ok h1 -> below (p ++ [k]) q -> j <> k ->
  annot h1 !! q = annot h !! q.
Proof.
  intros H Hq Hne. rewrite (SetUnbreakable_annot _ _ _ _ H).
  destruct (leaf_under (p ++ [j], cj) q) eqn:E; [| done].
  apply leaf_under_local in E. exfalso. apply Hne. by eapply below_snoc_inj.
Qed.

Lemma plain_Node name ch :
  plain (Node name ch) =
    match rule_of name with R_default => forallb plain ch | _ => false end.
Proof. reflexivity. Qed.

(** The visit of a subtree without rules returns and writes nothing. *)
Lemma plain_visit n : forall py parent p h,
  plain n = true -> Visit py parent p n h = Ok h.
Proof.
  induction n as [name val | name ch IH] using node_ind; intros py parent p h Hp;
    [done |].
  rewrite Visit_Node. cbv zeta. rewrite plain_Node in Hp.
  destruct (rule_of name); try done. unfold DefaultNodeVisit.
  assert (Hgen : forall l from,
            Forall (fun c => forall py parent p h,
                      plain c = true -> Visit py parent p c h = Ok h) l ->
            forallb plain l = true ->
            for_from (fun i c => Visit py (Some (Node name ch)) (p ++ [i]) c) from l h
              = Ok h).
  { induction l as [| c l IHl]; intros from Hl Hf; [done |].
    cbn [forallb] in Hf. apply andb_prop in Hf as [Hc Hf].
    apply Forall_cons in Hl as [H1 Hl]. cbn [for_from].
    rewrite (H1 _ _ _ _ Hc). cbn [mbind result_bind]. by apply IHl. }
  by apply Hgen.
Qed.

(** C8. The visit of a class definition leaves the class name (child 1), the
    opening parenthesis of the bases (child 2, when there are more than four
    children) and the colon before the body (the last child but one), each a
    token, with the maximum of its penalty and UNBREAKABLE; every other child
    that is a token, such as a base name between the parentheses, keeps the
    penalty it had.  The rule marks nothing else: below every other child, an
    interior list of bases [A, B] among them, the annotations end as the visit
    of that child alone leaves them, started from what they were; when no
    node of the child has a rule, as in a list of names, every token of the
    child keeps the penalty it had. *)
Theorem classdef_unbreakable (py : python) (parent : option node) (p : path)
    (ch : list node) (h h' : heap) :
  Visit py parent p (Node "classdef" ch) h = Ok h' ->
  (forall name v, ch !! 1 = Some (Leaf name v) ->
     annot h' !! (p ++ [1]) = Some (raise (annot h !! (p ++ [1])) UNBREAKABLE)) /\
  (forall name v, 4 < length ch -> ch !! 2 = Some (Leaf name v) ->
     annot h' !! (p ++ [2]) = Some (raise (annot h !! (p ++ [2])) UNBREAKABLE)) /\
  (forall name v, ch !! (length ch - 2) = Some (Leaf name v) ->
     annot h' !! (p ++ [length ch - 2]) =
       Some (raise (annot h !! (p ++ [length ch - 2])) UNBREAKABLE)) /\
  (forall i name v, ch !! i = Some (Leaf name v) ->
     i <> 1 -> i <> length ch - 2 -> (i = 2 -> length ch <= 4) ->
     annot h' !! (p ++ [i]) = annot h !! (p ++ [i])) /\
  (forall i c, ch !! i = Some c ->
     i <> 1 -> i <> length ch - 2 -> (i = 2 -> length ch <= 4) ->
     exists ha hb,
       Visit py (Some (Node "classdef" ch)) (p ++ [i]) c ha = Ok hb /\
       (forall q, below (p ++ [i]) q -> annot ha !! q = annot h !! q) /\
       (forall q, below (p ++ [i]) q -> annot h' !! q = annot hb !! q)) /\
  (forall i c q, ch !! i = Some c ->
     i <> 1 -> i <> length ch - 2 -> (i = 2 -> length ch <= 4) ->
     plain c = true -> below (p ++ [i]) q ->
     annot h' !! q = annot h !! q).
Proof.
  rewrite Visit_Node. change (rule_of "classdef") with R_classdef. cbv zeta iota.
  unfold Visit_classdef. intros Hrun.
  apply eval_Ok in Hrun as (o1 & Ho1 & Hrun).
  apply seq_Ok in Hrun as (h1 & H1 & Hrun).
  apply seq_Ok in Hrun as (h2 & H2 & Hrun).
  apply eval_Ok in Hrun as (oc & Hoc & Hrun).
  apply seq_Ok in Hrun as (h3 & H3 & Hrun).
  apply item_inv in Ho1 as (k1 & c1 & Hk1 & -> & Hi1 & _).
  apply item_inv in Hoc as (kc & cc & Hkc & -> & _ & Hic).
  assert (k1 = 1) as -> by (apply Hi1; lia).
  assert (Hlen : kc < length ch) by (by eapply lookup_lt_Some).
  assert (kc = length ch - 2) as -> by lia.
  assert (Hfin : forall i, annot h' !! (p ++ [i]) = annot h3 !! (p ++ [i])).
  { intros i. eapply children_visit_leaf. exact Hrun. }
  assert (E1 := fun i => SetUnbreakable_kid p 1 c1 i h h1 H1).
  assert (E3 := fun i => SetUnbreakable_kid p (length ch - 2) cc i h2 h3 H3).
  assert (E2 : forall i, annot h2 !! (p ++ [i]) =
            if bool_decide (4 < length ch /\ 2 = i) &&
               match ch !! 2 with Some c => isLeaf c | None => false end
            then Some (raise (annot h1 !! (p ++ [i])) UNBREAKABLE)
            else annot h1 !! (p ++ [i])).
  { intros i. destruct (decide (4 < length ch)) as [Hgt | Hle].
    - apply eval_Ok in H2 as (o2 & Ho2 & H2).
      apply item_inv in Ho2 as (k2 & c2 & Hk2 & -> & Hi2 & _).
      assert (k2 = 2) as -> by (apply Hi2; lia).
      rewrite (SetUnbreakable_kid _ _ _ _ _ _ H2), Hk2.
      repeat case_bool_decide; try done; tauto.
    - injection H2 as <-. rewrite bool_decide_eq_false_2 by tauto. done. }
  assert (F2 : forall i q, below (p ++ [i]) q -> (i = 2 -> length ch <= 4) ->
            annot h2 !! q = annot h1 !! q).
  { intros i q Hq Hi. destruct (decide (4 < length ch)) as [Hgt | Hle].
    - apply eval_Ok in H2 as (o2 & Ho2 & H2).
      apply item_inv in Ho2 as (k2 & c2 & Hk2 & -> & Hi2 & _).
      assert (k2 = 2) as -> by (apply Hi2; lia).
      apply (SetUnbreakable_other _ _ _ i _ _ _ H2 Hq). lia.
    - by injection H2 as <-. }
  assert (Hother : forall i c, ch !! i = Some c ->
            i <> 1 -> i <> length ch - 2 -> (i = 2 -> length ch <= 4) ->
            exists ha hb,
              Visit py (Some (Node "classdef" ch)) (p ++ [i]) c ha = Ok hb /\
              (forall q, below (p ++ [i]) q -> annot ha !! q = annot h !! q) /\
              (forall q, below (p ++ [i]) q -> annot h' !! q = annot hb !! q)).
  { intros i c Hc Hn1 Hnc Hn2.
    destruct (children_visit_at py (Some (Node "classdef" ch)) p ch i c h3 h' Hc Hrun)
      as (ha & hb & Hvis & Ha & Hb).
    exists ha, hb. split; [done |]. split; [| done].
    intros q Hq. rewrite (Ha q Hq).
    rewrite (SetUnbreakable_other _ _ _ i _ _ _ H3 Hq) by done.
    rewrite (F2 i q Hq Hn2).
    by rewrite (SetUnbreakable_other _ _ _ i _ _ _ H1 Hq). }
  split; [| split; [| split; [| split; [| split]]]].
  - intros name v Hc. rewrite Hfin, E3, E2, E1. rewrite Hk1 in Hc.
    injection Hc as ->.
    rewrite (bool_decide_eq_false_2 (4 < length ch /\ 2 = 1)) by lia.
    rewrite (bool_decide_eq_true_2 (1 = 1)) by done. cbn [andb isLeaf].
    destruct (_ && _); by rewrite ?raise_raise.
  - intros name v Hgt Hc. rewrite Hfin, E3, E2, E1, Hc.
    rewrite (bool_decide_eq_false_2 (length ch - 2 = 2)) by lia.
    rewrite (bool_decide_eq_true_2 (4 < length ch /\ 2 = 2)) by lia.
    by rewrite (bool_decide_eq_false_2 (1 = 2)) by lia.
  - intros name v Hc. rewrite Hfin, E3, E2, E1. rewrite Hkc in Hc.
    injection Hc as ->.
    rewrite (bool_decide_eq_true_2 (length ch - 2 = length ch - 2)) by done.
    rewrite (bool_decide_eq_false_2 (4 < length ch /\ 2 = length ch - 2)) by lia.
    cbn [andb isLeaf]. destruct (_ && _); by rewrite ?raise_raise.
  - intros i name v Hc Hn1 Hnc Hn2. rewrite Hfin, E3, E2, E1.
    rewrite (bool_decide_eq_false_2 (length ch - 2 = i)) by lia.
    rewrite (bool_decide_eq_false_2 (4 < length ch /\ 2 = i)) by lia.
    by rewrite (bool_decide_eq_false_2 (1 = i)) by lia.
  - exact Hother.
  - intros i c q Hc Hn1 Hnc Hn2 Hplain Hq.
    destruct (Hother i c Hc Hn1 Hnc Hn2) as (ha & hb & Hvis & Ha & Hb).
    rewrite (plain_visit _ _ _ _ _ Hplain) in Hvis. injection Hvis as <-.
    by rewrite (Hb q Hq), (Ha q Hq).
Qed.

Lemma classdef_unbreakable_witness :
  let h' := returned (ComputeSplitPenalties Python3 class_Foo_A_B no_annotations) in
  annot h' !! [1] = Some UNBREAKABLE /\
  annot h' !! [2] = Some UNBREAKABLE /\
  annot h' !! [5] = Some UNBREAKABLE /\
  annot h' !! [4] = None /\
  annot h' !! [3; 0] = None /\
  annot h' !! [3; 1] = None /\
  annot h' !! [3; 2] = None.
Proof.
  destruct (classdef_unbreakable Python3 None [] (children class_Foo_A_B)
              no_annotations
              (returned (ComputeSplitPenalties Python3 class_Foo_A_B no_annotations)))
    as (H1 & H2 & H3 & H4 & _ & H6); [vm_compute; reflexivity |].
  assert (Hbase : forall q, below ([] ++ [3]) q ->
            annot (returned (ComputeSplitPenalties Python3 class_Foo_A_B
                               no_annotations)) !! q
            = annot no_annotations !! q).
  { intros q. apply (H6 3 (Node "arglist"
                             [Leaf "NAME" "A"; Leaf "COMMA" ","; Leaf "NAME" "B"]));
      [reflexivity | lia | simpl; lia | simpl; lia | reflexivity]. }
  intros h'. split; [| split; [| split; [| split; [| split; [| split]]]]].
  - exact (H1 "NAME" "Foo" eq_refl).
  - apply (H2 "LPAR" "("); [simpl; lia | reflexivity].
  - exact (H3 "COLON" ":" eq_refl).
  - apply (H4 4 "RPAR" ")"); [reflexivity | lia | simpl; lia | lia].
  - apply (Hbase [3; 0]). by exists [0].
  - apply (Hbase [3; 1]). by exists [1].
  - apply (Hbase [3; 2]). by exists [2].
Defined.

(** *** Lambda expressions *)

Lemma unbreakable_range_ole p ch i count h h' q :
  unbreakable_range p ch i count h = Ok h' -> ole (annot h !! q) (annot h' !! q).
Proof. apply (post_monotone (fun _ => False) _ _ _ _ _ (sound_unbreakable_range _ p ch count i)). Qed.

(** The loop marks the children from [i] up to [i + count], and nothing else. *)
Lemma unbreakable_range_spec p ch count : forall i h h',
  unbreakable_range p ch i count h = Ok h' ->
  (forall k c q, i <= k < i + count -> ch !! k = Some c ->
     leaf_under (p ++ [k], c) q = true -> at_least UNBREAKABLE (annot h' !! q)) /\
  (forall q, ~ in_kids p i (i + count) q -> annot h' !! q = annot h !! q).
Proof.
  induction count as [| count IH]; intros i h h' Hrun.
  - injection Hrun as <-. split; [intros; lia | done].
  - simpl in Hrun. apply eval_Ok in Hrun as (o & Ho & Hrun).
    apply seq_Ok in Hrun as (h1 & H1 & Hrun).
    apply item_inv in Ho as (k0 & c0 & Hk0 & -> & Hi & _).
    assert (k0 = i) as -> by (rewrite Hi; lia).
    destruct (IH _ _ _ Hrun) as [IH1 IH2]. split.
    + intros k c q Hk Hc Hq. destruct (decide (k = i)) as [-> | Hne].
      * rewrite Hk0 in Hc. injection Hc as ->.
        eapply at_least_ole; [| by eapply unbreakable_range_ole].
        rewrite (SetUnbreakable_annot _ _ _ _ H1), Hq. apply at_least_raise.
      * apply (IH1 k c q); [lia | done | done].
    + intros q Hq. rewrite IH2.
      * rewrite (SetUnbreakable_annot _ _ _ _ H1).
        destruct (leaf_under (p ++ [i], c0) q) eqn:E; [| done].
        exfalso. apply Hq. exists i. split; [lia |]. by apply leaf_under_local in E.
      * intros (k & Hk & Hb). apply Hq. exists k. split; [lia | done].
Qed.


(** C6, as stated, fails on [lambda x: x + y]: after the visit of the lambda
    node the keyword [lambda], the first of the leading children, has no
    penalty, and the leaves [+] and [y] of the body carry the penalty 42 of
    the arithmetic rule: the body has been visited. *)
Lemma lambdef_body_is_visited :
  exists h',
    Visit Python2 None [] lambda_x_plus_y no_annotations = Ok h' /\
    annot h' !! [0] = None /\
    annot h' !! [1] = Some UNBREAKABLE /\
    annot h' !! [2] = Some UNBREAKABLE /\
    annot no_annotations !! [3; 1] = None /\
    annot h' !! [3; 1] = Some ARITHMETIC_EXPRESSION /\
    annot h' !! [3; 2] = Some ARITHMETIC_EXPRESSION.
Proof. eexists. split; [vm_compute; reflexivity |]. by vm_compute. Qed.

(** C6, amended. The visit of a lambda node visits every child in order, the
    body included, and then forces UNBREAKABLE on every leaf of the children
    from 1 up to [num_children], excluded, which is 3 when child 1 is not the
    colon (a parameter list is present) and 2 otherwise.  Every other address,
    the keyword and the body among them, is left as the visit of the children
    left it; the keyword itself keeps the penalty it had. *)
Theorem lambdef_marks (py : python) (parent : option node) (p : path)
    (ch : list node) (c1 : node) (h h' : heap) :
  Visit py parent p (Node "lambdef" ch) h = Ok h' ->
  ch !! 1 = Some c1 ->
  let num_children := if String.eqb (NodeName c1) "COLON" then 2 else 3 in
  (forall k c q, 1 <= k < num_children -> ch !! k = Some c ->
     leaf_under (p ++ [k], c) q = true -> at_least UNBREAKABLE (annot h' !! q)) /\
  (exists hv,
     DefaultNodeVisit
       (fun i c => Visit py (Some (Node "lambdef" ch)) (p ++ [i]) c) ch h = Ok hv /\
     forall q, ~ in_kids p 1 num_children q -> annot h' !! q = annot hv !! q) /\
  annot h' !! (p ++ [0]) = annot h !! (p ++ [0]).
Proof.
  rewrite Visit_Node. change (rule_of "lambdef") with R_lambdef. cbv zeta iota.
  unfold Visit_lambdef, _SetUnbreakableOnChildren. intros Hrun Hc1.
  apply eval_Ok in Hrun as (o1 & Ho1 & Hrun).
  apply item_inv in Ho1 as (k1 & c1' & Hk1 & -> & Hi1 & _).
  assert (k1 = 1) as -> by (apply Hi1; lia).
  rewrite Hc1 in Hk1. injection Hk1 as <-. cbn [snd] in Hrun.
  apply seq_Ok in Hrun as (hv & Hv & Hrun).
  set (n := if String.eqb (NodeName c1) "COLON" then 2 else 3).
  assert (Hn : (if negb (String.eqb (NodeName c1) "COLON") then 3 else 2) - 1 = n - 1).
  { subst n. by destruct (String.eqb _ _). }
  rewrite Hn in Hrun.
  assert (Hn1 : 1 + (n - 1) = n) by (subst n; destruct (String.eqb _ _); lia).
  destruct (unbreakable_range_spec _ _ _ _ _ _ Hrun) as [Hm Hf].
  rewrite Hn1 in Hm, Hf. split; [| split].
  - intros k c q Hk Hc Hq. by apply (Hm k c q).
  - exists hv. split; [exact Hv | exact Hf].
  - rewrite Hf.
    + eapply children_visit_leaf. exact Hv.
    + intros (k & Hk & Hb). assert (k = 0); [| lia].
      symmetry. eapply below_snoc_inj; [| exact Hb].
      unfold below. rewrite strip_self. eauto.
Qed.

Lemma lambdef_marks_witness :
  let h' := returned (Visit Python2 None [] lambda_x_plus_y no_annotations) in
  (forall k c q, 1 <= k < 3 ->
     [Leaf "NAME" "lambda"; Leaf "NAME" "x"; Leaf "COLON" ":"; x_plus_y] !! k
       = Some c ->
     leaf_under ([] ++ [k], c) q = true -> at_least UNBREAKABLE (annot h' !! q)) /\
  (exists hv,
     DefaultNodeVisit
       (fun i c => Visit Python2 (Some lambda_x_plus_y) ([] ++ [i]) c)
       [Leaf "NAME" "lambda"; Leaf "NAME" "x"; Leaf "COLON" ":"; x_plus_y]
       no_annotations = Ok hv /\
     forall q, ~ in_kids [] 1 3 q -> annot h' !! q = annot hv !! q) /\
  annot h' !! ([] ++ [0]) = annot no_annotations !! ([] ++ [0]).
Proof.
  apply (lambdef_marks Python2 None []
           [Leaf "NAME" "lambda"; Leaf "NAME" "x"; Leaf "COLON" ":"; x_plus_y]
           (Leaf "NAME" "x") no_annotations);
    [vm_compute; reflexivity | reflexivity].
Defined.

(** *** Dictionary and set displays *)

Lemma SetStronglyConnected2_annot a b h h' q :
  _SetStronglyConnected [a; b] h = Ok h' ->
  annot h' !! q =
    let x := if leaf_under a q
             then Some (raise (annot h !! q) STRONGLY_CONNECTED)
             else annot h !! q in
    if leaf_under b q then Some (raise x STRONGLY_CONNECTED) else x.
Proof.
  intros [= <-]. simpl. destruct a as [pa ta], b as [pb tb]. simpl.
  by rewrite !RecAnnotate_annot.
Qed.

Lemma SetStronglyConnected_ole nodes h h' q :
  _SetStronglyConnected nodes h = Ok h' -> ole (annot h !! q) (annot h' !! q).
Proof.
  apply (post_monotone (fun _ => False) (fun _ => True)).
  by apply sound_SetStronglyConnected; [apply post_mark |].
Qed.

Section DictSetMakerMarks.
Variables (py : python) (parent : option node) (p : path).

Let visit := fun i c => Visit py parent (p ++ [i]) c.

(** The marks of one round of the loop. *)
Let marks (i : nat) (prev : option obj) (c : node) : proc :=
  if String.eqb (NodeName c) "COLON"
  then let! prev0 := match prev with
                     | Some prev0 => Ok prev0
                     | None => Err AttributeError
                     end in
       _SetStronglyConnected [prev0; (p ++ [i], c)]
  else skip.

Lemma marks_ole i prev c h h' q :
  marks i prev c h = Ok h' -> ole (annot h !! q) (annot h' !! q).
Proof.
  unfold marks. destruct (String.eqb _ _).
  - intros (o & _ & H)%eval_Ok. by eapply SetStronglyConnected_ole.
  - intros [= <-]. apply ole_refl.
Qed.

Lemma marks_frame i prev c h h' q :
  marks i prev c h = Ok h' ->
  ~ below (p ++ [i]) q ->
  (String.eqb (NodeName c) "COLON" = true ->
   forall o, prev = Some o -> ~ below o.1 q) ->
  annot h' !! q = annot h !! q.
Proof.
  unfold marks. intros Hrun Hq Hprev. destruct (String.eqb _ _); [| by injection Hrun as <-].
  apply eval_Ok in Hrun as (o & Ho & Hrun). destruct prev as [o' |]; [| done].
  injection Ho as ->. rewrite (SetStronglyConnected2_annot _ _ _ _ _ Hrun). simpl.
  destruct (leaf_under o q) eqn:E1.
  { apply leaf_under_local in E1. by destruct (Hprev eq_refl o eq_refl). }
  destruct (leaf_under (p ++ [i], c) q) eqn:E2; [| done].
  apply leaf_under_local in E2. done.
Qed.

Lemma marks_colon i o c h h' q :
  marks i (Some o) c h = Ok h' -> String.eqb (NodeName c) "COLON" = true ->
  leaf_under o q = true \/ leaf_under (p ++ [i], c) q = true ->
  at_least STRONGLY_CONNECTED (annot h' !! q).
Proof.
  unfold marks. intros Hrun Hc Hq. rewrite Hc in Hrun.
  apply eval_Ok in Hrun as (o' & [= <-] & Hrun).
  rewrite (SetStronglyConnected2_annot _ _ _ _ _ Hrun). simpl.
  destruct (leaf_under (p ++ [i], c) q) eqn:E2; [apply at_least_raise |].
  destruct Hq as [Hq | Hq]; [| done]. rewrite Hq. apply at_least_raise.
Qed.

(** The loop, from child [i] on: what lies before child [i] is only raised,
    and is left alone when it is not [prev] before a colon; a colon and the
    child before it end STRONGLY_CONNECTED; a token that is not a colon and
    is not followed by one is left alone. *)
Lemma dictsetmaker_loop_spec rest : forall i prev h h',
  (forall o, prev = Some o -> exists k, k < i /\ o.1 = p ++ [k]) ->
  dictsetmaker_loop visit p i prev rest h = Ok h' ->
  (forall q, (forall k, i <= k -> ~ below (p ++ [k]) q) ->
     ole (annot h !! q) (annot h' !! q)) /\
  (forall q, (forall k, i <= k -> ~ below (p ++ [k]) q) ->
     (forall c, rest !! 0 = Some c -> String.eqb (NodeName c) "COLON" = true ->
        forall o, prev = Some o -> ~ below o.1 q) ->
     annot h' !! q = annot h !! q) /\
  (forall c o q, rest !! 0 = Some c -> String.eqb (NodeName c) "COLON" = true ->
     prev = Some o ->
     leaf_under o q = true \/ leaf_under (p ++ [i], c) q = true ->
     at_least STRONGLY_CONNECTED (annot h' !! q)) /\
  (forall k key c q, rest !! k = Some key -> rest !! (S k) = Some c ->
     String.eqb (NodeName c) "COLON" = true ->
     leaf_under (p ++ [i + k], key) q = true \/
     leaf_under (p ++ [i + S k], c) q = true ->
     at_least STRONGLY_CONNECTED (annot h' !! q)) /\
  (forall k name v, rest !! k = Some (Leaf name v) ->
     String.eqb name "COLON" = false ->
     (forall c, rest !! (S k) = Some c -> String.eqb (NodeName c) "COLON" = false) ->
     annot h' !! (p ++ [i + k]) = annot h !! (p ++ [i + k])).
Proof.
  induction rest as [| c rest IH]; intros i prev h h' Hprev Hrun.
  { injection Hrun as <-. repeat split; try done. intros. apply ole_refl. }
  simpl in Hrun. apply seq_Ok in Hrun as (h1 & H1 & Hrun).
  apply seq_Ok in Hrun as (h2 & H2 & Hrun).
  change (marks i prev c h1 = Ok h2) in H2.
  assert (Hprev' : forall o, Some (p ++ [i], c) = Some o ->
            exists k, k < S i /\ o.1 = p ++ [k]).
  { intros o [= <-]. exists i. split; [lia | done]. }
  destruct (IH (S i) _ h2 h' Hprev' Hrun) as (I1 & I2 & I3 & I4 & I5).
  assert (Hvis : forall q, ~ below (p ++ [i]) q -> annot h1 !! q = annot h !! q).
  { intros q Hq. eapply Visit_frame; [exact H1 |]. intros Hs.
    by apply Hq, sbelow_below. }
  assert (Hdisj : forall j k q, below (p ++ [j]) q -> j <> k -> ~ below (p ++ [k]) q).
  { intros j k q Hj Hne Hk. apply Hne. by eapply below_snoc_inj. }
  split; [| split; [| split; [| split]]].
  - intros q Hq. rewrite <- (Hvis q) by (apply Hq; lia).
    apply (ole_trans _ (annot h2 !! q)).
    + by eapply marks_ole.
    + apply I1. intros k Hk. apply Hq. lia.
  - intros q Hq Hp. rewrite I2.
    + rewrite (marks_frame _ _ _ _ _ _ H2); [apply Hvis | |].
      * apply Hq. lia.
      * apply Hq. lia.
      * intros Hc. by apply (Hp c).
    + intros k Hk. apply Hq. lia.
    + intros c' _ _ o [= <-]. apply Hq. simpl. lia.
  - intros c0 o q [= <-] Hc -> Hq.
    eapply at_least_ole; [by eapply marks_colon |].
    apply I1. intros k Hk. destruct (Hprev o eq_refl) as (j & Hj & Ej).
    destruct Hq as [Hq | Hq]; apply leaf_under_local in Hq; simpl in Hq.
    + rewrite Ej in Hq. apply (Hdisj j k q Hq). lia.
    + apply (Hdisj i k q Hq). lia.
  - intros [| k] key c0 q Hkey Hc0 Hcolon Hq.
    + injection Hkey as <-. rewrite Nat.add_0_r in Hq.
      replace (i + 1) with (S i) in Hq by lia.
      by apply (I3 c0 (p ++ [i], c) q).
    + replace (i + S k) with (S i + k) in Hq by lia.
      replace (i + S (S k)) with (S i + S k) in Hq by lia.
      by apply (I4 k key c0 q).
  - intros [| k] name v Hk Hname Hnext.
    + injection Hk as ->. rewrite Nat.add_0_r.
      rewrite I2.
      * unfold marks in H2. simpl in H2. rewrite Hname in H2.
        injection H2 as <-. by injection H1 as <-.
      * intros k Hk. apply (Hdisj i k); [| lia]. unfold below.
        rewrite strip_self. eauto.
      * intros c' Hc' Hcolon. specialize (Hnext c' Hc'). congruence.
    + replace (i + S k) with (S i + k) by lia. rewrite (I5 k name v Hk Hname).
      * assert (Hb : below (p ++ [S i + k]) (p ++ [S i + k])).
        { unfold below. rewrite strip_self. eauto. }
        rewrite (marks_frame _ _ _ _ _ _ H2).
        -- apply Hvis. apply (Hdisj (S i + k) i); [done | lia].
        -- apply (Hdisj (S i + k) i); [done | lia].
        -- intros _ o Ho. destruct (Hprev o Ho) as (j & Hj & ->).
           apply (Hdisj (S i + k) j); [done | lia].
      * intros c' Hc'. by apply (Hnext c').
Qed.
End DictSetMakerMarks.

Lemma below_self p : below p p.
Proof. unfold below. rewrite strip_self. eauto. Qed.

Section DictSetMakerExact.
Variables (py : python) (parent : option node) (p : path).

Let visit := fun i c => Visit py parent (p ++ [i]) c.

(** The loop, from child [i] on, address by address.  Below [prev], which has
    been visited, the loop marks the tokens when the next child is a colon,
    and does nothing else.  Below a child of the loop it visits the child and
    then marks the tokens when the child is a colon or is followed by one. *)
Lemma dictsetmaker_loop_exact rest : forall i prev h h',
  (forall o, prev = Some o -> exists k, k < i /\ o.1 = p ++ [k]) ->
  dictsetmaker_loop visit p i prev rest h = Ok h' ->
  (forall o q, prev = Some o -> below o.1 q ->
     annot h' !! q =
       if match rest with
          | c :: _ => String.eqb (NodeName c) "COLON"
          | [] => false
          end && leaf_under o q
       then Some (raise (annot h !! q) STRONGLY_CONNECTED)
       else annot h !! q) /\
  (forall k c, rest !! k = Some c ->
     exists ha hb,
       visit (i + k) c ha = Ok hb /\
       (forall q, below (p ++ [i + k]) q -> annot ha !! q = annot h !! q) /\
       (forall q, below (p ++ [i + k]) q ->
          annot h' !! q =
            if (String.eqb (NodeName c) "COLON" ||
                match rest !! (S k) with
                | Some c' => String.eqb (NodeName c') "COLON"
                | None => false
                end) && leaf_under (p ++ [i + k], c) q
            then Some (raise (annot hb !! q) STRONGLY_CONNECTED)
            else annot hb !! q)).
Proof.
  induction rest as [| c rest IH]; intros i prev h h' Hprev Hrun.
  { injection Hrun as <-. split; [done |]. by intros k c Hk. }
  simpl in Hrun. apply seq_Ok in Hrun as (h1 & H1 & Hrun).
  apply seq_Ok in Hrun as (h2 & H2 & Hrun).
  assert (Hprev' : forall o, Some (p ++ [i], c) = Some o ->
            exists k, k < S i /\ o.1 = p ++ [k]).
  { intros o [= <-]. exists i. split; [lia | done]. }
  destruct (IH (S i) _ h2 h' Hprev' Hrun) as [IA IB].
  destruct (dictsetmaker_loop_spec py parent p rest (S i) _ h2 h' Hprev' Hrun)
    as (_ & Hframe & _).
  assert (Hdisj : forall j k q, below (p ++ [j]) q -> j <> k -> ~ below (p ++ [k]) q).
  { intros j k q Hj Hne Hk. apply Hne. by eapply below_snoc_inj. }
  assert (Hvis : forall q, ~ below (p ++ [i]) q -> annot h1 !! q = annot h !! q).
  { intros q Hq. eapply Visit_frame; [exact H1 |]. intros Hs.
    by apply Hq, sbelow_below. }
  (* the marks of this round *)
  assert (Hmarks : forall q,
            annot h2 !! q =
              if String.eqb (NodeName c) "COLON" &&
                 (match prev with Some o => leaf_under o q | None => false end ||
                  leaf_under (p ++ [i], c) q)
              then Some (raise (annot h1 !! q) STRONGLY_CONNECTED)
              else annot h1 !! q).
  { intros q. destruct (String.eqb (NodeName c) "COLON"); [| by injection H2 as <-].
    apply eval_Ok in H2 as (o & Ho & H2). destruct prev as [o' |]; [| done].
    injection Ho as ->. rewrite (SetStronglyConnected2_annot _ _ _ _ _ H2).
    cbv zeta. cbn [andb].
    destruct (leaf_under o q), (leaf_under (p ++ [i], c) q); cbn [orb];
      by rewrite ?raise_raise. }
  split.
  - intros o q -> Hq. destruct (Hprev o eq_refl) as (j & Hj & Ej).
    rewrite Ej in Hq.
    rewrite Hframe.
    + rewrite Hmarks, (Hvis q) by (apply (Hdisj j i q Hq); lia).
      assert (El : leaf_under (p ++ [i], c) q = false).
      { apply not_true_is_false. intros E%leaf_under_local.
        apply (Hdisj j i q Hq); [lia | done]. }
      by rewrite El, orb_false_r.
    + intros k Hk. apply (Hdisj j k q Hq). lia.
    + intros c' _ _ o' [= <-]. apply (Hdisj j i q Hq). lia.
  - intros [| k] c0 Hc0.
    + injection Hc0 as <-. rewrite Nat.add_0_r. exists h, h1.
      split; [done |]. split; [done |]. intros q Hq.
      rewrite (IA (p ++ [i], c) q eq_refl Hq), Hmarks.
      assert (Ep : match prev with Some o => leaf_under o q | None => false end
                   = false).
      { destruct prev as [o |]; [| done]. apply not_true_is_false.
        intros E%leaf_under_local. destruct (Hprev o eq_refl) as (j & Hj & Ej).
        rewrite Ej in E. apply (Hdisj j i q E); [lia | done]. }
      rewrite Ep. cbn [orb].
      assert (En : match rest with
                   | c' :: _ => String.eqb (NodeName c') "COLON"
                   | [] => false
                   end
                   = match (c :: rest) !! 1 with
                     | Some c' => String.eqb (NodeName c') "COLON"
                     | None => false
                     end) by (by destruct rest).
      rewrite <- En.
      destruct (String.eqb (NodeName c) "COLON"), (leaf_under (p ++ [i], c) q),
        (match rest with c' :: _ => String.eqb (NodeName c') "COLON" | [] => false end);
        cbn [andb orb]; by rewrite ?raise_raise.
    + simpl in Hc0. destruct (IB k c0 Hc0) as (ha & hb & Hv & Ha & Hb).
      replace (i + S k) with (S i + k) by lia. exists ha, hb.
      split; [done |]. split; [| exact Hb].
      intros q Hq. rewrite (Ha q Hq), Hmarks.
      assert (Ep : match prev with Some o => leaf_under o q | None => false end
                   = false).
      { destruct prev as [o |]; [| done]. apply not_true_is_false.
        intros E%leaf_under_local. destruct (Hprev o eq_refl) as (j & Hj & Ej).
        rewrite Ej in E. apply (Hdisj j (S i + k) q E); [lia | done]. }
      assert (El : leaf_under (p ++ [i], c) q = false).
      { apply not_true_is_false. intros E%leaf_under_local.
        apply (Hdisj i (S i + k) q E); [lia | done]. }
      rewrite Ep, El. cbn [orb]. rewrite andb_false_r.
      apply Hvis. apply (Hdisj (S i + k) i q Hq). lia.
Qed.
End DictSetMakerExact.


(** C9. After the visit of a dict or set maker, for every child that is a
    colon, every leaf of that colon and of the child before it carries at
    least STRONGLY_CONNECTED; a child that is a token other than a colon and is
    not followed by a colon, as the commas between the entries are, keeps the
    penalty it had before the visit.  The penalty is exact: a colon token, and
    a key that is a token, end with the maximum of the penalty they had and
    STRONGLY_CONNECTED, which is STRONGLY_CONNECTED itself on a token without
    a penalty; every leaf of a key that is an expression ends with the maximum
    of STRONGLY_CONNECTED and of what the visit of the key alone leaves on
    it. *)
Theorem dictsetmaker_keys (py : python) (parent : option node) (p : path)
    (ch : list node) (h h' : heap) :
  Visit py parent p (Node "dictsetmaker" ch) h = Ok h' ->
  (forall i key colon q,
     ch !! i = Some key -> ch !! (S i) = Some colon -> NodeName colon = "COLON" ->
     leaf_under (p ++ [i], key) q = true \/
     leaf_under (p ++ [S i], colon) q = true ->
     at_least STRONGLY_CONNECTED (annot h' !! q)) /\
  (forall i name v,
     ch !! i = Some (Leaf name v) -> name <> "COLON" ->
     (forall c, ch !! (S i) = Some c -> NodeName c <> "COLON") ->
     annot h' !! (p ++ [i]) = annot h !! (p ++ [i])) /\
  (forall i v, ch !! i = Some (Leaf "COLON" v) ->
     annot h' !! (p ++ [i]) =
       Some (raise (annot h !! (p ++ [i])) STRONGLY_CONNECTED)) /\
  (forall i name v colon,
     ch !! i = Some (Leaf name v) -> ch !! (S i) = Some colon ->
     NodeName colon = "COLON" ->
     annot h' !! (p ++ [i]) =
       Some (raise (annot h !! (p ++ [i])) STRONGLY_CONNECTED)) /\
  (forall i key colon,
     ch !! i = Some key -> ch !! (S i) = Some colon -> NodeName colon = "COLON" ->
     exists ha hb,
       Visit py (Some (Node "dictsetmaker" ch)) (p ++ [i]) key ha = Ok hb /\
       (forall q, below (p ++ [i]) q -> annot ha !! q = annot h !! q) /\
       (forall q, leaf_under (p ++ [i], key) q = true ->
          annot h' !! q = Some (raise (annot hb !! q) STRONGLY_CONNECTED))).
Proof.
  rewrite Visit_Node. change (rule_of "dictsetmaker") with R_dictsetmaker.
  cbv zeta iota. unfold Visit_dictsetmaker. intros Hrun.
  destruct (dictsetmaker_loop_spec py (Some (Node "dictsetmaker" ch)) p ch 0 None
              h h' ltac:(done) Hrun) as (_ & _ & _ & H4 & H5).
  destruct (dictsetmaker_loop_exact py (Some (Node "dictsetmaker" ch)) p ch 0 None
              h h' ltac:(done) Hrun) as [_ HE].
  split; [| split; [| split; [| split]]].
  - intros i key colon q Hkey Hcolon Hname Hq.
    apply (H4 i key colon q Hkey Hcolon); [by apply String.eqb_eq | done].
  - intros i name v Hi Hname Hnext.
    apply (H5 i name v Hi); [by apply String.eqb_neq |].
    intros c Hc. apply String.eqb_neq. by apply Hnext.
  - intros i v Hi. destruct (HE i _ Hi) as (ha & hb & Hv & Ha & Hb).
    simpl in Hv, Ha, Hb. injection Hv as <-.
    rewrite (Hb _ (below_self _)), (Ha _ (below_self _)).
    cbn [NodeName]. change (String.eqb "COLON" "COLON") with true. cbn [orb andb].
    rewrite leaf_under_Leaf. by rewrite bool_decide_eq_true_2.
  - intros i name v colon Hi Hcolon Hname.
    destruct (HE i _ Hi) as (ha & hb & Hv & Ha & Hb).
    simpl in Hv, Ha, Hb. injection Hv as <-.
    rewrite (Hb _ (below_self _)), (Ha _ (below_self _)), Hcolon, Hname.
    change (String.eqb "COLON" "COLON") with true. rewrite orb_true_r. cbn [andb].
    rewrite leaf_under_Leaf. by rewrite bool_decide_eq_true_2.
  - intros i key colon Hi Hcolon Hname.
    destruct (HE i _ Hi) as (ha & hb & Hv & Ha & Hb). simpl in Hv, Ha, Hb.
    exists ha, hb. split; [done |]. split; [done |]. intros q Hq.
    rewrite (Hb q (leaf_under_local _ _ Hq)), Hcolon, Hname, Hq.
    change (String.eqb "COLON" "COLON") with true. by rewrite orb_true_r.
Qed.

Lemma dictsetmaker_keys_witness :
  let h' := returned (Visit Python3 None [] dict_1_2_3_4 no_annotations) in
  annot h' !! [0] = Some STRONGLY_CONNECTED /\
  annot h' !! [1] = Some STRONGLY_CONNECTED /\
  annot h' !! [4] = Some STRONGLY_CONNECTED /\
  annot h' !! [5] = Some STRONGLY_CONNECTED /\
  annot h' !! [3] = None /\
  annot h' !! [2] = None /\
  annot h' !! [6] = None.
Proof.
  destruct (dictsetmaker_keys Python3 None []
              [Leaf "NUMBER" "1"; Leaf "COLON" ":"; Leaf "NUMBER" "2";
               Leaf "COMMA" ","; Leaf "NUMBER" "3"; Leaf "COLON" ":";
               Leaf "NUMBER" "4"]
              no_annotations
              (returned (Visit Python3 None [] dict_1_2_3_4 no_annotations)))
    as (_ & H2 & H3 & H4 & _); [vm_compute; reflexivity |].
  intros h'. split; [| split; [| split; [| split; [| split; [| split]]]]].
  - exact (H4 0 "NUMBER" "1" (Leaf "COLON" ":") eq_refl eq_refl eq_refl).
  - exact (H3 1 ":" eq_refl).
  - exact (H4 4 "NUMBER" "3" (Leaf "COLON" ":") eq_refl eq_refl eq_refl).
  - exact (H3 5 ":" eq_refl).
  - apply (H2 3 "COMMA" ","); [reflexivity | discriminate |].
    intros c [= <-]. discriminate.
  - apply (H2 2 "NUMBER" "2"); [reflexivity | discriminate |].
    intros c [= <-]. discriminate.
  - apply (H2 6 "NUMBER" "4"); [reflexivity | discriminate |].
    intros c [=].
Defined.

(** *** Atoms with trailers *)

Lemma child_inv o i o' :
  child o i = Ok o' ->
  exists k c, children o.2 !! k = Some c /\ o' = (o.1 ++ [k], c) /\
    ((0 <= i)%Z -> k = Z.to_nat i) /\
    ((i < 0)%Z -> Z.of_nat k = (Z.of_nat (length (children o.2)) + i)%Z).
Proof. apply item_inv. Qed.

Lemma below_two p a j i b :
  below ((p ++ [a]) ++ [j]) (p ++ [i; b]) -> a = i /\ j = b.
Proof.
  intros [r Hr]. rewrite !strip_snoc, strip_app in Hr.
  destruct (decide (a = i)); [| done]. destruct (decide (j = b)); done.
Qed.

Lemma mark_if_ole (b : bool) o h h' q :
  (if b then _SetUnbreakable o else skip) h = Ok h' ->
  ole (annot h !! q) (annot h' !! q).
Proof.
  destruct b; [apply SetUnbreakable_ole |]. intros [= <-]. apply ole_refl.
Qed.

Lemma mark_first_ole (b : bool) o h h' q :
  (if b then let! first := child o 0 in _SetUnbreakable first else skip) h = Ok h' ->
  ole (annot h !! q) (annot h' !! q).
Proof.
  destruct b; [| intros [= <-]; apply ole_refl].
  intros (first & _ & H)%eval_Ok. by eapply SetUnbreakable_ole.
Qed.

Section PowerMarks.
Variable p : path.


(** The chain loop: [c0], at index [i0], is the previous trailer and [rest]
    are the children after it. *)
Lemma trailer_chain_spec surrounded rest : forall i0 c0 h h',
  trailer_chain surrounded p (p ++ [i0], c0) (S i0) rest h = Ok h' ->
  (forall k tk tk', (c0 :: rest) !! k = Some tk -> rest !! k = Some tk' ->
     trailers_upto rest k ->
     (forall last v q, child (p ++ [i0 + k], tk) (-1) = Ok last ->
        value last.2 = Ok v -> v <> ")" -> leaf_under last q = true ->
        at_least UNBREAKABLE (annot h' !! q)) /\
     (surrounded = false ->
      forall first q, child (p ++ [i0 + S k], tk') 0 = Ok first ->
        leaf_under first q = true -> at_least UNBREAKABLE (annot h' !! q))) /\
  (forall q,
     (forall k tk last v, (c0 :: rest) !! k = Some tk ->
        child (p ++ [i0 + k], tk) (-1) = Ok last -> value last.2 = Ok v ->
        v <> ")" -> ~ below last.1 q) ->
     (forall k tk first, rest !! k = Some tk ->
        child (p ++ [i0 + S k], tk) 0 = Ok first -> ~ below first.1 q) ->
     annot h' !! q = annot h !! q).
Proof.
  induction rest as [| c rest IH]; intros i0 c0 h h' Hrun.
  { injection Hrun as <-. split; [| done]. intros k tk tk' _ Hk. done. }
  simpl in Hrun. destruct (String.eqb (NodeName c) "trailer") eqn:Ec.
  2:{ injection Hrun as <-. split; [| done].
      intros k tk tk' _ _ Hrun. destruct (Hrun 0) as (c' & [= <-] & Hn); [lia |].
      apply String.eqb_neq in Ec. done. }
  apply eval_Ok in Hrun as (last0 & Hlast0 & Hrun).
  apply eval_Ok in Hrun as (v0 & Hv0 & Hrun).
  apply seq_Ok in Hrun as (h1 & H1 & Hrun).
  apply seq_Ok in Hrun as (h2 & H2 & Hrun).
  destruct (IH _ _ _ _ Hrun) as [IA IB].
  assert (Hmono : forall q, ole (annot h2 !! q) (annot h' !! q)).
  { intros q. apply (post_monotone (fun _ => False) _ _ _ _ _
             (sound_trailer_chain _ p surrounded rest _ _ (kid_desc p (S i0) c)) Hrun). }
  split.
  - intros [| k] tk tk' Htk Htk' Hupto.
    + injection Htk as <-. injection Htk' as <-. rewrite Nat.add_0_r. split.
      * intros last v q Hlast Hv Hne Hq. rewrite Hlast in Hlast0.
        injection Hlast0 as <-. rewrite Hv in Hv0. injection Hv0 as <-.
        apply String.eqb_neq in Hne. rewrite Hne in H1. simpl in H1.
        eapply at_least_ole; [| apply Hmono].
        eapply at_least_ole; [| by eapply mark_first_ole].
        rewrite (SetUnbreakable_annot _ _ _ _ H1), Hq. apply at_least_raise.
      * intros -> first q Hfirst Hq. simpl in H2.
        replace (i0 + 1) with (S i0) in Hfirst by lia.
        apply eval_Ok in H2 as (first' & Hfirst' & H2).
        rewrite Hfirst in Hfirst'. injection Hfirst' as <-.
        eapply at_least_ole; [| apply Hmono].
        rewrite (SetUnbreakable_annot _ _ _ _ H2), Hq. apply at_least_raise.
    + simpl in Htk, Htk'.
      destruct (IA k tk tk' Htk Htk') as [IA1 IA2].
      { intros j Hj. destruct (Hupto (S j)) as (c' & Hc' & Hn); [lia |]. eauto. }
      replace (i0 + S k) with (S i0 + k) by lia.
      replace (i0 + S (S k)) with (S i0 + S k) by lia. done.
  - intros q Hlastq Hfirstq. rewrite IB.
    + assert (E2 : annot h2 !! q = annot h1 !! q).
      { destruct (negb surrounded); [| by injection H2 as <-].
        apply eval_Ok in H2 as (first & Hfirst & H2).
        rewrite (SetUnbreakable_annot _ _ _ _ H2).
        destruct (leaf_under first q) eqn:E; [| done].
        apply leaf_under_local in E. exfalso.
        apply (Hfirstq 0 c first eq_refl); [| done].
        by replace (i0 + 1) with (S i0) by lia. }
      rewrite E2. destruct (negb (String.eqb v0 ")")) eqn:Ev;
        [| by injection H1 as <-].
      rewrite (SetUnbreakable_annot _ _ _ _ H1).
      destruct (leaf_under last0 q) eqn:E; [| done].
      apply leaf_under_local in E. exfalso.
      apply (Hlastq 0 c0 last0 v0 eq_refl); try done.
      * by rewrite Nat.add_0_r.
      * apply negb_true_iff, String.eqb_neq in Ev. done.
    + intros k tk last v Htk Hlast Hv Hne.
      apply (Hlastq (S k) tk last v); try done.
      by replace (i0 + S k) with (S i0 + k) by lia.
    + intros k tk first Htk Hfirst.
      apply (Hfirstq (S k) tk first); [done |].
      by replace (i0 + S (S k)) with (S i0 + S k) by lia.
Qed.

(** The closing loop over the trailers from index [i] on. *)
Lemma call_parens_spec rest : forall i h h',
  call_parens p i rest h = Ok h' ->
  (forall k c first last q, rest !! k = Some c -> trailers_upto rest k ->
     child (p ++ [i + k], c) 0 = Ok first -> value first.2 = Ok "(" ->
     2 < length (children c) ->
     child (p ++ [i + k], c) (-1) = Ok last -> leaf_under last q = true ->
     at_least UNBREAKABLE (annot h' !! q)) /\
  (forall q,
     (forall k c last, rest !! k = Some c -> 2 < length (children c) ->
        child (p ++ [i + k], c) (-1) = Ok last -> ~ below last.1 q) ->
     annot h' !! q = annot h !! q).
Proof.
  induction rest as [| c rest IH]; intros i h h' Hrun.
  { injection Hrun as <-. split; [| done]. intros k c first last q Hk. done. }
  simpl in Hrun. destruct (String.eqb (NodeName c) "trailer") eqn:Ec; simpl in Hrun.
  2:{ injection Hrun as <-. split; [| done].
      intros k c' first last q _ Hupto.
      destruct (Hupto 0) as (c'' & [= <-] & Hn); [lia |].
      apply String.eqb_neq in Ec. done. }
  apply eval_Ok in Hrun as (first0 & Hfirst0 & Hrun).
  apply eval_Ok in Hrun as (v0 & Hv0 & Hrun).
  apply seq_Ok in Hrun as (h1 & H1 & Hrun).
  destruct (IH _ _ _ Hrun) as [IA IB].
  assert (Hmono : forall q, ole (annot h1 !! q) (annot h' !! q)).
  { intros q. apply (post_monotone (fun _ => False) _ _ _ _ _
             (sound_call_parens _ p rest (S i)) Hrun). }
  split.
  - intros [| k] c' first last q Hc' Hupto Hfirst Hv Hlen Hlast Hq.
    + injection Hc' as <-. rewrite Nat.add_0_r in Hfirst, Hlast.
      rewrite Hfirst in Hfirst0. injection Hfirst0 as <-.
      rewrite Hv in Hv0. injection Hv0 as <-.
      rewrite bool_decide_eq_true_2 in H1 by done. simpl in H1.
      apply eval_Ok in H1 as (last' & Hlast' & H1).
      rewrite Hlast in Hlast'. injection Hlast' as <-.
      eapply at_least_ole; [| apply Hmono].
      rewrite (SetUnbreakable_annot _ _ _ _ H1), Hq. apply at_least_raise.
    + simpl in Hc'. apply (IA k c' first last q); try done.
      * intros j Hj. destruct (Hupto (S j)) as (c'' & Hc'' & Hn); [lia |]. eauto.
      * by replace (S i + k) with (i + S k) by lia.
      * by replace (S i + k) with (i + S k) by lia.
  - intros q Hq. rewrite IB.
    + destruct (String.eqb v0 "(" && bool_decide (2 < length (children c))) eqn:Eb;
        [| by injection H1 as <-].
      apply eval_Ok in H1 as (last & Hlast & H1).
      rewrite (SetUnbreakable_annot _ _ _ _ H1).
      destruct (leaf_under last q) eqn:E; [| done].
      apply leaf_under_local in E. exfalso.
      apply andb_prop in Eb as [_ Hlen%bool_decide_eq_true].
      apply (Hq 0 c last eq_refl Hlen); [| done]. by rewrite Nat.add_0_r.
    + intros k c' last Hc' Hlen Hlast. apply (Hq (S k) c' last); try done.
      by replace (i + S k) with (S i + k) by lia.
Qed.
End PowerMarks.


Lemma Visit_power_inv py parent p ch h h' :
  Visit py parent p (Node "power" ch) h = Ok h' ->
  exists hv surrounded h1,
    DefaultNodeVisit (fun i c => Visit py (Some (Node "power" ch)) (p ++ [i]) c) ch h
      = Ok hv /\
    surrounded_by_parens parent = Ok surrounded /\
    power_chain surrounded p ch hv = Ok h1 /\
    call_parens p 1 (drop 1 ch) h1 = Ok h'.
Proof.
  rewrite Visit_Node. change (rule_of "power") with R_power. cbv zeta iota.
  unfold Visit_power. intros Hrun.
  apply seq_Ok in Hrun as (hv & Hv & Hrun).
  apply eval_Ok in Hrun as (s & Hs & Hrun).
  apply seq_Ok in Hrun as (h1 & H1 & Hrun).
  by exists hv, s, h1.
Qed.

Lemma sound_power_chain R surrounded p ch :
  sound post_like R (sbelow p) (power_chain surrounded p ch).
Proof.
  assert (Hpost := post_mark). unfold power_chain. mark_phase.
  apply sound_trailer_chain. eauto with desc.
Qed.

Lemma drop_lookup_S {A} (l : list A) n x :
  l !! n = Some x -> drop n l = x :: drop (S n) l.
Proof.
  revert n. induction l as [| y l IH]; intros [| n] H; simpl in *; try done.
  - by injection H as ->.
  - by apply IH.
Qed.

Lemma power_chain_spec surrounded p ch h h' :
  power_chain surrounded p ch h = Ok h' ->
  (forall i ti tj, 1 <= i -> ch !! i = Some ti -> ch !! (S i) = Some tj ->
     (forall j, 1 <= j <= S i -> exists c, ch !! j = Some c /\ NodeName c = "trailer") ->
     (forall last v q, child (p ++ [i], ti) (-1) = Ok last ->
        value last.2 = Ok v -> v <> ")" -> leaf_under last q = true ->
        at_least UNBREAKABLE (annot h' !! q)) /\
     (surrounded = false ->
      forall first q, child (p ++ [S i], tj) 0 = Ok first ->
        leaf_under first q = true -> at_least UNBREAKABLE (annot h' !! q))) /\
  (forall q,
     (forall k tk last v, 1 <= k -> ch !! k = Some tk ->
        child (p ++ [k], tk) (-1) = Ok last -> value last.2 = Ok v ->
        v <> ")" -> ~ below last.1 q) ->
     (forall k tk first, 1 <= k -> ch !! k = Some tk ->
        child (p ++ [k], tk) 0 = Ok first -> ~ below first.1 q) ->
     annot h' !! q = annot h !! q).
Proof.
  unfold power_chain. intros Hrun. split.
  - intros i ti tj Hi Hti Htj Hrun_tr.
    destruct (Hrun_tr 1) as (c1 & Hc1 & Hn1); [lia |].
    assert (Hlen : 1 < length ch) by (by eapply lookup_lt_Some).
    rewrite decide_True in Hrun by done.
    apply eval_Ok in Hrun as (o1 & Ho1 & Hrun).
    apply item_inv in Ho1 as (k1 & c1' & Hk1 & -> & Hi1 & _).
    assert (k1 = 1) as -> by (apply Hi1; lia).
    rewrite Hc1 in Hk1. injection Hk1 as <-. simpl in Hrun.
    apply String.eqb_eq in Hn1. rewrite Hn1 in Hrun.
    apply eval_Ok in Hrun as (first & Hfirst & Hrun).
    apply seq_Ok in Hrun as (h0 & H0 & Hrun).
    destruct (trailer_chain_spec p surrounded _ _ _ _ _ Hrun) as [HA _].
    destruct i as [| i]; [lia |].
    destruct (HA i ti tj) as [HA1 HA2].
    + rewrite <- (drop_lookup_S ch 1 c1 Hc1). by rewrite lookup_drop.
    + by rewrite lookup_drop.
    + intros j Hj. rewrite lookup_drop. apply Hrun_tr. lia.
    + split; [exact HA1 |]. intros Hs first' q. apply (HA2 Hs first' q).
  - intros q Hlastq Hfirstq.
    destruct (decide (1 < length ch)); [| by injection Hrun as <-].
    apply eval_Ok in Hrun as (o1 & Ho1 & Hrun).
    apply item_inv in Ho1 as (k1 & c1 & Hc1 & -> & Hi1 & _).
    assert (k1 = 1) as -> by (apply Hi1; lia). simpl in Hrun.
    destruct (String.eqb (NodeName c1) "trailer"); [| by injection Hrun as <-].
    apply eval_Ok in Hrun as (first & Hfirst & Hrun).
    apply seq_Ok in Hrun as (h0 & H0 & Hrun).
    destruct (trailer_chain_spec p surrounded _ _ _ _ _ Hrun) as [_ HB].
    rewrite HB.
    + rewrite (SetUnbreakable_annot _ _ _ _ H0).
      destruct (leaf_under first q) eqn:E; [| done].
      apply leaf_under_local in E. exfalso.
      by apply (Hfirstq 1 c1 first).
    + intros k tk last v Htk. apply Hlastq; [lia |].
      rewrite <- (drop_lookup_S ch 1 c1 Hc1), lookup_drop in Htk. done.
    + intros k tk first' Htk. apply Hfirstq; [lia |].
      by rewrite lookup_drop in Htk.
Qed.

(** The closing parenthesis of a call without arguments, [()], keeps its
    penalty through the visit of the power node: no clause marks it. *)
Lemma power_empty_call_paren py parent p ch h h' i n0 n1 :
  Visit py parent p (Node "power" ch) h = Ok h' ->
  ch !! i = Some (Node "trailer" [Leaf n0 "("; Leaf n1 ")"]) ->
  annot h' !! (p ++ [i; 1]) = annot h !! (p ++ [i; 1]).
Proof.
  intros Hrun Hi.
  apply Visit_power_inv in Hrun as (hv & s & h1 & Hv & Hs & H1 & Hrun).
  assert (Hb : below (p ++ [i]) (p ++ [i; 1])).
  { unfold below. replace (p ++ [i; 1]) with ((p ++ [i]) ++ [1]).
    - rewrite strip_app. eauto.
    - by rewrite <- app_assoc. }
  assert (Ekid : forall k tk m o, ch !! k = Some tk -> child (p ++ [k], tk) m = Ok o ->
            below o.1 (p ++ [i; 1]) ->
            tk = Node "trailer" [Leaf n0 "("; Leaf n1 ")"] /\
            o = (p ++ [i; 1], Leaf n1 ")")).
  { intros k tk m o Hk Ho Hbo.
    apply child_inv in Ho as (j & c & Hj & -> & _). simpl in *.
    apply below_two in Hbo as [-> ->]. rewrite Hi in Hk. injection Hk as <-.
    simpl in Hj. injection Hj as <-. split; [done |]. by rewrite <- app_assoc. }
  destruct (call_parens_spec p _ _ _ _ Hrun) as [_ HB]. rewrite HB.
  2:{ intros k c last Hc Hlen Hlast Hbo. rewrite lookup_drop in Hc.
      destruct (Ekid _ _ _ _ Hc Hlast Hbo) as [-> _]. simpl in Hlen. lia. }
  destruct (power_chain_spec _ _ _ _ _ H1) as [_ HC]. rewrite HC.
  2:{ intros k tk last v _ Htk Hlast Hval Hne Hbo.
      destruct (Ekid _ _ _ _ Htk Hlast Hbo) as [_ ->]. simpl in Hval.
      injection Hval as <-. done. }
  2:{ intros k tk first _ Htk Hfirst Hbo.
      apply child_inv in Hfirst as (j & c & Hj & -> & Hj0 & _). simpl in *.
      apply below_two in Hbo as [_ ->]. specialize (Hj0 ltac:(lia)). done. }
  destruct (children_visit_at py (Some (Node "power" ch)) p ch i _ h hv Hi Hv)
    as (ha & hb & Hvis & Ha & Hb').
  rewrite (Hb' _ Hb), <- (Ha _ Hb).
  rewrite Visit_Node in Hvis. vm_compute in Hvis. by injection Hvis as <-.
Qed.


(** C7. After the visit of a power node, for every trailer of the leading run
    of trailers that opens with [(] and has more than two children, every leaf
    of its last child, the closing parenthesis, carries at least UNBREAKABLE;
    the closing parenthesis of a call trailer [()] without arguments keeps the
    penalty it had before the visit. *)
Theorem power_call_closing_paren (py : python) (parent : option node) (p : path)
    (ch : list node) (h h' : heap) :
  Visit py parent p (Node "power" ch) h = Ok h' ->
  (forall i c first last q,
     1 <= i -> ch !! i = Some c ->
     (forall j, 1 <= j <= i -> exists c', ch !! j = Some c' /\ NodeName c' = "trailer") ->
     child (p ++ [i], c) 0 = Ok first -> value first.2 = Ok "(" ->
     2 < length (children c) ->
     child (p ++ [i], c) (-1) = Ok last -> leaf_under last q = true ->
     at_least UNBREAKABLE (annot h' !! q)) /\
  (forall i n0 n1,
     ch !! i = Some (Node "trailer" [Leaf n0 "("; Leaf n1 ")"]) ->
     annot h' !! (p ++ [i; 1]) = annot h !! (p ++ [i; 1])).
Proof.
  intros Hrun. split.
  - intros i c first last q Hi Hc Htr Hfirst Hv Hlen Hlast Hq.
    apply Visit_power_inv in Hrun as (hv & s & h1 & _ & _ & _ & Hrun).
    destruct (call_parens_spec p _ _ _ _ Hrun) as [HA _].
    destruct i as [| i]; [lia |].
    apply (HA i c first last q); try done.
    + by rewrite lookup_drop.
    + intros j Hj. rewrite lookup_drop. apply Htr. lia.
  - intros i n0 n1 Hi. by eapply power_empty_call_paren.
Qed.

Lemma power_call_closing_paren_witness :
  let h' := returned (Visit Python3 None [] f_1_call no_annotations) in
  at_least UNBREAKABLE (annot h' !! [1; 2]) /\ annot h' !! [2; 1] = None.
Proof.
  destruct (power_call_closing_paren Python3 None []
              [Leaf "NAME" "f";
               Node "trailer" [Leaf "LPAR" "("; Leaf "NUMBER" "1"; Leaf "RPAR" ")"];
               empty_call]
              no_annotations
              (returned (Visit Python3 None [] f_1_call no_annotations)))
    as (H1 & H2); [vm_compute; reflexivity |].
  intros h'. split.
  - apply (H1 1 (Node "trailer" [Leaf "LPAR" "("; Leaf "NUMBER" "1"; Leaf "RPAR" ")"])
              ([1; 0], Leaf "LPAR" "(") ([1; 2], Leaf "RPAR" ")") [1; 2]);
      first [reflexivity | lia | (simpl; lia) | idtac].
    intros j Hj. assert (j = 1) as -> by lia. eexists. split; reflexivity.
  - apply (H2 2 "LPAR" "RPAR"). reflexivity.
Defined.

(** C5, as stated, fails on [f().g]: the trailer [()] is followed by the
    trailer [.g] and is not a call with arguments (it has two children), yet
    after the visit its last token, the closing parenthesis, has no penalty;
    the first token of [.g] is UNBREAKABLE. *)
Lemma power_empty_call_not_forced :
  exists h',
    Visit Python3 None [] f_call_g no_annotations = Ok h' /\
    children f_call_g !! 1 = Some empty_call /\
    length (children empty_call) = 2 /\
    (exists c, children f_call_g !! 2 = Some c /\ NodeName c = "trailer") /\
    annot h' !! [1; 1] = None /\
    annot h' !! [2; 0] = Some UNBREAKABLE.
Proof.
  eexists. split; [vm_compute; reflexivity |].
  repeat split; try reflexivity. eexists. split; reflexivity.
Qed.

(** C5, amended. After the visit of a power node, for trailers [i] and [i+1]
    of the leading run of trailers: every leaf of the last child of trailer [i]
    carries at least UNBREAKABLE unless that child is a closing parenthesis,
    that is unless trailer [i] is a call, with or without arguments; and when
    the node is not surrounded by parentheses, every leaf of the first child of
    trailer [i+1] carries at least UNBREAKABLE.  The closing parenthesis of a
    call [()] without arguments keeps the penalty it had before the visit. *)
Theorem power_trailer_boundaries (py : python) (parent : option node) (p : path)
    (ch : list node) (h h' : heap) :
  Visit py parent p (Node "power" ch) h = Ok h' ->
  (forall i ti tj,
     1 <= i -> ch !! i = Some ti -> ch !! (S i) = Some tj ->
     (forall j, 1 <= j <= S i -> exists c, ch !! j = Some c /\ NodeName c = "trailer") ->
     (forall last v q, child (p ++ [i], ti) (-1) = Ok last ->
        value last.2 = Ok v -> v <> ")" -> leaf_under last q = true ->
        at_least UNBREAKABLE (annot h' !! q)) /\
     (surrounded_by_parens parent = Ok false ->
      forall first q, child (p ++ [S i], tj) 0 = Ok first ->
        leaf_under first q = true -> at_least UNBREAKABLE (annot h' !! q))) /\
  (forall i n0 n1,
     ch !! i = Some (Node "trailer" [Leaf n0 "("; Leaf n1 ")"]) ->
     annot h' !! (p ++ [i; 1]) = annot h !! (p ++ [i; 1])).
Proof.
  intros Hrun. split; [| intros i n0 n1 Hi; by eapply power_empty_call_paren].
  intros i ti tj Hi Hti Htj Htr.
  apply Visit_power_inv in Hrun as (hv & s & h1 & _ & Hs & H1 & Hrun).
  assert (Hmono : forall q, ole (annot h1 !! q) (annot h' !! q)).
  { intros q. apply (post_monotone (fun _ => False) _ _ _ _ _
             (sound_call_parens _ p _ 1) Hrun). }
  destruct (power_chain_spec _ _ _ _ _ H1) as [HA _].
  destruct (HA i ti tj Hi Hti Htj Htr) as [HA1 HA2]. split.
  - intros last v q Hlast Hv Hne Hq.
    eapply at_least_ole; [by eapply HA1 | apply Hmono].
  - intros Hs' first q Hfirst Hq. rewrite Hs in Hs'. injection Hs' as ->.
    eapply at_least_ole; [by eapply HA2 | apply Hmono].
Qed.

Lemma power_trailer_boundaries_witness :
  let h' := returned (Visit Python3 None [] a_b_call_c no_annotations) in
  at_least UNBREAKABLE (annot h' !! [1; 1]) /\
  at_least UNBREAKABLE (annot h' !! [2; 0]) /\
  annot h' !! [2; 1] = None.
Proof.
  destruct (power_trailer_boundaries Python3 None []
              [Leaf "NAME" "a"; attribute "b"; empty_call; attribute "c"]
              no_annotations
              (returned (Visit Python3 None [] a_b_call_c no_annotations)))
    as (H1 & H2); [vm_compute; reflexivity |].
  destruct (H1 1 (attribute "b") empty_call) as [Ha Hb];
    [lia | reflexivity | reflexivity | |].
  { intros j Hj. assert (j = 1 \/ j = 2) as [-> | ->] by lia;
      eexists; split; reflexivity. }
  intros h'. split; [| split].
  - apply (Ha ([1; 1], Leaf "NAME" "b") "b" [1; 1]);
      [reflexivity | reflexivity | discriminate | reflexivity].
  - apply (Hb eq_refl ([2; 0], Leaf "LPAR" "(") [2; 0]); reflexivity.
  - apply (H2 2 "LPAR" "RPAR"). reflexivity.
Defined.

(** * Further properties of the pass *)

(** ** The marking helpers compose *)

Lemma leaf_under_child p name ch k c q :
  ch !! k = Some c -> leaf_under (p ++ [k], c) q = true ->
  leaf_under (p, Node name ch) q = true.
Proof.
  intros Hk Hq. rewrite leaf_under_Node. unfold any_kid.
  destruct (leaf_under_local _ _ Hq) as [r Hr]. simpl in Hr.
  rewrite strip_snoc in Hr.
  destruct (strip p q) as [[| j r'] |]; try done.
  case_decide; [subst j | done]. rewrite decide_True by lia.
  by rewrite Nat.sub_0_r, Hk.
Qed.

Lemma iter_from_id {A} (body : nat -> A -> heap -> heap) l h : forall from,
  (forall k x, l !! k = Some x -> body (from + k) x h = h) ->
  iter_from body from l h = h.
Proof.
  induction l as [| x l IH]; intros from Hbody; [done |]. simpl.
  assert (H0 := Hbody 0 x eq_refl). rewrite Nat.add_0_r in H0. rewrite H0.
  apply IH. intros k y Hk. replace (S from + k) with (from + S k) by lia.
  by apply Hbody.
Qed.

Lemma RecAnnotate_noop tree : forall p v h,
  (forall q, leaf_under (p, tree) q = true -> at_least v (annot h !! q)) ->
  _RecAnnotate p tree v h = h.
Proof.
  induction tree as [name val | name ch IH] using node_ind; intros p v h Hall.
  - simpl. unfold GetNodeAnnotation.
    destruct (Hall p) as (a & Ha & Hle).
    { rewrite leaf_under_Leaf. by apply bool_decide_eq_true_2. }
    rewrite Ha. destruct (a <? v)%Z eqn:E; [lia | done].
  - simpl. apply iter_from_id. intros k c Hk. simpl.
    rewrite Forall_lookup in IH. apply (IH _ _ Hk).
    intros q Hq. apply Hall. by eapply leaf_under_child.
Qed.

(** The docstring of [_RecAnnotate]: when every leaf of the subtree already
    carries a penalty that is higher than or equal to the value, the call is a
    no-op: it returns the store as it found it and makes no write. *)
Theorem RecAnnotate_higher_is_noop (p : path) (tree : node) (v : Z) (h : heap) :
  (forall q, leaf_under (p, tree) q = true -> at_least v (annot h !! q)) ->
  _RecAnnotate p tree v h = h.
Proof. apply RecAnnotate_noop. Qed.

Lemma leaf_under_x_plus_y q :
  leaf_under ([], x_plus_y) q = true -> q = [0] \/ q = [1] \/ q = [2].
Proof.
  destruct q as [| [| [| [| i]]] [| j r]]; try discriminate; auto.
Qed.

Lemma RecAnnotate_higher_is_noop_witness :
  _RecAnnotate [] x_plus_y ARITHMETIC_EXPRESSION x_plus_y_strong = x_plus_y_strong.
Proof.
  apply (RecAnnotate_higher_is_noop [] x_plus_y ARITHMETIC_EXPRESSION x_plus_y_strong).
  intros q [-> | [-> | ->]]%leaf_under_x_plus_y;
    (exists 1000%Z; split; [reflexivity | unfold ARITHMETIC_EXPRESSION; lia]).
Defined.

Lemma raise_max x v w : raise (Some (raise x v)) w = raise x (Z.max v w).
Proof. destruct x; simpl; lia. Qed.

(** Two calls of [_RecAnnotate] on one subtree leave the annotations of one
    call with the larger of the two values, whatever their order; a repeated
    call with the same value changes nothing more. *)
Theorem RecAnnotate_twice_is_max (p : path) (tree : node) (v w : Z) (h : heap) :
  annot (_RecAnnotate p tree w (_RecAnnotate p tree v h)) =
    annot (_RecAnnotate p tree (Z.max v w) h) /\
  annot (_RecAnnotate p tree v (_RecAnnotate p tree w h)) =
    annot (_RecAnnotate p tree (Z.max v w) h) /\
  _RecAnnotate p tree v (_RecAnnotate p tree v h) = _RecAnnotate p tree v h.
Proof.
  split; [| split].
  - apply map_eq. intros q. rewrite !RecAnnotate_annot.
    destruct (leaf_under (p, tree) q); [| done]. by rewrite raise_max.
  - apply map_eq. intros q. rewrite !RecAnnotate_annot.
    destruct (leaf_under (p, tree) q); [| done]. by rewrite raise_max, Z.max_comm.
  - apply RecAnnotate_noop. intros q Hq. rewrite RecAnnotate_annot, Hq.
    apply at_least_raise.
Qed.

(** Marks on any two subtrees commute: the annotations do not depend on the
    order in which the two calls are made. *)
Theorem RecAnnotate_commute (p1 p2 : path) (t1 t2 : node) (v1 v2 : Z) (h : heap) :
  annot (_RecAnnotate p1 t1 v1 (_RecAnnotate p2 t2 v2 h)) =
  annot (_RecAnnotate p2 t2 v2 (_RecAnnotate p1 t1 v1 h)).
Proof.
  apply map_eq. intros q. rewrite !RecAnnotate_annot.
  destruct (leaf_under (p1, t1) q), (leaf_under (p2, t2) q); try done.
  rewrite !raise_max. f_equal. destruct (annot h !! q); simpl; lia.
Qed.

Lemma SetStronglyConnected_fold nodes : forall h q,
  annot (foldl (fun h o => _RecAnnotate o.1 o.2 STRONGLY_CONNECTED h) h nodes) !! q =
    if existsb (fun o => leaf_under o q) nodes
    then Some (raise (annot h !! q) STRONGLY_CONNECTED)
    else annot h !! q.
Proof.
  induction nodes as [| [p t] nodes IH]; intros h q; [done |].
  cbn [foldl existsb fst snd]. rewrite IH, RecAnnotate_annot.
  destruct (leaf_under (p, t) q); cbn [orb]; [| done].
  destruct (existsb _ nodes); [| done]. by rewrite raise_raise.
Qed.

Lemma SetStronglyConnected_any_Some objs : forall h,
  _SetStronglyConnected_any (map Some objs) h = _SetStronglyConnected objs h.
Proof.
  induction objs as [| o objs IH]; intros h; [done |].
  cbn [map _SetStronglyConnected_any]. unfold seq, step. cbn [mbind result_bind].
  by rewrite IH.
Qed.

Lemma SetStronglyConnected_any_None nodes : forall h,
  In None nodes -> _SetStronglyConnected_any nodes h = Err AttributeError.
Proof.
  induction nodes as [| [o |] nodes IH]; intros h Hin; [done | | done].
  destruct Hin as [? | Hin]; [done |].
  cbn [_SetStronglyConnected_any]. unfold seq, step. cbn [mbind result_bind].
  by apply IH.
Qed.

(** [_SetStronglyConnected] on nodes of the tree returns, and leaves a token
    with the maximum of its penalty and STRONGLY_CONNECTED when it is a leaf
    of one of the nodes, in whatever order and however often the nodes are
    given; every other annotation is kept.  When one of its arguments is
    [None] it raises [AttributeError]; the loop of [Visit_dictsetmaker], which
    passes [prev_child] and the colon, raises so when [prev_child] is still
    [None]. *)
Theorem SetStronglyConnected_marks (h : heap) :
  (forall objs, exists h',
     _SetStronglyConnected_any (map Some objs) h = Ok h' /\
     _SetStronglyConnected objs h = Ok h' /\
     forall q, annot h' !! q =
       if existsb (fun o => leaf_under o q) objs
       then Some (raise (annot h !! q) STRONGLY_CONNECTED)
       else annot h !! q) /\
  (forall nodes, In None nodes ->
     _SetStronglyConnected_any nodes h = Err AttributeError) /\
  (forall prev_child child,
     _SetStronglyConnected_any [prev_child; Some child] h =
     (let! prev := match prev_child with
                   | None => Err AttributeError
                   | Some prev => Ok prev
                   end in
      _SetStronglyConnected [prev; child]) h).
Proof.
  split; [| split].
  - intros objs. eexists. rewrite SetStronglyConnected_any_Some.
    split; [reflexivity |]. split; [reflexivity |].
    apply SetStronglyConnected_fold.
  - intros nodes. apply SetStronglyConnected_any_None.
  - intros [prev |] child; [| done].
    apply (SetStronglyConnected_any_Some [prev; child]).
Qed.

(** UNBREAKABLE outranks STRONGLY_CONNECTED: in either order, marking a node
    with both leaves the annotations that [_SetUnbreakable] alone leaves, and
    [_SetStronglyConnected] after [_SetUnbreakable] does not write at all. *)
Theorem SetUnbreakable_outranks (o : obj) (h : heap) :
  (_SetUnbreakable o >> _SetStronglyConnected [o]) h = _SetUnbreakable o h /\
  exists h1 h2,
    (_SetStronglyConnected [o] >> _SetUnbreakable o) h = Ok h1 /\
    _SetUnbreakable o h = Ok h2 /\ annot h1 = annot h2.
Proof.
  destruct o as [p t]. split.
  - unfold seq, _SetUnbreakable, _SetStronglyConnected, step. simpl. f_equal.
    apply RecAnnotate_noop. intros q Hq. rewrite RecAnnotate_annot, Hq.
    eexists. split; [done |].
    destruct (annot h !! q); unfold STRONGLY_CONNECTED, UNBREAKABLE; simpl; lia.
  - eexists _, _. split; [reflexivity |]. split; [reflexivity |].
    simpl. apply map_eq. intros q. rewrite !RecAnnotate_annot.
    destruct (leaf_under (p, t) q); [| done]. rewrite raise_max. reflexivity.
Qed.

(** ** The first leaf of an expression *)

Lemma leaf_at_Leaf_cons name v i r : leaf_at (Leaf name v) (i :: r) = false.
Proof. reflexivity. Qed.

Lemma FirstChildNode_spec n : forall p first,
  FirstChildNode p n = Ok first <->
  exists k, first = p ++ replicate k 0 /\ leaf_at n (replicate k 0) = true.
Proof.
  induction n as [name val | name ch IH] using node_ind; intros p first.
  - simpl. split.
    + intros [= <-]. exists 0. by rewrite app_nil_r.
    + intros ([| k] & -> & Hk); [by rewrite app_nil_r |].
      simpl in Hk. by rewrite leaf_at_Leaf_cons in Hk.
  - destruct ch as [| c ch]; simpl.
    + split; [done |]. intros ([| k] & _ & Hk); [done |].
      unfold leaf_at in Hk. simpl in Hk. done.
    + apply Forall_cons in IH as [IHc _]. rewrite IHc. split.
      * intros (k & -> & Hk). exists (S k). split.
        -- by rewrite <- app_assoc.
        -- exact Hk.
      * intros ([| k] & -> & Hk); [done |]. exists k. split.
        -- by rewrite <- app_assoc.
        -- exact Hk.
Qed.

Lemma FirstChildNode_Err n : forall p e,
  FirstChildNode p n = Err e -> e = IndexError.
Proof.
  induction n as [name val | name ch IH] using node_ind; intros p e; [done |].
  destruct ch as [| c ch]; simpl; [by intros [= <-] |].
  apply Forall_cons in IH as [IHc _]. apply IHc.
Qed.

(** [FirstChildNode] follows the first child of each node down to a token: it
    returns the address that consists of the address of the node and of zeros
    only, the leftmost leaf of the leftmost, deepest child, and that address
    alone; it fails, with [IndexError] and nothing else, when that descent
    reaches a node without children. *)
Theorem FirstChildNode_leftmost (p : path) (n : node) :
  (forall first, FirstChildNode p n = Ok first <->
     exists k, first = p ++ replicate k 0 /\ leaf_at n (replicate k 0) = true) /\
  (forall e, FirstChildNode p n = Err e -> e = IndexError) /\
  (forall name, FirstChildNode p (Node name []) = Err IndexError).
Proof.
  split; [apply FirstChildNode_spec |]. split; [apply FirstChildNode_Err | done].
Qed.

(** ** The arithmetic rule on annotated tokens *)

(** When every leaf of the expression other than the first already carries a
    penalty, the arithmetic rule returns on either interpreter: each of these
    leaves ends with the maximum of its penalty and ARITHMETIC_EXPRESSION, and
    the first leaf and everything outside the expression are kept. *)
Theorem arithmetic_rule_on_annotated (py : python) (p : path) (n : node)
    (first : path) (h : heap) :
  FirstChildNode p n = Ok first ->
  (forall q, leaf_under (p, n) q = true -> q <> first -> is_Some (annot h !! q)) ->
  exists h', _SetArithmeticExpression py (p, n) h = Ok h' /\
    (forall q, leaf_under (p, n) q = true -> q <> first ->
       annot h' !! q = Some (raise (annot h !! q) ARITHMETIC_EXPRESSION)) /\
    annot h' !! first = annot h !! first /\
    (forall q, leaf_under (p, n) q = false -> annot h' !! q = annot h !! q).
Proof.
  intros Hf Hall.
  assert (Hrun : exists h', _SetArithmeticExpression py (p, n) h = Ok h').
  { destruct py; [by eapply SetArithmeticExpression_python2 |].
    eapply SetArithmeticExpression_python3_Ok; [done |].
    intros q [Hq Hne%bool_decide_eq_true]%andb_prop. by apply Hall. }
  destruct Hrun as [h' Hrun]. exists h'. split; [done |].
  assert (Heq := SetArithmeticExpression_annot _ _ _ _ _ _ Hf Hrun).
  unfold arith_leaf in Heq. split; [| split].
  - intros q Hq Hne. by rewrite Heq, Hq, bool_decide_eq_true_2.
  - rewrite Heq, bool_decide_eq_false_2 by auto. by rewrite andb_false_r.
  - intros q Hq. by rewrite Heq, Hq.
Qed.

Lemma arithmetic_rule_on_annotated_witness :
  exists h', _SetArithmeticExpression Python3 ([], x_plus_y) x_plus_y_marked = Ok h' /\
    (forall q, leaf_under ([], x_plus_y) q = true -> q <> [0] ->
       annot h' !! q =
         Some (raise (annot x_plus_y_marked !! q) ARITHMETIC_EXPRESSION)) /\
    annot h' !! [0] = annot x_plus_y_marked !! [0] /\
    (forall q, leaf_under ([], x_plus_y) q = false ->
       annot h' !! q = annot x_plus_y_marked !! q).
Proof.
  apply (arithmetic_rule_on_annotated Python3 [] x_plus_y [0] x_plus_y_marked);
    [reflexivity |].
  intros q [-> | [-> | ->]]%leaf_under_x_plus_y Hne; [done | |];
    eexists; reflexivity.
Defined.

(** ** What a visit does to the store, address by address *)

Lemma lookup_store (q0 : path) (v : option Z) (m : gmap path Z) (q : path) :
  store q0 v m !! q = if decide (q0 = q) then v else m !! q.
Proof.
  unfold store. destruct v as [x |].
  - rewrite lookup_insert. by case_decide.
  - rewrite lookup_delete. by case_decide.
Qed.

(** Writes that raise, or clear an address of [R], do not lower the penalty
    of an address outside [R]. *)
Lemma trace_ole R m l m' q :
  trace m l m' -> Forall (ok_write R) l -> ~ R q -> ole (m !! q) (m' !! q).
Proof.
  intros Ht. induction Ht as [| l m1 q0 v Ht IH]; intros Hok Hq; [apply ole_refl |].
  apply Forall_cons in Hok as [Hw Hok]. rewrite lookup_store.
  case_decide; [subst q0 | by apply IH].
  destruct Hw as [Hw | [_ Hw]]; [| done]. simpl in Hw.
  eapply ole_trans; [by apply IH | done].
Qed.

Lemma Visit_never_lowers py parent p n h h' q :
  Visit py parent p n h = Ok h' -> ~ comp_if_head (p, n) q ->
  ole (annot h !! q) (annot h' !! q).
Proof.
  intros Hrun Hq. destruct (Visit_sound n py parent p) as [_ Hl].
  destruct (Hl h h' Hrun) as (l & _ & Ht & Hok). by eapply trace_ole.
Qed.

(** The visit of a node changes no annotation outside the subtree below the
    node, the node's own included, and it lowers the penalty of no address
    other than the first child of a [comp_if] node of that subtree. *)
Theorem Visit_local_and_rising (py : python) (parent : option node) (p : path)
    (n : node) (h h' : heap) :
  Visit py parent p n h = Ok h' ->
  (forall q, ~ sbelow p q -> annot h' !! q = annot h !! q) /\
  (forall q, ~ comp_if_head (p, n) q -> ole (annot h !! q) (annot h' !! q)).
Proof.
  intros Hrun. split; intros q Hq.
  - by eapply Visit_frame.
  - by eapply Visit_never_lowers.
Qed.

Lemma Visit_local_and_rising_witness :
  let h' := returned (Visit Python2 None [] filtered_sum no_annotations) in
  (forall q, ~ sbelow [] q -> annot h' !! q = annot no_annotations !! q) /\
  (forall q, ~ comp_if_head ([], filtered_sum) q ->
     ole (annot no_annotations !! q) (annot h' !! q)).
Proof.
  apply (Visit_local_and_rising Python2 None [] filtered_sum no_annotations).
  vm_compute. reflexivity.
Defined.

Section ChildrenRise.
Variables (py : python) (parent : option node) (p : path).

Let visit := fun i c => Visit py parent (p ++ [i]) c.

(** The visit of the children lowers nothing but the heads of the [comp_if]
    nodes below them. *)
Lemma children_visit_ole l : forall from h h' q,
  for_from visit from l h = Ok h' ->
  (forall k c, l !! k = Some c -> ~ comp_if_head (p ++ [from + k], c) q) ->
  ole (annot h !! q) (annot h' !! q).
Proof.
  induction l as [| c l IH]; intros from h h' q Hrun Hq.
  - injection Hrun as <-. apply ole_refl.
  - simpl in Hrun. apply bind_Ok in Hrun as (h1 & H1 & Hrest).
    apply (ole_trans _ (annot h1 !! q)).
    + eapply Visit_never_lowers; [exact H1 |].
      specialize (Hq 0 c eq_refl). by rewrite Nat.add_0_r in Hq.
    + apply (IH _ _ _ _ Hrest). intros k c' Hk.
      replace (S from + k) with (from + S k) by lia. by apply (Hq (S k)).
Qed.
End ChildrenRise.

(** The same for the children of a node, in terms of the node. *)
Lemma DefaultNodeVisit_ole py parent p name ch h h' q :
  DefaultNodeVisit (fun i c => Visit py parent (p ++ [i]) c) ch h = Ok h' ->
  ~ comp_if_head (p, Node name ch) q ->
  ole (annot h !! q) (annot h' !! q).
Proof.
  intros Hrun Hq. eapply children_visit_ole; [exact Hrun |].
  intros k c Hk Hc. apply Hq. by eapply comp_if_head_child.
Qed.

(** ** Rules that mark before they visit the children *)


Lemma existsb_kids p ch n q :
  existsb (fun o => leaf_under o q) (drop n (kids p ch)) = true <->
  exists k c, n <= k /\ ch !! k = Some c /\ leaf_under (p ++ [k], c) q = true.
Proof.
  rewrite existsb_exists. split.
  - intros (o & Ho & Hq). apply list_elem_of_In, list_elem_of_lookup in Ho as [i Hi].
    rewrite lookup_drop in Hi. unfold kids in Hi. rewrite list_lookup_imap in Hi.
    destruct (ch !! (n + i)) as [c |] eqn:E; [| done]. injection Hi as <-.
    exists (n + i), c. split; [lia | done].
  - intros (k & c & Hk & Hc & Hq). exists (p ++ [k], c). split; [| done].
    apply list_elem_of_In, list_elem_of_lookup. exists (k - n).
    rewrite lookup_drop. unfold kids. rewrite list_lookup_imap.
    replace (n + (k - n)) with k by lia. by rewrite Hc.
Qed.


(** A mark on a later child does not reach the address of an earlier one. *)
Lemma existsb_kids_miss p ch n i :
  i < n -> existsb (fun o => leaf_under o (p ++ [i])) (drop n (kids p ch)) = false.
Proof.
  intros Hi. apply not_true_is_false. intros (k & c & Hk & _ & Hq)%existsb_kids.
  apply leaf_under_local in Hq. simpl in Hq.
  assert (k = i) by (eapply below_snoc_inj; [exact Hq | apply below_self]). lia.
Qed.

Lemma SetStronglyConnected_annot nodes h h' q :
  _SetStronglyConnected nodes h = Ok h' ->
  annot h' !! q =
    if existsb (fun o => leaf_under o q) nodes
    then Some (raise (annot h !! q) STRONGLY_CONNECTED)
    else annot h !! q.
Proof. intros [= <-]. apply SetStronglyConnected_fold. Qed.





(** The visit of a [comp_if] node: its first child, the keyword [if], ends
    with no penalty, whatever it had, so that the line may break before the
    filter; every token of the children after it ends with at least
    STRONGLY_CONNECTED, the first child of a [comp_if] node nested among them
    apart. *)
Theorem comp_if_reopens_keyword (py : python) (parent : option node)
    (p : path) (ch : list node) (h h' : heap) :
  Visit py parent p (Node "comp_if" ch) h = Ok h' ->
  annot h' !! (p ++ [0]) = None /\
  (forall k c q, 1 <= k -> ch !! k = Some c ->
     leaf_under (p ++ [k], c) q = true ->
     ~ comp_if_head (p, Node "comp_if" ch) q ->
     at_least STRONGLY_CONNECTED (annot h' !! q)) /\
  (forall k name v, 1 <= k -> ch !! k = Some (Leaf name v) ->
     annot h' !! (p ++ [k]) =
       Some (raise (annot h !! (p ++ [k])) STRONGLY_CONNECTED)).
Proof.
  rewrite Visit_Node. change (rule_of "comp_if") with R_comp_if.
  cbv zeta iota. unfold Visit_comp_if. intros Hrun.
  apply eval_Ok in Hrun as (o0 & Ho0 & Hrun).
  apply item_inv in Ho0 as (k0 & c0 & Hk0 & -> & Hi0 & _).
  assert (k0 = 0) as -> by (apply Hi0; lia). cbn [fst] in Hrun.
  apply seq_Ok in Hrun as (h0 & H0 & Hrun). injection H0 as <-.
  apply seq_Ok in Hrun as (h1 & H1 & Hrun).
  assert (E1 := fun q => SetStronglyConnected_annot _ _ _ q H1).
  split; [| split].
  - rewrite (children_visit_leaf _ _ _ _ _ _ _ Hrun), E1.
    rewrite existsb_kids_miss by lia. by rewrite annot_Set, decide_True.
  - intros k c q Hk Hc Hq Hn.
    eapply at_least_ole; [| by eapply DefaultNodeVisit_ole].
    rewrite E1.
    assert (Hex : existsb (fun o => leaf_under o q) (drop 1 (kids p ch)) = true).
    { apply existsb_kids. eauto. }
    rewrite Hex. apply at_least_raise.
  - intros k name v Hk Hc.
    rewrite (children_visit_leaf _ _ _ _ _ _ _ Hrun), E1.
    assert (Hex : existsb (fun o => leaf_under o (p ++ [k])) (drop 1 (kids p ch))
                  = true).
    { apply existsb_kids. exists k, (Leaf name v). split; [done |].
      split; [done |]. rewrite leaf_under_Leaf. by apply bool_decide_eq_true_2. }
    rewrite Hex, annot_Set, decide_False; [done |].
    intros H. apply app_inv_head in H. injection H as <-. lia.
Qed.

Lemma comp_if_reopens_keyword_witness :
  let ch := [Leaf "NAME" "if"; Leaf "NAME" "z"] in
  let h0 := Heap {[ [0] := UNBREAKABLE ]} [] in
  let h' := returned (Visit Python3 None [] (Node "comp_if" ch) h0) in
  annot h' !! ([] ++ [0]) = None /\
  (forall k c q, 1 <= k -> ch !! k = Some c ->
     leaf_under ([] ++ [k], c) q = true ->
     ~ comp_if_head ([], Node "comp_if" ch) q ->
     at_least STRONGLY_CONNECTED (annot h' !! q)) /\
  (forall k name v, 1 <= k -> ch !! k = Some (Leaf name v) ->
     annot h' !! ([] ++ [k]) =
       Some (raise (annot h0 !! ([] ++ [k])) STRONGLY_CONNECTED)).
Proof.
  apply (comp_if_reopens_keyword Python3 None []
           [Leaf "NAME" "if"; Leaf "NAME" "z"] (Heap {[ [0] := UNBREAKABLE ]} [])).
  vm_compute. reflexivity.
Defined.

(** ** Function definitions *)

Lemma skip_simple_stmt_first rest : forall a k c,
  (forall j c', j < k -> rest !! j = Some c' -> NodeName c' = "simple_stmt") ->
  rest !! k = Some c -> NodeName c <> "simple_stmt" ->
  skip_simple_stmt a rest = Ok (a + k).
Proof.
  induction rest as [| x rest IH]; intros a k c Hbefore Hk Hc; [done |].
  simpl. destruct k as [| k].
  - injection Hk as ->. apply String.eqb_neq in Hc. rewrite Hc.
    by rewrite Nat.add_0_r.
  - rewrite (proj2 (String.eqb_eq _ _) (Hbefore 0 x ltac:(lia) eq_refl)).
    replace (a + S k) with (S a + k) by lia. apply (IH _ _ c); [| done | done].
    intros j c' Hj Hc'. apply (Hbefore (S j)); [lia | done].
Qed.

Lemma find_colon_is_colon rest : forall a,
  find_colon a rest =
    match rest with
    | [] => a
    | c :: rest' => if is_colon c then a else find_colon (S a) rest'
    end.
Proof.
  destruct rest as [| [name v | name ch] rest]; intros a; try done.
  simpl. destruct (String.eqb v ":") eqn:E.
  - apply String.eqb_eq in E. by subst v.
  - apply String.eqb_neq in E.
    repeat (match goal with
            | |- context [match ?x with _ => _ end] => destruct x; try done
            end).
Qed.

Lemma find_colon_first rest : forall a k c,
  (forall j c', j < k -> rest !! j = Some c' -> is_colon c' = false) ->
  rest !! k = Some c -> is_colon c = true ->
  find_colon a rest = a + k.
Proof.
  induction rest as [| x rest IH]; intros a k c Hbefore Hk Hc; [done |].
  rewrite find_colon_is_colon. destruct k as [| k].
  - injection Hk as ->. rewrite Hc. lia.
  - rewrite (Hbefore 0 x ltac:(lia) eq_refl).
    replace (a + S k) with (S a + k) by lia. apply (IH _ _ c); [| done | done].
    intros j c' Hj Hc'. apply (Hbefore (S j)); [lia | done].
Qed.

Lemma find_colon_none rest : forall a,
  (forall j c', rest !! j = Some c' -> is_colon c' = false) ->
  find_colon a rest = a + length rest.
Proof.
  induction rest as [| x rest IH]; intros a Hnone; [simpl; lia |].
  rewrite find_colon_is_colon, (Hnone 0 x eq_refl), IH.
  - simpl. lia.
  - intros j c' Hc'. by apply (Hnone (S j)).
Qed.

Lemma item_nat p ch k c : ch !! k = Some c -> item p ch (Z.of_nat k) = Ok (p ++ [k], c).
Proof.
  intros Hk. unfold item. cbv zeta.
  destruct (Z.of_nat k <? 0)%Z eqn:E; [apply Z.ltb_lt in E; lia |]. rewrite E.
  by rewrite Nat2Z.id, Hk.
Qed.

Lemma item_beyond p ch k : length ch <= k -> item p ch (Z.of_nat k) = Err IndexError.
Proof.
  intros Hk. unfold item. cbv zeta.
  destruct (Z.of_nat k <? 0)%Z eqn:E; [apply Z.ltb_lt in E; lia |]. rewrite E.
  rewrite Nat2Z.id. by rewrite lookup_ge_None_2.
Qed.

(** The two loops of [Visit_funcdef] and the marks that follow them. *)
Lemma Visit_funcdef_inv py parent p ch h h' i j ci cj :
  Visit py parent p (Node "funcdef" ch) h = Ok h' ->
  1 <= i <= j ->
  (forall k c, 1 <= k < i -> ch !! k = Some c -> NodeName c = "simple_stmt") ->
  ch !! i = Some ci -> NodeName ci <> "simple_stmt" ->
  (forall k c, i <= k < j -> ch !! k = Some c -> is_colon c = false) ->
  ch !! j = Some cj -> is_colon cj = true ->
  exists h1 h2,
    _SetUnbreakable (p ++ [i], ci) h = Ok h1 /\
    _SetUnbreakable (p ++ [j], cj) h1 = Ok h2 /\
    DefaultNodeVisit (fun k c => Visit py (Some (Node "funcdef" ch)) (p ++ [k]) c)
      ch h2 = Ok h'.
Proof.
  rewrite Visit_Node. change (rule_of "funcdef") with R_funcdef.
  cbv zeta iota. unfold Visit_funcdef. intros Hrun Hij Hskip Hi Hni Hnc Hj Hcj.
  rewrite (skip_simple_stmt_first _ 1 (i - 1) ci) in Hrun.
  - replace (1 + (i - 1)) with i in Hrun by lia. simpl in Hrun.
    rewrite (item_nat _ _ _ _ Hi) in Hrun. simpl in Hrun.
    apply seq_Ok in Hrun as (h1 & H1 & Hrun).
    rewrite (find_colon_first _ i (j - i) cj) in Hrun.
    + replace (i + (j - i)) with j in Hrun by lia.
      rewrite (item_nat _ _ _ _ Hj) in Hrun. simpl in Hrun.
      apply seq_Ok in Hrun as (h2 & H2 & Hrun). by exists h1, h2.
    + intros k c Hk Hc. rewrite lookup_drop in Hc. apply (Hnc (i + k)); [lia | done].
    + rewrite lookup_drop. by replace (i + (j - i)) with j by lia.
    + done.
  - intros k c Hk Hc. rewrite lookup_drop in Hc. apply (Hskip (1 + k)); [lia | done].
  - rewrite lookup_drop. by replace (1 + (i - 1)) with i by lia.
  - done.
Qed.

(** The visit of a function definition.  Let [i] be the first child after the
    keyword that is not a [simple_stmt] node, the function name, and [j] the
    first child from [i] on that is a colon token.  A name that is a token and
    the colon each end with the maximum of their penalty and UNBREAKABLE;
    every other child that is a token, the keyword [def] among them, keeps
    its penalty. *)
Theorem funcdef_unbreakable (py : python) (parent : option node) (p : path)
    (ch : list node) (h h' : heap) (i j : nat) (ci cj : node) :
  Visit py parent p (Node "funcdef" ch) h = Ok h' ->
  1 <= i <= j ->
  (forall k c, 1 <= k < i -> ch !! k = Some c -> NodeName c = "simple_stmt") ->
  ch !! i = Some ci -> NodeName ci <> "simple_stmt" ->
  (forall k c, i <= k < j -> ch !! k = Some c -> is_colon c = false) ->
  ch !! j = Some cj -> is_colon cj = true ->
  (isLeaf ci = true ->
     annot h' !! (p ++ [i]) = Some (raise (annot h !! (p ++ [i])) UNBREAKABLE)) /\
  annot h' !! (p ++ [j]) = Some (raise (annot h !! (p ++ [j])) UNBREAKABLE) /\
  (forall k name v, ch !! k = Some (Leaf name v) -> k <> i -> k <> j ->
     annot h' !! (p ++ [k]) = annot h !! (p ++ [k])).
Proof.
  intros Hrun Hij Hskip Hi Hni Hnc Hj Hcj.
  destruct (Visit_funcdef_inv _ _ _ _ _ _ _ _ _ _ Hrun Hij Hskip Hi Hni Hnc Hj Hcj)
    as (h1 & h2 & H1 & H2 & Hv).
  assert (Hfin : forall k, annot h' !! (p ++ [k]) = annot h2 !! (p ++ [k])).
  { intros k. eapply children_visit_leaf. exact Hv. }
  assert (E1 := fun k => SetUnbreakable_kid p i ci k h h1 H1).
  assert (E2 := fun k => SetUnbreakable_kid p j cj k h1 h2 H2).
  assert (Hlj : isLeaf cj = true) by (by destruct cj).
  split; [| split].
  - intros Hli. rewrite Hfin, E2, E1, Hli, Hlj.
    rewrite (bool_decide_eq_true_2 (i = i)) by done. cbn [andb].
    case_bool_decide; cbn [andb]; by rewrite ?raise_raise.
  - rewrite Hfin, E2, E1, Hlj.
    rewrite (bool_decide_eq_true_2 (j = j)) by done. cbn [andb].
    destruct (bool_decide (i = j) && isLeaf ci); by rewrite ?raise_raise.
  - intros k name v Hk Hki Hkj. rewrite Hfin, E2, E1.
    rewrite (bool_decide_eq_false_2 (j = k)) by done.
    by rewrite (bool_decide_eq_false_2 (i = k)) by done.
Qed.

Lemma funcdef_unbreakable_witness :
  let h' := returned (Visit Python3 None [] def_f no_annotations) in
  annot h' !! [1] = Some UNBREAKABLE /\
  annot h' !! [3] = Some UNBREAKABLE /\
  annot h' !! [0] = None.
Proof.
  destruct (funcdef_unbreakable Python3 None [] (children def_f) no_annotations
              (returned (Visit Python3 None [] def_f no_annotations)) 1 3
              (Leaf "NAME" "f") (Leaf "COLON" ":"))
    as (H1 & H2 & H3).
  - vm_compute. reflexivity.
  - lia.
  - intros k c Hk. lia.
  - reflexivity.
  - discriminate.
  - intros k c Hk Hc. assert (k = 1 \/ k = 2) as [-> | ->] by lia;
      injection Hc as <-; reflexivity.
  - reflexivity.
  - reflexivity.
  - intros h'. split; [| split].
    + exact (H1 eq_refl).
    + exact H2.
    + apply (H3 0 "NAME" "def"); [reflexivity | lia | lia].
Defined.

(** A function definition without a colon token after its name: the second
    loop of [Visit_funcdef] runs to the end of the children and the index it
    leaves is out of range, so the visit raises [IndexError] (the name has
    been marked by then). *)
Theorem funcdef_without_colon (py : python) (parent : option node) (p : path)
    (ch : list node) (h : heap) (i : nat) (ci : node) :
  1 <= i ->
  (forall k c, 1 <= k < i -> ch !! k = Some c -> NodeName c = "simple_stmt") ->
  ch !! i = Some ci -> NodeName ci <> "simple_stmt" ->
  (forall k c, i <= k -> ch !! k = Some c -> is_colon c = false) ->
  Visit py parent p (Node "funcdef" ch) h = Err IndexError.
Proof.
  intros Hi1 Hskip Hi Hni Hnc.
  rewrite Visit_Node. change (rule_of "funcdef") with R_funcdef.
  cbv zeta iota. unfold Visit_funcdef.
  rewrite (skip_simple_stmt_first _ 1 (i - 1) ci).
  - replace (1 + (i - 1)) with i by lia. simpl.
    rewrite (item_nat _ _ _ _ Hi). simpl. unfold seq at 1. simpl.
    rewrite find_colon_none.
    + rewrite item_beyond; [done |]. rewrite length_drop.
      assert (i < length ch) by (by eapply lookup_lt_Some). lia.
    + intros k c Hc. rewrite lookup_drop in Hc. apply (Hnc (i + k)); [lia | done].
  - intros k c Hk Hc. rewrite lookup_drop in Hc. apply (Hskip (1 + k)); [lia | done].
  - rewrite lookup_drop. by replace (1 + (i - 1)) with i by lia.
  - done.
Qed.

Lemma funcdef_without_colon_witness :
  Visit Python3 None []
    (Node "funcdef" [Leaf "NAME" "def"; Leaf "NAME" "f";
                     Node "parameters" [Leaf "LPAR" "("; Leaf "RPAR" ")"]])
    no_annotations = Err IndexError.
Proof.
  apply (funcdef_without_colon Python3 None []
           [Leaf "NAME" "def"; Leaf "NAME" "f";
            Node "parameters" [Leaf "LPAR" "("; Leaf "RPAR" ")"]]
           no_annotations 1 (Leaf "NAME" "f")).
  - lia.
  - intros k c Hk. lia.
  - reflexivity.
  - discriminate.
  - intros k c Hk Hc.
    destruct k as [| [| [| k]]]; [lia | | |]; simpl in Hc; try discriminate;
      injection Hc as <-; reflexivity.
Defined.

(** ** Rules that mark after they have visited the children *)

Lemma SetStronglyConnected1_kid p k c i h h' :
  _SetStronglyConnected [(p ++ [k], c)] h = Ok h' ->
  annot h' !! (p ++ [i]) =
    if bool_decide (k = i) && isLeaf c
    then Some (raise (annot h !! (p ++ [i])) STRONGLY_CONNECTED)
    else annot h !! (p ++ [i]).
Proof.
  intros H. rewrite (SetStronglyConnected_annot _ _ _ _ H). cbn [existsb].
  by rewrite orb_false_r, leaf_under_kid.
Qed.

(** The visit of a parameter list.  The opening parenthesis, child 0, ends
    with the maximum of its penalty and UNBREAKABLE.  When the list is empty,
    [()], the closing parenthesis ends with the maximum of its penalty and
    STRONGLY_CONNECTED; when it is not, every later child that is a token, the
    closing parenthesis among them, keeps its penalty. *)
Theorem parameters_marks (py : python) (parent : option node) (p : path)
    (ch : list node) (h h' : heap) :
  Visit py parent p (Node "parameters" ch) h = Ok h' ->
  (forall name v, ch !! 0 = Some (Leaf name v) ->
     annot h' !! (p ++ [0]) = Some (raise (annot h !! (p ++ [0])) UNBREAKABLE)) /\
  (forall name v, length ch = 2 -> ch !! 1 = Some (Leaf name v) ->
     annot h' !! (p ++ [1]) =
       Some (raise (annot h !! (p ++ [1])) STRONGLY_CONNECTED)) /\
  (forall k name v, length ch <> 2 -> 1 <= k -> ch !! k = Some (Leaf name v) ->
     annot h' !! (p ++ [k]) = annot h !! (p ++ [k])).
Proof.
  rewrite Visit_Node. change (rule_of "parameters") with R_parameters.
  cbv zeta iota. unfold Visit_parameters. intros Hrun.
  apply seq_Ok in Hrun as (hv & Hv & Hrun).
  apply eval_Ok in Hrun as (o0 & Ho0 & Hrun).
  apply seq_Ok in Hrun as (h1 & H1 & Hrun).
  apply item_inv in Ho0 as (k0 & c0 & Hk0 & -> & Hi0 & _).
  assert (k0 = 0) as -> by (apply Hi0; lia).
  assert (Ev : forall k, annot hv !! (p ++ [k]) = annot h !! (p ++ [k])).
  { intros k. eapply children_visit_leaf. exact Hv. }
  assert (E1 := fun k => SetUnbreakable_kid p 0 c0 k hv h1 H1).
  split; [| split].
  - intros name v Hc. rewrite Hk0 in Hc. injection Hc as ->.
    destruct (decide (length ch = 2)) as [Hlen | Hlen].
    + apply eval_Ok in Hrun as (o1 & Ho1 & Hrun).
      apply item_inv in Ho1 as (k1 & c1 & Hk1 & -> & Hi1 & _).
      assert (k1 = 1) as -> by (apply Hi1; lia).
      rewrite (SetStronglyConnected1_kid _ _ _ _ _ _ Hrun).
      rewrite (bool_decide_eq_false_2 (1 = 0)) by lia. cbn [andb].
      by rewrite E1, Ev.
    + injection Hrun as <-. by rewrite E1, Ev.
  - intros name v Hlen Hc. rewrite decide_True in Hrun by done.
    apply eval_Ok in Hrun as (o1 & Ho1 & Hrun).
    apply item_inv in Ho1 as (k1 & c1 & Hk1 & -> & Hi1 & _).
    assert (k1 = 1) as -> by (apply Hi1; lia).
    rewrite Hc in Hk1. injection Hk1 as <-.
    rewrite (SetStronglyConnected1_kid _ _ _ _ _ _ Hrun).
    rewrite (bool_decide_eq_true_2 (1 = 1)) by done. cbn [andb isLeaf].
    rewrite E1, (bool_decide_eq_false_2 (0 = 1)) by lia. cbn [andb].
    by rewrite Ev.
  - intros k name v Hlen Hk Hc. rewrite decide_False in Hrun by done.
    injection Hrun as <-.
    rewrite E1, (bool_decide_eq_false_2 (0 = k)) by lia. cbn [andb].
    by rewrite Ev.
Qed.

Lemma parameters_marks_witness :
  let ch := [Leaf "LPAR" "("; Leaf "RPAR" ")"] in
  let h' := returned (Visit Python3 None [] (Node "parameters" ch) no_annotations) in
  (forall name v, ch !! 0 = Some (Leaf name v) ->
     annot h' !! ([] ++ [0]) =
       Some (raise (annot no_annotations !! ([] ++ [0])) UNBREAKABLE)) /\
  (forall name v, length ch = 2 -> ch !! 1 = Some (Leaf name v) ->
     annot h' !! ([] ++ [1]) =
       Some (raise (annot no_annotations !! ([] ++ [1])) STRONGLY_CONNECTED)) /\
  (forall k name v, length ch <> 2 -> 1 <= k -> ch !! k = Some (Leaf name v) ->
     annot h' !! ([] ++ [k]) = annot no_annotations !! ([] ++ [k])).
Proof.
  apply (parameters_marks Python3 None [] [Leaf "LPAR" "("; Leaf "RPAR" ")"]
           no_annotations).
  vm_compute. reflexivity.
Defined.

Lemma SetStronglyConnected2_kid p k1 c1 k2 c2 i h h' :
  _SetStronglyConnected [(p ++ [k1], c1); (p ++ [k2], c2)] h = Ok h' ->
  annot h' !! (p ++ [i]) =
    if (bool_decide (k1 = i) && isLeaf c1) || (bool_decide (k2 = i) && isLeaf c2)
    then Some (raise (annot h !! (p ++ [i])) STRONGLY_CONNECTED)
    else annot h !! (p ++ [i]).
Proof.
  intros H. rewrite (SetStronglyConnected_annot _ _ _ _ H). cbn [existsb].
  by rewrite orb_false_r, !leaf_under_kid.
Qed.

Lemma Visit_trailer_spec (py : python) (parent : option node) (p : path)
    (ch : list node) (h h' : heap) :
  Visit py parent p (Node "trailer" ch) h = Ok h' ->
  exists name v, ch !! 0 = Some (Leaf name v) /\
    (v = "." ->
       annot h' !! (p ++ [0]) =
         Some (raise (annot h !! (p ++ [0])) STRONGLY_CONNECTED)) /\
    (v = "." \/ v = "[" -> forall n' v',
       ch !! (length ch - 1) = Some (Leaf n' v') ->
       annot h' !! (p ++ [length ch - 1]) =
         Some (raise (annot h !! (p ++ [length ch - 1])) STRONGLY_CONNECTED)) /\
    (forall k n' v', ch !! k = Some (Leaf n' v') ->
       (k = 0 -> v <> ".") -> (k = length ch - 1 -> v <> "." /\ v <> "[") ->
       annot h' !! (p ++ [k]) = annot h !! (p ++ [k])).
Proof.
  rewrite Visit_Node. change (rule_of "trailer") with R_trailer.
  cbv zeta iota. unfold Visit_trailer. intros Hrun.
  apply seq_Ok in Hrun as (hv & Hv & Hrun).
  apply eval_Ok in Hrun as (o0 & Ho0 & Hrun).
  apply eval_Ok in Hrun as (v & Hval & Hrun).
  apply item_inv in Ho0 as (k0 & c0 & Hk0 & -> & Hi0 & _).
  assert (k0 = 0) as -> by (apply Hi0; lia).
  destruct c0 as [name v0 | name ch0]; [| done]. injection Hval as ->.
  assert (Ev : forall k, annot hv !! (p ++ [k]) = annot h !! (p ++ [k])).
  { intros k. eapply children_visit_leaf. exact Hv. }
  assert (Hlen : 0 < length ch) by (by eapply lookup_lt_Some).
  exists name, v. split; [done |]. cbn [snd] in Hrun.
  destruct (String.eqb v ".") eqn:Edot.
  { apply String.eqb_eq in Edot. subst v.
    apply eval_Ok in Hrun as (ol & Hol & Hrun).
    apply item_inv in Hol as (kl & cl & Hkl & -> & _ & Hil).
    assert (kl = length ch - 1) as -> by lia.
    assert (E := fun i => SetStronglyConnected2_kid _ _ _ _ _ i _ _ Hrun).
    split; [| split].
    - intros _. rewrite E, (bool_decide_eq_true_2 (0 = 0)) by done.
      cbn [andb isLeaf orb]. by rewrite Ev.
    - intros _ n' v' Hl. rewrite Hl in Hkl. injection Hkl as <-.
      rewrite E, (bool_decide_eq_true_2 (length ch - 1 = length ch - 1)) by done.
      cbn [andb isLeaf]. rewrite orb_true_r. by rewrite Ev.
    - intros k n' v' Hk H0 Hl.
      assert (k <> 0) by (intros ->; by apply H0).
      assert (k <> length ch - 1) by (intros Hk'; by destruct (Hl Hk')).
      rewrite E, (bool_decide_eq_false_2 (0 = k)) by done.
      rewrite (bool_decide_eq_false_2 (length ch - 1 = k)) by done.
      cbn [andb orb]. by rewrite Ev. }
  apply String.eqb_neq in Edot.
  destruct (String.eqb v "[") eqn:Ebr.
  { apply String.eqb_eq in Ebr. subst v.
    apply eval_Ok in Hrun as (ol & Hol & Hrun).
    apply item_inv in Hol as (kl & cl & Hkl & -> & _ & Hil).
    assert (kl = length ch - 1) as -> by lia.
    assert (E := fun i => SetStronglyConnected1_kid _ _ _ i _ _ Hrun).
    split; [done |]. split.
    - intros _ n' v' Hl. rewrite Hl in Hkl. injection Hkl as <-.
      rewrite E, (bool_decide_eq_true_2 (length ch - 1 = length ch - 1)) by done.
      cbn [andb isLeaf]. by rewrite Ev.
    - intros k n' v' Hk H0 Hl.
      assert (k <> length ch - 1) by (intros Hk'; by destruct (Hl Hk')).
      rewrite E, (bool_decide_eq_false_2 (length ch - 1 = k)) by done.
      cbn [andb]. by rewrite Ev. }
  apply String.eqb_neq in Ebr. injection Hrun as <-.
  split; [done |]. split; [by intros [? | ?] |].
  intros k n' v' _ _ _. apply Ev.
Qed.

(** The visit of a trailer that returns: the first child is a token.  When it
    is a dot, the dot and a last child that is a token end with the maximum
    of their penalty and STRONGLY_CONNECTED; when it is an opening bracket,
    the last child, if a token, does; every other child that is a token, and
    with them the parentheses of a call, keeps its penalty. *)
Theorem trailer_marks (py : python) (parent : option node) (p : path)
    (ch : list node) (h h' : heap) :
  Visit py parent p (Node "trailer" ch) h = Ok h' ->
  exists name v, ch !! 0 = Some (Leaf name v) /\
    (v = "." ->
       annot h' !! (p ++ [0]) =
         Some (raise (annot h !! (p ++ [0])) STRONGLY_CONNECTED)) /\
    (v = "." \/ v = "[" -> forall n' v',
       ch !! (length ch - 1) = Some (Leaf n' v') ->
       annot h' !! (p ++ [length ch - 1]) =
         Some (raise (annot h !! (p ++ [length ch - 1])) STRONGLY_CONNECTED)) /\
    (forall k n' v', ch !! k = Some (Leaf n' v') ->
       (k = 0 -> v <> ".") -> (k = length ch - 1 -> v <> "." /\ v <> "[") ->
       annot h' !! (p ++ [k]) = annot h !! (p ++ [k])).
Proof.
  intros Hrun. destruct (Visit_trailer_spec _ _ _ _ _ _ Hrun) as (name & v & H).
  by exists name, v.
Qed.

Lemma trailer_marks_witness :
  let ch := [Leaf "DOT" "."; Leaf "NAME" "b"] in
  let h' := returned (Visit Python3 None [] (Node "trailer" ch) no_annotations) in
  exists name v, ch !! 0 = Some (Leaf name v) /\
    (v = "." ->
       annot h' !! ([] ++ [0]) =
         Some (raise (annot no_annotations !! ([] ++ [0])) STRONGLY_CONNECTED)) /\
    (v = "." \/ v = "[" -> forall n' v',
       ch !! (length ch - 1) = Some (Leaf n' v') ->
       annot h' !! ([] ++ [length ch - 1]) =
         Some (raise (annot no_annotations !! ([] ++ [length ch - 1]))
                 STRONGLY_CONNECTED)) /\
    (forall k n' v', ch !! k = Some (Leaf n' v') ->
       (k = 0 -> v <> ".") -> (k = length ch - 1 -> v <> "." /\ v <> "[") ->
       annot h' !! ([] ++ [k]) = annot no_annotations !! ([] ++ [k])).
Proof.
  apply (trailer_marks Python3 None [] [Leaf "DOT" "."; Leaf "NAME" "b"]
           no_annotations).
  vm_compute. reflexivity.
Defined.

(** A trailer whose first child is not a token: once the children have been
    visited, reading [children[0].value] raises [AttributeError]. *)
Theorem trailer_needs_token (py : python) (parent : option node) (p : path)
    (name : string) (ch0 rest : list node) (h hv : heap) :
  DefaultNodeVisit
    (fun i c => Visit py (Some (Node "trailer" (Node name ch0 :: rest))) (p ++ [i]) c)
    (Node name ch0 :: rest) h = Ok hv ->
  Visit py parent p (Node "trailer" (Node name ch0 :: rest)) h = Err AttributeError.
Proof.
  intros Hv.
  rewrite Visit_Node. change (rule_of "trailer") with R_trailer.
  cbv zeta iota. unfold Visit_trailer, seq. by rewrite Hv.
Qed.

Lemma trailer_needs_token_witness :
  Visit Python3 None [] (Node "trailer" [Node "atom" [Leaf "NAME" "x"]])
    no_annotations = Err AttributeError.
Proof.
  apply (trailer_needs_token Python3 None [] "atom" [Leaf "NAME" "x"] []
           no_annotations no_annotations).
  reflexivity.
Defined.

(** ** Dotted names *)

Lemma unbreakable_range_annot p ch count : forall i h h',
  unbreakable_range p ch i count h = Ok h' ->
  forall q, annot h' !! q =
    if any_kid leaf_under p i (take count (drop i ch)) q
    then Some (raise (annot h !! q) UNBREAKABLE)
    else annot h !! q.
Proof.
  induction count as [| count IH]; intros i h h' Hrun q.
  - injection Hrun as <-. by rewrite take_0, any_kid_nil.
  - simpl in Hrun. apply eval_Ok in Hrun as (o & Ho & Hrun).
    apply seq_Ok in Hrun as (h1 & H1 & Hrun).
    apply item_inv in Ho as (k0 & c0 & Hk0 & -> & Hi & _).
    assert (k0 = i) as -> by (rewrite Hi; lia).
    rewrite (drop_lookup_S _ _ _ Hk0). rewrite firstn_cons.
    rewrite any_kid_cons by apply leaf_under_local.
    rewrite (IH _ _ _ Hrun q), (SetUnbreakable_annot _ _ _ _ H1).
    destruct (leaf_under (p ++ [i], c0) q); cbn [orb]; [| done].
    destruct (any_kid _ _ _ _ _); by rewrite ?raise_raise.
Qed.

Lemma unbreakable_range_Ok p ch count : forall i h,
  i + count <= length ch -> exists h', unbreakable_range p ch i count h = Ok h'.
Proof.
  induction count as [| count IH]; intros i h Hlen; [by eexists |].
  simpl. destruct (lookup_lt_is_Some_2 ch i) as [c Hc]; [lia |].
  rewrite (item_nat _ _ _ _ Hc). simpl. unfold seq. simpl.
  apply IH. lia.
Qed.

Lemma unbreakable_range_beyond p ch count : forall i h,
  length ch < i + S count -> unbreakable_range p ch i (S count) h = Err IndexError.
Proof.
  induction count as [| count IH]; intros i h Hlen.
  - simpl. rewrite item_beyond; [done | lia].
  - cbn [unbreakable_range]. destruct (ch !! i) as [c |] eqn:Hc.
    + rewrite (item_nat _ _ _ _ Hc). cbn [eval]. unfold seq at 1. cbn [_SetUnbreakable step mbind result_bind].
      apply IH. lia.
    + rewrite item_beyond; [done |]. by apply lookup_ge_None.
Qed.

Lemma leaves_visit py parent p l : forall from h,
  Forall (fun c => isLeaf c = true) l ->
  for_from (fun i c => Visit py parent (p ++ [i]) c) from l h = Ok h.
Proof.
  induction l as [| c l IH]; intros from h Hl; [done |].
  apply Forall_cons in Hl as [Hc Hl]. destruct c; [| done]. simpl.
  by apply IH.
Qed.

Lemma any_kid_self p i l k :
  any_kid leaf_under p i l (p ++ [k]) =
    bool_decide (i <= k) &&
    match l !! (k - i) with Some c => isLeaf c | None => false end.
Proof.
  unfold any_kid. rewrite strip_app. case_decide.
  - rewrite bool_decide_eq_true_2 by done. cbn [andb].
    destruct (l !! (k - i)) as [c |]; [| done].
    by rewrite leaf_under_kid, bool_decide_eq_true_2.
  - by rewrite bool_decide_eq_false_2.
Qed.

(** The visit of a dotted name whose children are tokens, as the grammar has
    them, returns: every child but the first ends with the maximum of its
    penalty and UNBREAKABLE, and the first child keeps its penalty. *)
Theorem dotted_name_unbreakable (py : python) (parent : option node) (p : path)
    (ch : list node) (h : heap) :
  Forall (fun c => isLeaf c = true) ch ->
  exists h', Visit py parent p (Node "dotted_name" ch) h = Ok h' /\
    (forall k, 1 <= k < length ch ->
       annot h' !! (p ++ [k]) = Some (raise (annot h !! (p ++ [k])) UNBREAKABLE)) /\
    annot h' !! (p ++ [0]) = annot h !! (p ++ [0]).
Proof.
  intros Hl. rewrite Visit_Node. change (rule_of "dotted_name") with R_dotted_name.
  cbv zeta iota. unfold Visit_dotted_name, _SetUnbreakableOnChildren, seq.
  rewrite leaves_visit by done. simpl.
  assert (Hrun : exists h', unbreakable_range p ch 1 (length ch - 1) h = Ok h').
  { destruct ch as [| c0 ch0]; [by eexists |].
    apply unbreakable_range_Ok. simpl. lia. }
  destruct Hrun as [h' Hrun]. exists h'. split; [done |].
  assert (E := unbreakable_range_annot _ _ _ _ _ _ Hrun). split.
  - intros k Hk. rewrite E, any_kid_self.
    rewrite bool_decide_eq_true_2 by lia. cbn [andb].
    rewrite lookup_take_lt by lia. rewrite lookup_drop.
    replace (1 + (k - 1)) with k by lia.
    destruct (lookup_lt_is_Some_2 ch k) as [c Hc]; [lia |]. rewrite Hc.
    rewrite Forall_lookup in Hl. by rewrite (Hl _ _ Hc).
  - rewrite E, any_kid_self. by rewrite bool_decide_eq_false_2 by lia.
Qed.

Lemma dotted_name_unbreakable_witness :
  exists h', Visit Python3 None [] a_b_c no_annotations = Ok h' /\
    (forall k, 1 <= k < 5 ->
       annot h' !! ([] ++ [k]) =
         Some (raise (annot no_annotations !! ([] ++ [k])) UNBREAKABLE)) /\
    annot h' !! ([] ++ [0]) = annot no_annotations !! ([] ++ [0]).
Proof.
  apply (dotted_name_unbreakable Python3 None [] (children a_b_c) no_annotations).
  repeat constructor.
Defined.

(** ** Atoms with trailers: the first trailer *)

(** The visit of a power node whose second child is a trailer: every token of
    the first child of that trailer, its opening parenthesis, bracket or dot,
    ends with at least UNBREAKABLE, so that the line does not break between
    the atom and its trailer. *)
Theorem power_first_trailer (py : python) (parent : option node) (p : path)
    (ch : list node) (t : node) (h h' : heap) :
  Visit py parent p (Node "power" ch) h = Ok h' ->
  ch !! 1 = Some t -> NodeName t = "trailer" ->
  exists first, child (p ++ [1], t) 0 = Ok first /\
    forall q, leaf_under first q = true -> at_least UNBREAKABLE (annot h' !! q).
Proof.
  intros Hrun Ht Hn.
  apply Visit_power_inv in Hrun as (hv & s & h1 & _ & _ & H1 & Hrun).
  unfold power_chain in H1.
  assert (Hlen : 1 < length ch) by (by eapply lookup_lt_Some).
  rewrite decide_True in H1 by done.
  change 1%Z with (Z.of_nat 1) in H1. rewrite (item_nat _ _ _ _ Ht) in H1.
  simpl in H1. apply String.eqb_eq in Hn. rewrite Hn in H1.
  apply eval_Ok in H1 as (first & Hfirst & H1).
  apply seq_Ok in H1 as (h0 & H0 & H1).
  exists first. split; [done |]. intros q Hq.
  eapply at_least_ole.
  2:{ apply (post_monotone (fun _ => False) _ _ _ _ _
               (sound_call_parens _ p _ 1) Hrun). }
  eapply at_least_ole.
  2:{ apply (post_monotone (fun _ => False) _ _ _ _ _
               (sound_trailer_chain _ p s _ _ _ (kid_desc p 1 t)) H1). }
  rewrite (SetUnbreakable_annot _ _ _ _ H0), Hq. apply at_least_raise.
Qed.

Lemma power_first_trailer_witness :
  let h' := returned (Visit Python3 None []
                        (Node "power" [Leaf "NAME" "a"; index_i]) no_annotations) in
  exists first, child ([] ++ [1], index_i) 0 = Ok first /\
    forall q, leaf_under first q = true -> at_least UNBREAKABLE (annot h' !! q).
Proof.
  apply (power_first_trailer Python3 None [] [Leaf "NAME" "a"; index_i] index_i
           no_annotations); [vm_compute; reflexivity | reflexivity | reflexivity].
Defined.

(** A power node whose second child is not a trailer, as in [a ** b], or that
    has a single child: the rule of the power node marks nothing, and the
    visit ends with the store, write history included, as the visit of the
    children left it. *)
Theorem power_without_trailer (py : python) (parent : option node) (p : path)
    (ch : list node) (h h' : heap) :
  Visit py parent p (Node "power" ch) h = Ok h' ->
  (forall c, ch !! 1 = Some c -> NodeName c <> "trailer") ->
  DefaultNodeVisit (fun i c => Visit py (Some (Node "power" ch)) (p ++ [i]) c) ch h
    = Ok h'.
Proof.
  intros Hrun Hn.
  apply Visit_power_inv in Hrun as (hv & s & h1 & Hv & _ & H1 & Hrun).
  rewrite Hv. f_equal.
  assert (h1 = hv) as ->.
  { unfold power_chain in H1. destruct (decide (1 < length ch)) as [Hlen | Hlen];
      [| by injection H1].
    destruct (lookup_lt_is_Some_2 ch 1 Hlen) as [c Hc].
    change 1%Z with (Z.of_nat 1) in H1. rewrite (item_nat _ _ _ _ Hc) in H1.
    simpl in H1. assert (Hn1 := Hn c Hc). apply String.eqb_neq in Hn1.
    rewrite Hn1 in H1. by injection H1. }
  destruct (ch !! 1) as [c |] eqn:Hc.
  - rewrite (drop_lookup_S _ _ _ Hc) in Hrun. simpl in Hrun.
    specialize (Hn c eq_refl). apply String.eqb_neq in Hn. rewrite Hn in Hrun.
    by injection Hrun.
  - rewrite drop_ge in Hrun by (by apply lookup_ge_None). by injection Hrun.
Qed.

Lemma power_without_trailer_witness :
  DefaultNodeVisit (fun i c => Visit Python3 (Some a_pow_b) ([] ++ [i]) c)
    (children a_pow_b) no_annotations
  = Ok (returned (Visit Python3 None [] a_pow_b no_annotations)).
Proof.
  apply (power_without_trailer Python3 None [] (children a_pow_b) no_annotations).
  - vm_compute. reflexivity.
  - intros c [= <-]. discriminate.
Defined.

(** ** The two interpreters *)

Lemma agree_refl f : agree f f.
Proof. intros h. by right. Qed.

Lemma agree_seq f f' g g' : agree f f' -> agree g g' -> agree (f >> g) (f' >> g').
Proof.
  intros Hf Hg h. unfold seq. destruct (Hf h) as [E | E].
  - left. by rewrite E.
  - rewrite <- E. destruct (f h) as [h1 | e]; simpl; [apply Hg | by right].
Qed.

Lemma agree_eval {A} (r : result A) (k k' : A -> proc) :
  (forall a, r = Ok a -> agree (k a) (k' a)) -> agree (eval r k) (eval r k').
Proof. destruct r as [a | e]; simpl; [auto | intros _ h; by right]. Qed.

Lemma agree_for_from {A} (body body' : nat -> A -> proc) l : forall from,
  (forall k c, l !! k = Some c -> agree (body (from + k) c) (body' (from + k) c)) ->
  agree (for_from body from l) (for_from body' from l).
Proof.
  induction l as [| c l IH]; intros from Hbody; [apply agree_refl |].
  apply (agree_seq (body from c) (body' from c)
           (for_from body (S from) l) (for_from body' (S from) l)).
  - specialize (Hbody 0 c eq_refl). by rewrite Nat.add_0_r in Hbody.
  - apply IH. intros k c' Hk. replace (S from + k) with (from + S k) by lia.
    by apply Hbody.
Qed.

Lemma agree_RecArithmeticExpression n : forall p first,
  agree (RecArithmeticExpression Python3 p n first)
        (RecArithmeticExpression Python2 p n first).
Proof.
  induction n as [name val | name ch IH] using node_ind; intros p first.
  - intros h. simpl. destruct (decide (p = first)); [by right |].
    destruct (GetNodeAnnotation p h); simpl; [by right | by left].
  - simpl. destruct (decide (p = first)); [apply agree_refl |].
    apply agree_for_from. intros k c Hk. rewrite Forall_lookup in IH.
    apply (IH _ _ Hk).
Qed.

Lemma agree_SetArithmeticExpression o :
  agree (_SetArithmeticExpression Python3 o) (_SetArithmeticExpression Python2 o).
Proof.
  intros h. unfold _SetArithmeticExpression.
  destruct (FirstChildNode o.1 o.2) as [first | e]; simpl; [| by right].
  apply agree_RecArithmeticExpression.
Qed.

Ltac agree_phase :=
  repeat first
    [ apply agree_refl
    | apply agree_seq
    | apply agree_eval; intros ? ?
    | assumption
    | match goal with
      | |- agree (if ?b then _ else _) (if ?b then _ else _) => destruct b
      end ].

Section Agree.
Variables (p : path) (ch : list node).
Variables visit visit' : nat -> node -> proc.
Hypothesis Hvisit : forall k c, ch !! k = Some c -> agree (visit k c) (visit' k c).

Lemma agree_DefaultNodeVisit :
  agree (DefaultNodeVisit visit ch) (DefaultNodeVisit visit' ch).
Proof. apply agree_for_from. intros k c Hk. by apply Hvisit. Qed.

Lemma agree_dictsetmaker_loop rest : forall i prev,
  (forall k c, rest !! k = Some c -> ch !! (i + k) = Some c) ->
  agree (dictsetmaker_loop visit p i prev rest)
        (dictsetmaker_loop visit' p i prev rest).
Proof.
  induction rest as [| c rest IH]; intros i prev Hsub; [apply agree_refl |].
  simpl. apply agree_seq; [| apply agree_seq; [apply agree_refl |]].
  - apply Hvisit. specialize (Hsub 0 c eq_refl). by rewrite Nat.add_0_r in Hsub.
  - apply IH. intros k c' Hk. replace (S i + k) with (i + S k) by lia.
    by apply Hsub.
Qed.

Lemma agree_rule parent name :
  let n := Node name ch in
  agree
    match rule_of name with
    | R_classdef => Visit_classdef visit p ch
    | R_funcdef => Visit_funcdef visit p ch
    | R_lambdef => Visit_lambdef visit p ch
    | R_parameters => Visit_parameters visit p ch
    | R_dotted_name => Visit_dotted_name visit p ch
    | R_dictsetmaker => Visit_dictsetmaker visit p ch
    | R_comparison | R_arith_expr | R_term => Visit_arith Python3 visit n p ch
    | R_trailer => Visit_trailer visit p ch
    | R_power => Visit_power visit parent p ch
    | R_subscript => Visit_subscript visit p ch
    | R_comp_for => Visit_comp_for visit p ch
    | R_comp_if => Visit_comp_if visit p ch
    | R_default => DefaultNodeVisit visit ch
    end
    match rule_of name with
    | R_classdef => Visit_classdef visit' p ch
    | R_funcdef => Visit_funcdef visit' p ch
    | R_lambdef => Visit_lambdef visit' p ch
    | R_parameters => Visit_parameters visit' p ch
    | R_dotted_name => Visit_dotted_name visit' p ch
    | R_dictsetmaker => Visit_dictsetmaker visit' p ch
    | R_comparison | R_arith_expr | R_term => Visit_arith Python2 visit' n p ch
    | R_trailer => Visit_trailer visit' p ch
    | R_power => Visit_power visit' parent p ch
    | R_subscript => Visit_subscript visit' p ch
    | R_comp_for => Visit_comp_for visit' p ch
    | R_comp_if => Visit_comp_if visit' p ch
    | R_default => DefaultNodeVisit visit' ch
    end.
Proof.
  intros n. assert (Hd := agree_DefaultNodeVisit).
  assert (Hf : agree (for_from visit 0 ch) (for_from visit' 0 ch)) by exact Hd.
  destruct (rule_of name);
    unfold Visit_classdef, Visit_funcdef, Visit_lambdef, Visit_parameters,
      Visit_dotted_name, _SetUnbreakableOnChildren, Visit_dictsetmaker, Visit_arith,
      Visit_trailer, Visit_power, Visit_subscript, Visit_comp_for, Visit_comp_if;
    cbv zeta; agree_phase;
    try apply agree_SetArithmeticExpression.
  by apply agree_dictsetmaker_loop.
Qed.
End Agree.

Lemma agree_Visit n : forall parent p,
  agree (Visit Python3 parent p n) (Visit Python2 parent p n).
Proof.
  induction n as [name val | name ch IH] using node_ind; intros parent p.
  - apply agree_refl.
  - rewrite !Visit_Node. cbv zeta. apply agree_rule.
    intros k c Hk. rewrite Forall_lookup in IH. apply (IH _ _ Hk).
Qed.

(** The pass on Python 3 raises [TypeError], or it does exactly what the pass
    on Python 2 does on the same tree and store: it returns the same store,
    with the same writes, or raises the same exception.  In particular a pass
    that returns on Python 3 returns the same on Python 2. *)
Theorem pass_python3_as_python2 (tree : node) (h : heap) :
  (ComputeSplitPenalties Python3 tree h = Err TypeError \/
   ComputeSplitPenalties Python3 tree h = ComputeSplitPenalties Python2 tree h) /\
  (forall h', ComputeSplitPenalties Python3 tree h = Ok h' ->
     ComputeSplitPenalties Python2 tree h = Ok h').
Proof.
  assert (H := agree_Visit tree None [] h). split; [exact H |].
  intros h' Hrun. unfold ComputeSplitPenalties in *.
  destruct H as [H | H]; congruence.
Qed.

(** *** No [TypeError] on Python 2 *)

Lemma never_skip e : never e skip.
Proof. by intros h. Qed.

Lemma never_step e f : never e (step f).
Proof. by intros h. Qed.

Lemma never_seq e f g : never e f -> never e g -> never e (f >> g).
Proof.
  intros Hf Hg h. unfold seq. destruct (f h) as [h1 | e1] eqn:E; simpl.
  - apply Hg.
  - intros [= ->]. by apply (Hf h).
Qed.

Lemma never_eval {A} e (r : result A) (k : A -> proc) :
  r <> Err e -> (forall a, r = Ok a -> never e (k a)) -> never e (eval r k).
Proof.
  destruct r as [a | e1]; simpl; [auto |]. intros Hr _ h [= ->]. done.
Qed.

Lemma never_for_from {A} e (body : nat -> A -> proc) l : forall from,
  (forall k c, l !! k = Some c -> never e (body (from + k) c)) ->
  never e (for_from body from l).
Proof.
  induction l as [| c l IH]; intros from Hbody; [apply never_skip |].
  apply (never_seq e (body from c) (for_from body (S from) l)).
  - specialize (Hbody 0 c eq_refl). by rewrite Nat.add_0_r in Hbody.
  - apply IH. intros k c' Hk. replace (S from + k) with (from + S k) by lia.
    by apply Hbody.
Qed.

Lemma item_no_TypeError p ch i : item p ch i <> Err TypeError.
Proof.
  unfold item. cbv zeta. destruct (_ <? 0)%Z; [done |]. by destruct (ch !! _).
Qed.

Lemma child_no_TypeError o i : child o i <> Err TypeError.
Proof. apply item_no_TypeError. Qed.

Lemma value_no_TypeError n : value n <> Err TypeError.
Proof. by destruct n. Qed.

Lemma skip_simple_stmt_no_TypeError rest : forall a,
  skip_simple_stmt a rest <> Err TypeError.
Proof.
  induction rest as [| c rest IH]; intros a; simpl; [done |].
  destruct (String.eqb _ _); [apply IH | done].
Qed.

Lemma surrounded_by_parens_no_TypeError parent :
  surrounded_by_parens parent <> Err TypeError.
Proof.
  unfold surrounded_by_parens. destruct parent as [par |]; [| done].
  destruct (negb _); [done |].
  destruct (item [] (children par) 0) as [c0 |] eqn:E0; simpl.
  2:{ intros [= ->]. by apply item_no_TypeError in E0. }
  destruct (negb _); [done |].
  destruct (value c0.2) as [v0 |] eqn:Ev0; simpl.
  2:{ intros [= ->]. by apply value_no_TypeError in Ev0. }
  destruct (negb _); [done |].
  destruct (item [] (children par) (-1)) as [cl |] eqn:El; simpl.
  2:{ intros [= ->]. by apply item_no_TypeError in El. }
  destruct (negb _); [done |].
  destruct (value cl.2) as [vl |] eqn:Evl; simpl; [done |].
  intros [= ->]. by apply value_no_TypeError in Evl.
Qed.

Lemma never_SetArithmeticExpression_python2 o :
  never TypeError (_SetArithmeticExpression Python2 o).
Proof.
  intros h Hrun. unfold _SetArithmeticExpression in Hrun.
  destruct (FirstChildNode o.1 o.2) as [first | e] eqn:Hf; simpl in Hrun.
  - apply RecArithmeticExpression_Err in Hrun as [? _]; [done |].
    by apply FirstChildNode_not_interior.
  - injection Hrun as ->. by apply FirstChildNode_Err in Hf.
Qed.

Ltac never_phase :=
  repeat first
    [ apply never_skip
    | apply never_step
    | assumption
    | apply never_seq
    | apply never_eval;
        [first [apply item_no_TypeError | apply child_no_TypeError
               | apply value_no_TypeError | apply skip_simple_stmt_no_TypeError
               | apply surrounded_by_parens_no_TypeError] | intros ? ?]
    | match goal with
      | |- never _ (if ?b then _ else _) => destruct b
      end ].

Section Never.
Variables (p : path) (ch : list node).
Variable visit : nat -> node -> proc.
Hypothesis Hvisit : forall k c, ch !! k = Some c -> never TypeError (visit k c).

Lemma never_DefaultNodeVisit : never TypeError (DefaultNodeVisit visit ch).
Proof. apply never_for_from. intros k c Hk. by apply Hvisit. Qed.

Lemma never_unbreakable_range count : forall i,
  never TypeError (unbreakable_range p ch i count).
Proof. induction count as [| count IH]; intros i; simpl; never_phase. apply IH. Qed.

Lemma never_dictsetmaker_loop rest : forall i prev,
  (forall k c, rest !! k = Some c -> ch !! (i + k) = Some c) ->
  never TypeError (dictsetmaker_loop visit p i prev rest).
Proof.
  induction rest as [| c rest IH]; intros i prev Hsub; [apply never_skip |].
  simpl. apply never_seq; [| apply never_seq].
  - apply Hvisit. specialize (Hsub 0 c eq_refl). by rewrite Nat.add_0_r in Hsub.
  - destruct (String.eqb _ _); [| apply never_skip].
    apply never_eval; [by destruct prev | intros; apply never_step].
  - apply IH. intros k c' Hk. replace (S i + k) with (i + S k) by lia.
    by apply Hsub.
Qed.

Lemma never_trailer_chain surrounded rest : forall prev i,
  never TypeError (trailer_chain surrounded p prev i rest).
Proof.
  induction rest as [| c rest IH]; intros prev i; simpl; never_phase; apply IH.
Qed.

Lemma never_call_parens rest : forall i,
  never TypeError (call_parens p i rest).
Proof.
  induction rest as [| c rest IH]; intros i; simpl; never_phase; apply IH.
Qed.

Lemma never_rule parent name :
  never TypeError
    match rule_of name with
    | R_classdef => Visit_classdef visit p ch
    | R_funcdef => Visit_funcdef visit p ch
    | R_lambdef => Visit_lambdef visit p ch
    | R_parameters => Visit_parameters visit p ch
    | R_dotted_name => Visit_dotted_name visit p ch
    | R_dictsetmaker => Visit_dictsetmaker visit p ch
    | R_comparison | R_arith_expr | R_term =>
        Visit_arith Python2 visit (Node name ch) p ch
    | R_trailer => Visit_trailer visit p ch
    | R_power => Visit_power visit parent p ch
    | R_subscript => Visit_subscript visit p ch
    | R_comp_for => Visit_comp_for visit p ch
    | R_comp_if => Visit_comp_if visit p ch
    | R_default => DefaultNodeVisit visit ch
    end.
Proof.
  assert (Hd := never_DefaultNodeVisit).
  assert (Hf : never TypeError (for_from visit 0 ch)) by exact Hd.
  assert (Hu := never_unbreakable_range).
  assert (Ht := never_trailer_chain).
  assert (Hc := never_call_parens).
  destruct (rule_of name);
    unfold Visit_classdef, Visit_funcdef, Visit_lambdef, Visit_parameters,
      Visit_dotted_name, _SetUnbreakableOnChildren, Visit_dictsetmaker, Visit_arith,
      Visit_trailer, Visit_power, Visit_subscript, Visit_comp_for, Visit_comp_if,
      _SetUnbreakable, _SetStronglyConnected;
    cbv zeta; never_phase;
    try apply never_SetArithmeticExpression_python2; try apply Hu; try apply Ht;
    try apply Hc.
  by apply never_dictsetmaker_loop.
Qed.
End Never.

Lemma never_Visit n : forall parent p, never TypeError (Visit Python2 parent p n).
Proof.
  induction n as [name val | name ch IH] using node_ind; intros parent p.
  - apply never_skip.
  - rewrite Visit_Node. cbv zeta. apply never_rule.
    intros k c Hk. rewrite Forall_lookup in IH. apply (IH _ _ Hk).
Qed.

(** On Python 2 the pass never raises [TypeError], on any tree and from any
    store, and neither does the visit of any node: the comparison of an absent
    penalty with ARITHMETIC_EXPRESSION, which raises on Python 3, evaluates
    there. *)
Theorem pass_python2_no_TypeError (tree : node) (h : heap) :
  ComputeSplitPenalties Python2 tree h <> Err TypeError /\
  (forall parent p, Visit Python2 parent p tree h <> Err TypeError).
Proof.
  split; [apply (never_Visit tree None []) |].
  intros parent p. apply never_Visit.
Qed.

(** ** Nodes that lack the children a rule reads *)

(** A node without children.  The rules that index a child, those of class
    and function definitions, lambdas, parameter lists, trailers and
    comprehension filters, raise [IndexError], and so do the arithmetic rules,
    which look for a first leaf; the rules that only iterate over the children
    return and write nothing, the rule of a power node among them when the
    test of the parent returns. *)
Theorem childless_node (py : python) (parent : option node) (p : path)
    (name : string) (h : heap) :
  (In (rule_of name)
      [R_classdef; R_funcdef; R_lambdef; R_parameters; R_trailer; R_comp_if;
       R_comparison; R_arith_expr; R_term] ->
   Visit py parent p (Node name []) h = Err IndexError) /\
  (In (rule_of name)
      [R_dotted_name; R_dictsetmaker; R_subscript; R_comp_for; R_default] ->
   Visit py parent p (Node name []) h = Ok h) /\
  (rule_of name = R_power ->
   forall s, surrounded_by_parens parent = Ok s ->
   Visit py parent p (Node name []) h = Ok h).
Proof.
  rewrite Visit_Node. cbv zeta. split; [| split].
  - intros Hin. destruct (rule_of name); simpl in Hin;
      try reflexivity; exfalso; intuition congruence.
  - intros Hin. destruct (rule_of name); simpl in Hin;
      try reflexivity; exfalso; intuition congruence.
  - intros -> s Hs. unfold Visit_power. simpl. unfold seq. simpl.
    by rewrite Hs.
Qed.

Lemma dictsetmaker_loop_tokens py parent p rest : forall i o h,
  Forall (fun c => isLeaf c = true) rest ->
  exists h',
    dictsetmaker_loop (fun k c => Visit py parent (p ++ [k]) c) p i (Some o) rest h
      = Ok h'.
Proof.
  induction rest as [| c rest IH]; intros i o h Hl; [by eexists |].
  apply Forall_cons in Hl as [Hc Hl]. destruct c as [name v |]; [| done].
  simpl. unfold seq at 1. simpl. unfold seq at 1.
  destruct (String.eqb name "COLON"); simpl; by apply IH.
Qed.

(** A dict or set maker that begins with a colon token: the loop of
    [Visit_dictsetmaker] passes [prev_child], still [None], to
    [_SetStronglyConnected], and reading its children raises
    [AttributeError], whatever follows the colon.  That is the only way the
    loop fails on a maker whose children are tokens: when the first of them
    is not a colon, the visit returns. *)
Theorem dictsetmaker_leading_colon (py : python) (parent : option node)
    (p : path) (h : heap) :
  (forall v rest,
     Visit py parent p (Node "dictsetmaker" (Leaf "COLON" v :: rest)) h
       = Err AttributeError) /\
  (forall ch, Forall (fun c => isLeaf c = true) ch ->
     (forall c, ch !! 0 = Some c -> NodeName c <> "COLON") ->
     exists h', Visit py parent p (Node "dictsetmaker" ch) h = Ok h').
Proof.
  split; [reflexivity |]. intros ch Hl Hfirst.
  rewrite Visit_Node. change (rule_of "dictsetmaker") with R_dictsetmaker.
  cbv zeta iota. unfold Visit_dictsetmaker.
  destruct ch as [| c ch]; [by eexists |].
  apply Forall_cons in Hl as [Hc Hl]. destruct c as [name v |]; [| done].
  specialize (Hfirst _ eq_refl). apply String.eqb_neq in Hfirst.
  simpl in Hfirst. simpl. unfold seq at 1. simpl. unfold seq at 1.
  rewrite Hfirst. simpl. by apply dictsetmaker_loop_tokens.
Qed.

(** The bounds of [_SetUnbreakableOnChildren] once the children have been
    visited: with [num_children] at most 1 the range is empty and nothing is
    marked; with [num_children] within the number of children the marks are
    made and the call returns; with [num_children] beyond it the index runs
    out of range and the call raises [IndexError]. *)
Theorem SetUnbreakableOnChildren_bounds (visit : nat -> node -> proc) (p : path)
    (ch : list node) (num_children : nat) (h hv : heap) :
  for_from visit 0 ch h = Ok hv ->
  (num_children <= 1 ->
     _SetUnbreakableOnChildren visit p ch num_children h = Ok hv) /\
  (1 < num_children <= length ch ->
     exists h', _SetUnbreakableOnChildren visit p ch num_children h = Ok h') /\
  (1 < num_children -> length ch < num_children ->
     _SetUnbreakableOnChildren visit p ch num_children h = Err IndexError).
Proof.
  intros Hv. unfold _SetUnbreakableOnChildren, seq. rewrite Hv. simpl.
  split; [| split].
  - intros Hn. by replace (num_children - 1) with 0 by lia.
  - intros Hn. apply unbreakable_range_Ok. lia.
  - intros Hn Hlen. destruct num_children as [| [| n]]; [lia | lia |].
    replace (S (S n) - 1) with (S n) by lia.
    apply unbreakable_range_beyond. lia.
Qed.

Lemma SetUnbreakableOnChildren_bounds_witness :
  let visit := fun i c => Visit Python3 None ([] ++ [i]) c in
  let ch := [Leaf "NAME" "lambda"; Leaf "NAME" "x"] in
  (3 <= 1 -> _SetUnbreakableOnChildren visit [] ch 3 no_annotations
             = Ok no_annotations) /\
  (1 < 3 <= length ch ->
     exists h', _SetUnbreakableOnChildren visit [] ch 3 no_annotations = Ok h') /\
  (1 < 3 -> length ch < 3 ->
     _SetUnbreakableOnChildren visit [] ch 3 no_annotations = Err IndexError).
Proof.
  apply (SetUnbreakableOnChildren_bounds
           (fun i c => Visit Python3 None ([] ++ [i]) c) []
           [Leaf "NAME" "lambda"; Leaf "NAME" "x"] 3 no_annotations no_annotations).
  reflexivity.
Defined.

(** ** What the pass writes, and where *)

Lemma ws_skip W : writes_sat W skip.
Proof. intros h h' [= <-]. by exists []. Qed.

Lemma ws_err W e : writes_sat W (fun _ => Err e).
Proof. by intros h h'. Qed.

Lemma ws_seq W f g : writes_sat W f -> writes_sat W g -> writes_sat W (f >> g).
Proof.
  intros Hf Hg h h' (h1 & H1 & H2)%seq_Ok.
  destruct (Hf _ _ H1) as (l1 & E1 & F1). destruct (Hg _ _ H2) as (l2 & E2 & F2).
  exists (l2 ++ l1). split; [by rewrite E2, E1, app_assoc | by apply Forall_app].
Qed.

Lemma ws_eval {A} W (r : result A) (k : A -> proc) :
  (forall a, r = Ok a -> writes_sat W (k a)) -> writes_sat W (eval r k).
Proof. destruct r as [a | e]; simpl; [auto | intros _; apply ws_err]. Qed.

Lemma ws_weaken (W W' : write -> Prop) f :
  (forall w, W w -> W' w) -> writes_sat W f -> writes_sat W' f.
Proof.
  intros HW Hf h h' Hrun. destruct (Hf _ _ Hrun) as (l & E & F).
  exists l. split; [done |]. eapply Forall_impl; eauto.
Qed.

Lemma ws_for_from {A} W (body : nat -> A -> proc) l : forall from,
  (forall k c, l !! k = Some c -> writes_sat W (body (from + k) c)) ->
  writes_sat W (for_from body from l).
Proof.
  induction l as [| c l IH]; intros from Hbody; [apply ws_skip |].
  apply (ws_seq W (body from c) (for_from body (S from) l)).
  - specialize (Hbody 0 c eq_refl). by rewrite Nat.add_0_r in Hbody.
  - apply IH. intros k c' Hk. replace (S from + k) with (from + S k) by lia.
    by apply Hbody.
Qed.

Lemma ws_Set W q v :
  (forall old, W (MkWrite q old v)) -> writes_sat W (step (SetNodeAnnotation q v)).
Proof.
  intros HW h h' [= <-]. exists [MkWrite q (annot h !! q) v].
  split; [done |]. by constructor.
Qed.

Lemma within_refl o : within o o.
Proof. by intros q. Qed.

Lemma within_trans o1 o2 o3 : within o1 o2 -> within o2 o3 -> within o1 o3.
Proof. intros H1 H2 q Hq. by apply H1, H2. Qed.

Lemma within_kid p name ch k c :
  ch !! k = Some c -> within (p, Node name ch) (p ++ [k], c).
Proof. intros Hk q. by apply leaf_under_child. Qed.

Lemma within_item p name ch i o :
  item p ch i = Ok o -> within (p, Node name ch) o.
Proof. intros (k & c & Hk & -> & _)%item_inv. by apply within_kid. Qed.

Lemma within_child o i o' : child o i = Ok o' -> within o o'.
Proof.
  destruct o as [p [name v | name ch]]; unfold child; simpl.
  - by intros (k & c & Hk & _)%item_inv.
  - apply within_item.
Qed.

Lemma within_kids p name ch n :
  Forall (within (p, Node name ch)) (drop n (kids p ch)).
Proof.
  apply Forall_drop, Forall_forall. intros o Ho. unfold kids in Ho.
  apply elem_of_lookup_imap in Ho as (i & c & -> & Hc). by apply within_kid.
Qed.

Lemma token_write_within o o' w : within o o' -> token_write o' w -> token_write o w.
Proof. intros Hin [Hw | [Hq Hv]]; [by left | right]. split; [by apply Hin | done]. Qed.

Lemma ws_RecAnnotate tree : forall p v,
  penalty_constant v ->
  writes_sat (token_write (p, tree)) (step (_RecAnnotate p tree v)).
Proof.
  induction tree as [name val | name ch IH] using node_ind; intros p v Hv h h' Hrun.
  - unfold step in Hrun. simpl in Hrun. injection Hrun as <-.
    assert (HW : token_write (p, Leaf name val) (MkWrite p (annot h !! p) (Some v))).
    { right. simpl. rewrite leaf_under_Leaf. split; [by apply bool_decide_eq_true_2 |].
      eauto. }
    unfold GetNodeAnnotation. destruct (annot h !! p) as [cur |] eqn:E.
    + destruct (cur <? v)%Z.
      * exists [MkWrite p (Some cur) (Some v)]. split; [simpl; by rewrite E |].
        by constructor.
      * by exists [].
    + exists [MkWrite p None (Some v)]. split; [simpl; by rewrite E |].
      by constructor.
  - assert (Hl : writes_sat (token_write (p, Node name ch))
                   (for_from (fun i c => step (_RecAnnotate (p ++ [i]) c v)) 0 ch)).
    { apply ws_for_from. intros k c Hk. rewrite Forall_lookup in IH.
      eapply ws_weaken; [| apply (IH _ _ Hk); done].
      intros w. apply token_write_within. by apply within_kid. }
    apply Hl. unfold step in *. simpl in Hrun.
    by rewrite (for_from_pure (fun i c => _RecAnnotate (p ++ [i]) c v)).
Qed.

Lemma ws_SetUnbreakable o o' :
  within o o' -> writes_sat (token_write o) (_SetUnbreakable o').
Proof.
  intros Hin. eapply ws_weaken; [intros w; by apply token_write_within |].
  destruct o' as [p' t']. apply ws_RecAnnotate. by left.
Qed.

Lemma ws_SetStronglyConnected o nodes :
  Forall (within o) nodes -> writes_sat (token_write o) (_SetStronglyConnected nodes).
Proof.
  unfold _SetStronglyConnected. induction nodes as [| o' nodes IH]; intros Hin.
  - apply ws_skip.
  - apply Forall_cons in Hin as [Ho' Hin].
    assert (H1 : writes_sat (token_write o)
                   (step (_RecAnnotate o'.1 o'.2 STRONGLY_CONNECTED))).
    { eapply ws_weaken; [intros w; by apply token_write_within |].
      destruct o' as [p' t']. apply ws_RecAnnotate. right. by left. }
    exact (ws_seq _ _ _ H1 (IH Hin)).
Qed.

Lemma ws_RecArithmeticExpression n : forall py p first,
  writes_sat (token_write (p, n)) (RecArithmeticExpression py p n first).
Proof.
  induction n as [name val | name ch IH] using node_ind; intros py p first.
  - intros h h' Hrun. simpl in Hrun.
    destruct (decide (p = first)); [injection Hrun as <-; by exists [] |].
    apply bind_Ok in Hrun as (lt & _ & Hrun).
    destruct lt; injection Hrun as <-; [| by exists []].
    eexists [_]. split; [done |]. constructor; [| done]. right. simpl.
    rewrite leaf_under_Leaf. split; [by apply bool_decide_eq_true_2 |].
    eexists. split; [done |]. right. by right.
  - simpl. destruct (decide (p = first)); [apply ws_skip |].
    apply ws_for_from. intros k c Hk. rewrite Forall_lookup in IH.
    eapply ws_weaken; [| apply (IH _ _ Hk)].
    intros w. apply token_write_within. by apply within_kid.
Qed.

Lemma ws_SetArithmeticExpression py o :
  writes_sat (token_write o) (_SetArithmeticExpression py o).
Proof.
  intros h h' Hrun. unfold _SetArithmeticExpression in Hrun.
  apply bind_Ok in Hrun as (first & _ & Hrun). destruct o as [p n].
  by apply ws_RecArithmeticExpression in Hrun.
Qed.

Create HintDb within.
#[local] Hint Resolve within_item within_kid within_kids within_refl : within.
#[local] Hint Constructors Forall : within.

Lemma within_item_child p name ch i o j o' :
  item p ch i = Ok o -> child o j = Ok o' -> within (p, Node name ch) o'.
Proof.
  intros Ho Ho'. eapply within_trans; [by eapply within_item | by eapply within_child].
Qed.

Lemma within_kid_child p name ch k c j o' :
  ch !! k = Some c -> child (p ++ [k], c) j = Ok o' -> within (p, Node name ch) o'.
Proof.
  intros Hk Ho'. eapply within_trans; [by eapply within_kid | by eapply within_child].
Qed.

#[local] Hint Resolve within_item_child within_kid_child : within.

Ltac ws_phase :=
  repeat match goal with
         | |- writes_sat _ (eval _ _) => apply ws_eval; intros ? ?
         | |- writes_sat _ (_ >> _) => apply ws_seq
         | |- writes_sat _ skip => apply ws_skip
         | |- writes_sat _ (_SetUnbreakable _) =>
             apply ws_SetUnbreakable; eauto with within
         | |- writes_sat _ (_SetStronglyConnected _) =>
             apply ws_SetStronglyConnected; eauto 6 with within
         | |- writes_sat _ (if ?b then _ else _) => destruct b
         | H : writes_sat ?W ?f |- writes_sat ?W ?f => exact H
         end.

Section RuleWrites.
Variables (py : python) (name : string) (p : path) (ch : list node).
Variable visit : nat -> node -> proc.

Local Abbreviation self := (p, Node name ch).

Hypothesis Hvisit : forall k c, ch !! k = Some c ->
  writes_sat (token_write self) (visit k c).

Lemma ws_DefaultNodeVisit : writes_sat (token_write self) (DefaultNodeVisit visit ch).
Proof. apply ws_for_from. intros k c Hk. by apply Hvisit. Qed.

Lemma ws_unbreakable_range count : forall i,
  writes_sat (token_write self) (unbreakable_range p ch i count).
Proof. induction count as [| count IH]; intros i; simpl; ws_phase. apply IH. Qed.

Lemma ws_dictsetmaker_loop rest : forall i prev,
  (forall k c, rest !! k = Some c -> ch !! (i + k) = Some c) ->
  (forall o, prev = Some o -> within self o) ->
  writes_sat (token_write self) (dictsetmaker_loop visit p i prev rest).
Proof.
  induction rest as [| c rest IH]; intros i prev Hsub Hprev; [apply ws_skip |].
  assert (Hc : ch !! i = Some c).
  { specialize (Hsub 0 c eq_refl). by rewrite Nat.add_0_r in Hsub. }
  simpl. apply ws_seq; [by apply Hvisit |]. apply ws_seq.
  - destruct (String.eqb _ _); [| apply ws_skip].
    apply ws_eval. intros prev0 Hprev0. destruct prev as [o |]; [| done].
    injection Hprev0 as ->. apply ws_SetStronglyConnected.
    repeat constructor; [by apply Hprev | by apply within_kid].
  - apply IH.
    + intros k c' Hk. replace (S i + k) with (i + S k) by lia. by apply Hsub.
    + intros o [= <-]. by apply within_kid.
Qed.

Lemma ws_trailer_chain surrounded rest : forall prev i,
  within self prev ->
  (forall k c, rest !! k = Some c -> ch !! (i + k) = Some c) ->
  writes_sat (token_write self) (trailer_chain surrounded p prev i rest).
Proof.
  induction rest as [| c rest IH]; intros prev i Hprev Hsub; [apply ws_skip |].
  assert (Hc : ch !! i = Some c).
  { specialize (Hsub 0 c eq_refl). by rewrite Nat.add_0_r in Hsub. }
  simpl. destruct (String.eqb _ _); [| apply ws_skip].
  apply ws_eval; intros last Hlast. apply ws_eval; intros v Hv.
  assert (Hl : within self last).
  { eapply within_trans; [exact Hprev | by eapply within_child]. }
  apply ws_seq; [| apply ws_seq].
  - destruct (negb _); [by apply ws_SetUnbreakable | apply ws_skip].
  - destruct (negb _); [| apply ws_skip].
    apply ws_eval; intros first Hfirst. apply ws_SetUnbreakable.
    by eapply within_kid_child.
  - apply IH; [by apply within_kid |].
    intros k c' Hk. replace (S i + k) with (i + S k) by lia. by apply Hsub.
Qed.

Lemma ws_call_parens rest : forall i,
  (forall k c, rest !! k = Some c -> ch !! (i + k) = Some c) ->
  writes_sat (token_write self) (call_parens p i rest).
Proof.
  induction rest as [| c rest IH]; intros i Hsub; [apply ws_skip |].
  assert (Hc : ch !! i = Some c).
  { specialize (Hsub 0 c eq_refl). by rewrite Nat.add_0_r in Hsub. }
  simpl. destruct (negb _); [apply ws_skip |].
  apply ws_eval; intros first Hfirst. apply ws_eval; intros v Hv.
  apply ws_seq.
  - destruct (_ && _); [| apply ws_skip].
    apply ws_eval; intros last Hlast. apply ws_SetUnbreakable.
    by eapply within_kid_child.
  - apply IH. intros k c' Hk. replace (S i + k) with (i + S k) by lia.
    by apply Hsub.
Qed.

Lemma ws_rule parent :
  writes_sat (token_write self)
    match rule_of name with
    | R_classdef => Visit_classdef visit p ch
    | R_funcdef => Visit_funcdef visit p ch
    | R_lambdef => Visit_lambdef visit p ch
    | R_parameters => Visit_parameters visit p ch
    | R_dotted_name => Visit_dotted_name visit p ch
    | R_dictsetmaker => Visit_dictsetmaker visit p ch
    | R_comparison | R_arith_expr | R_term =>
        Visit_arith py visit (Node name ch) p ch
    | R_trailer => Visit_trailer visit p ch
    | R_power => Visit_power visit parent p ch
    | R_subscript => Visit_subscript visit p ch
    | R_comp_for => Visit_comp_for visit p ch
    | R_comp_if => Visit_comp_if visit p ch
    | R_default => DefaultNodeVisit visit ch
    end.
Proof.
  assert (Hd := ws_DefaultNodeVisit).
  assert (Hf : writes_sat (token_write self) (for_from visit 0 ch)) by exact Hd.
  destruct (rule_of name);
    unfold Visit_classdef, Visit_funcdef, Visit_lambdef, Visit_parameters,
      Visit_dotted_name, _SetUnbreakableOnChildren, Visit_dictsetmaker, Visit_arith,
      Visit_trailer, Visit_power, Visit_subscript, Visit_comp_for, Visit_comp_if;
    cbv zeta; ws_phase.
  all: try apply ws_unbreakable_range.
  all: try apply ws_SetArithmeticExpression.
  all: try (apply ws_Set; intros old; by left).
  all: try (rewrite <- (drop_0 (kids p ch)); apply within_kids).
  - apply ws_dictsetmaker_loop; [by intros k c Hk | done].
  - apply ws_trailer_chain; [by eapply within_item |].
    intros k c Hk. by rewrite lookup_drop in Hk.
  - apply ws_call_parens. intros k c Hk. by rewrite lookup_drop in Hk.
Qed.
End RuleWrites.

Lemma ws_Visit n : forall py parent p,
  writes_sat (token_write (p, n)) (Visit py parent p n).
Proof.
  induction n as [name val | name ch IH] using node_ind; intros py parent p.
  - apply ws_skip.
  - rewrite Visit_Node. cbv zeta. apply ws_rule.
    intros k c Hk. rewrite Forall_lookup in IH.
    eapply ws_weaken; [| apply (IH _ _ Hk)].
    intros w. apply token_write_within. by apply within_kid.
Qed.

(** The annotation an address ends with is the one it had or the one the
    last write to it stored. *)
Lemma trace_last m l m' q :
  trace m l m' ->
  m' !! q = m !! q \/ exists w, w ∈ l /\ w_node w = q /\ w_new w = m' !! q.
Proof.
  intros Ht. induction Ht as [| l m1 q0 v Ht IH]; [by left |].
  rewrite lookup_store. case_decide.
  - subst q0. right. eexists. split; [by left | done].
  - destruct IH as [IH | (w & Hw & Hq & Hv)]; [by left | right].
    exists w. split; [by right | done].
Qed.

(** The pass stores nothing but its three penalties, and stores them on tokens
    of the tree only: every write it adds to the history is a clear or puts
    UNBREAKABLE, STRONGLY_CONNECTED or ARITHMETIC_EXPRESSION on a Leaf of the
    tree.  So every annotation it leaves is the one it found, or absent, or
    one of the three penalties on a token of the tree; an interior node and an
    address outside the tree never get a penalty. *)
Theorem pass_stores_constants_on_tokens (py : python) (tree : node) (h h' : heap) :
  ComputeSplitPenalties py tree h = Ok h' ->
  (exists l, writes h' = l ++ writes h /\ Forall (token_write ([], tree)) l) /\
  (forall q, annot h' !! q = annot h !! q \/ annot h' !! q = None \/
     (leaf_under ([], tree) q = true /\
      exists v, annot h' !! q = Some v /\ penalty_constant v)).
Proof.
  intros Hrun. unfold ComputeSplitPenalties in Hrun.
  destruct (ws_Visit tree py None [] h h' Hrun) as (l & El & Fl).
  split; [by exists l |]. intros q.
  destruct (Visit_sound tree py None []) as [_ Hlogs].
  destruct (Hlogs h h' Hrun) as (l' & El' & Ht & _).
  assert (l' = l) as -> by (rewrite El in El'; by apply app_inv_tail in El').
  destruct (trace_last _ _ _ q Ht) as [Hsame | (w & Hw & Hq & Hv)]; [by left |].
  right. rewrite Forall_forall in Fl. destruct (Fl w Hw) as [Hn | [Hleaf Hc]].
  - left. by rewrite <- Hv.
  - right. rewrite <- Hv, <- Hq. by split.
Qed.

Lemma pass_stores_constants_on_tokens_witness :
  let h' := returned (ComputeSplitPenalties Python2 filtered_sum no_annotations) in
  (exists l, writes h' = l ++ writes no_annotations /\
     Forall (token_write ([], filtered_sum)) l) /\
  (forall q, annot h' !! q = annot no_annotations !! q \/ annot h' !! q = None \/
     (leaf_under ([], filtered_sum) q = true /\
      exists v, annot h' !! q = Some v /\ penalty_constant v)).
Proof.
  apply (pass_stores_constants_on_tokens Python2 filtered_sum no_annotations).
  vm_compute. reflexivity.
Defined.

(** ** Chains in parentheses *)

Lemma trailer_chain_surrounded_frame p rest : forall i0 c0 h h',
  trailer_chain true p (p ++ [i0], c0) (S i0) rest h = Ok h' ->
  forall q,
    (forall k tk last v, (c0 :: rest) !! k = Some tk ->
       child (p ++ [i0 + k], tk) (-1) = Ok last -> value last.2 = Ok v ->
       v <> ")" -> ~ below last.1 q) ->
    annot h' !! q = annot h !! q.
Proof.
  induction rest as [| c rest IH]; intros i0 c0 h h' Hrun q Hlastq.
  { by injection Hrun as <-. }
  simpl in Hrun. destruct (String.eqb (NodeName c) "trailer");
    [| by injection Hrun as <-].
  apply eval_Ok in Hrun as (last0 & Hlast0 & Hrun).
  apply eval_Ok in Hrun as (v0 & Hv0 & Hrun).
  apply seq_Ok in Hrun as (h1 & H1 & Hrun).
  apply seq_Ok in Hrun as (h2 & H2 & Hrun). injection H2 as <-.
  rewrite (IH _ _ _ _ Hrun).
  - destruct (negb (String.eqb v0 ")")) eqn:Ev; [| by injection H1 as <-].
    rewrite (SetUnbreakable_annot _ _ _ _ H1).
    destruct (leaf_under last0 q) eqn:E; [| done].
    apply leaf_under_local in E. exfalso.
    apply (Hlastq 0 c0 last0 v0 eq_refl); try done.
    + by rewrite Nat.add_0_r.
    + by apply negb_true_iff, String.eqb_neq in Ev.
  - intros k tk last v Htk Hlast Hv Hne.
    apply (Hlastq (S k) tk last v); try done.
    by replace (i0 + S k) with (S i0 + k) by lia.
Qed.

Lemma power_chain_surrounded_frame p ch h h' q :
  power_chain true p ch h = Ok h' ->
  (forall first c1, ch !! 1 = Some c1 -> child (p ++ [1], c1) 0 = Ok first ->
     ~ below first.1 q) ->
  (forall k tk last v, 1 <= k -> ch !! k = Some tk ->
     child (p ++ [k], tk) (-1) = Ok last -> value last.2 = Ok v ->
     v <> ")" -> ~ below last.1 q) ->
  annot h' !! q = annot h !! q.
Proof.
  unfold power_chain. intros Hrun Hfirstq Hlastq.
  destruct (decide (1 < length ch)); [| by injection Hrun as <-].
  apply eval_Ok in Hrun as (o1 & Ho1 & Hrun).
  apply item_inv in Ho1 as (k1 & c1 & Hc1 & -> & Hi1 & _).
  assert (k1 = 1) as -> by (apply Hi1; lia). simpl in Hrun.
  destruct (String.eqb (NodeName c1) "trailer"); [| by injection Hrun as <-].
  apply eval_Ok in Hrun as (first & Hfirst & Hrun).
  apply seq_Ok in Hrun as (h0 & H0 & Hrun).
  rewrite (trailer_chain_surrounded_frame _ _ _ _ _ _ Hrun).
  - rewrite (SetUnbreakable_annot _ _ _ _ H0).
    destruct (leaf_under first q) eqn:E; [| done].
    apply leaf_under_local in E. exfalso. by apply (Hfirstq first c1).
  - intros k tk last v Htk. apply Hlastq; [lia |].
    rewrite <- (drop_lookup_S ch 1 c1 Hc1), lookup_drop in Htk. done.
Qed.

(** A power node inside parentheses.  When the node is the content of a
    parenthesized atom, the rule of the power node leaves the first token of
    every trailer after the first alone: after the visit that token has what
    the visit of its own trailer gave it, the maximum of its penalty and
    STRONGLY_CONNECTED for a dot and its old penalty otherwise, and not
    UNBREAKABLE: the line may break before the dot of a chain of calls. *)
Theorem power_parenthesized_chain (py : python) (parent : option node) (p : path)
    (ch : list node) (i : nat) (n0 v0 : string) (c1 : node) (rest : list node)
    (h h' : heap) :
  Visit py parent p (Node "power" ch) h = Ok h' ->
  surrounded_by_parens parent = Ok true ->
  2 <= i -> ch !! i = Some (Node "trailer" (Leaf n0 v0 :: c1 :: rest)) ->
  annot h' !! (p ++ [i; 0]) =
    if String.eqb v0 "."
    then Some (raise (annot h !! (p ++ [i; 0])) STRONGLY_CONNECTED)
    else annot h !! (p ++ [i; 0]).
Proof.
  intros Hrun Hs Hi Hti.
  apply Visit_power_inv in Hrun as (hv & s & h1 & Hv & Hs' & H1 & Hrun).
  rewrite Hs in Hs'. injection Hs' as <-.
  set (t := Node "trailer" (Leaf n0 v0 :: c1 :: rest)) in *.
  assert (Hq : p ++ [i; 0] = (p ++ [i]) ++ [0]) by (by rewrite <- app_assoc).
  assert (Hb : below (p ++ [i]) (p ++ [i; 0])).
  { rewrite Hq. unfold below. rewrite strip_app. eauto. }
  assert (Ekid : forall k tk m o, ch !! k = Some tk -> child (p ++ [k], tk) m = Ok o ->
            below o.1 (p ++ [i; 0]) ->
            tk = t /\ exists c, o = (p ++ [i; 0], c) /\
              ((m < 0)%Z -> (m < -1)%Z)).
  { intros k tk m o Hk Ho Hbo.
    apply child_inv in Ho as (j & c & Hj & -> & Hm0 & Hm1). simpl in *.
    apply below_two in Hbo as [-> ->]. rewrite Hti in Hk. injection Hk as <-.
    split; [done |]. exists c. split; [by rewrite <- app_assoc |].
    simpl in Hm1. lia. }
  destruct (call_parens_spec p _ _ _ _ Hrun) as [_ HB]. rewrite HB.
  2:{ intros k c last Hc Hlen Hlast Hbo. rewrite lookup_drop in Hc.
      destruct (Ekid _ _ _ _ Hc Hlast Hbo) as (_ & _ & _ & Hm). lia. }
  rewrite (power_chain_surrounded_frame _ _ _ _ _ H1).
  2:{ intros first c Hc Hfirst Hbo.
      apply child_inv in Hfirst as (j & c' & Hj & -> & _). simpl in Hbo.
      apply below_two in Hbo as [E _]. lia. }
  2:{ intros k tk last v _ Htk Hlast Hval Hne Hbo.
      destruct (Ekid _ _ _ _ Htk Hlast Hbo) as (_ & _ & _ & Hm). lia. }
  destruct (children_visit_at py (Some (Node "power" ch)) p ch i _ h hv Hti Hv)
    as (ha & hb & Hvis & Ha & Hb').
  rewrite (Hb' _ Hb), <- (Ha _ Hb), Hq.
  destruct (Visit_trailer_spec _ _ _ _ _ _ Hvis) as (name & v & H0 & Hdot & _ & Hkeep).
  injection H0 as <- <-.
  destruct (String.eqb v0 ".") eqn:E.
  - apply String.eqb_eq in E. by apply Hdot.
  - apply String.eqb_neq in E. apply (Hkeep 0 n0 v0); [done | done |].
    simpl. lia.
Qed.

Lemma power_parenthesized_chain_witness :
  let h' := returned (Visit Python3 (Some paren_chain) [1] a_b_call_c no_annotations) in
  annot h' !! ([1] ++ [3; 0]) =
    if String.eqb "." "."
    then Some (raise (annot no_annotations !! ([1] ++ [3; 0])) STRONGLY_CONNECTED)
    else annot no_annotations !! ([1] ++ [3; 0]).
Proof.
  apply (power_parenthesized_chain Python3 (Some paren_chain) [1]
           (children a_b_call_c) 3 "DOT" "." (Leaf "NAME" "c") [] no_annotations);
    [vm_compute; reflexivity | reflexivity | lia | reflexivity].
Defined.

(** ** Comparisons, sums and terms *)

(** The three productions share one rule. *)
Lemma Visit_arith_rule py parent p name ch :
  In (rule_of name) [R_comparison; R_arith_expr; R_term] ->
  Visit py parent p (Node name ch) =
    Visit_arith py (fun i c => Visit py (Some (Node name ch)) (p ++ [i]) c)
      (Node name ch) p ch.
Proof.
  intros Hin. rewrite Visit_Node. cbv zeta.
  destruct (rule_of name); simpl in Hin; try done; exfalso; intuition congruence.
Qed.

(** The visit of a comparison, of an arithmetic expression or of a term, on
    either interpreter: when it returns, the node has a first leaf, every
    other token of the node carries at least ARITHMETIC_EXPRESSION, whatever
    the visit of the children left on it, and the first leaf and every
    address outside the node have what the visit of the children left. *)
Theorem arithmetic_visit (py : python) (parent : option node) (p : path)
    (name : string) (ch : list node) (h h' : heap) :
  In (rule_of name) [R_comparison; R_arith_expr; R_term] ->
  Visit py parent p (Node name ch) h = Ok h' ->
  exists first hv,
    FirstChildNode p (Node name ch) = Ok first /\
    DefaultNodeVisit (fun i c => Visit py (Some (Node name ch)) (p ++ [i]) c) ch h
      = Ok hv /\
    (forall q, leaf_under (p, Node name ch) q = true -> q <> first ->
       annot h' !! q = Some (raise (annot hv !! q) ARITHMETIC_EXPRESSION) /\
       at_least ARITHMETIC_EXPRESSION (annot h' !! q)) /\
    annot h' !! first = annot hv !! first /\
    (forall q, leaf_under (p, Node name ch) q = false ->
       annot h' !! q = annot hv !! q).
Proof.
  intros Hin Hrun'. rewrite (Visit_arith_rule _ _ _ _ _ Hin) in Hrun'.
  unfold Visit_arith in Hrun'.
  apply seq_Ok in Hrun' as (hv & Hv & Hrun).
  assert (Hf : exists first, FirstChildNode p (Node name ch) = Ok first).
  { unfold _SetArithmeticExpression in Hrun.
    apply bind_Ok in Hrun as (first & Hf & _). eauto. }
  destruct Hf as [first Hf]. exists first, hv. split; [done |]. split; [done |].
  assert (Heq := SetArithmeticExpression_annot _ _ _ _ _ _ Hf Hrun).
  unfold arith_leaf in Heq. split; [| split].
  - intros q Hq Hne. rewrite Heq, Hq, bool_decide_eq_true_2 by done.
    split; [done | apply at_least_raise].
  - rewrite Heq, bool_decide_eq_false_2 by auto. by rewrite andb_false_r.
  - intros q Hq. by rewrite Heq, Hq.
Qed.

Lemma arithmetic_visit_witness :
  let t := Node "term" [Leaf "NAME" "a"; Leaf "STAR" "*"; Leaf "NAME" "b"] in
  let h' := returned (Visit Python2 None [] t no_annotations) in
  exists first hv,
    FirstChildNode [] t = Ok first /\
    DefaultNodeVisit (fun i c => Visit Python2 (Some t) ([] ++ [i]) c)
      [Leaf "NAME" "a"; Leaf "STAR" "*"; Leaf "NAME" "b"] no_annotations = Ok hv /\
    (forall q, leaf_under ([], t) q = true -> q <> first ->
       annot h' !! q = Some (raise (annot hv !! q) ARITHMETIC_EXPRESSION) /\
       at_least ARITHMETIC_EXPRESSION (annot h' !! q)) /\
    annot h' !! first = annot hv !! first /\
    (forall q, leaf_under ([], t) q = false -> annot h' !! q = annot hv !! q).
Proof.
  apply (arithmetic_visit Python2 None [] "term"
           [Leaf "NAME" "a"; Leaf "STAR" "*"; Leaf "NAME" "b"] no_annotations).
  - right. right. by left.
  - vm_compute. reflexivity.
Defined.

(** ** The test for enclosing parentheses *)

Lemma item_first p ch :
  item p ch 0 = match ch with [] => Err IndexError | c :: _ => Ok (p ++ [0], c) end.
Proof. by destruct ch. Qed.

Lemma item_last p ch :
  item p ch (-1) =
    match last ch with
    | None => Err IndexError
    | Some c => Ok (p ++ [length ch - 1], c)
    end.
Proof.
  unfold item. cbv zeta. change (-1 <? 0)%Z with true. cbv iota.
  rewrite last_lookup. destruct ch as [| c0 ch]; [done |].
  destruct (Z.of_nat (length (c0 :: ch)) + -1 <? 0)%Z eqn:E.
  { apply Z.ltb_lt in E. simpl in E. lia. }
  replace (Z.to_nat (Z.of_nat (length (c0 :: ch)) + -1)) with (length (c0 :: ch) - 1)
    by lia.
  replace (pred (length (c0 :: ch))) with (length (c0 :: ch) - 1) by lia.
  by destruct ((c0 :: ch) !! _).
Qed.

(** [surrounded_by_parens] holds exactly when the parent is an [atom] node
    whose first child is the token [(] and whose last child is the token [)].
    The tests that the children are tokens come before their values are
    read, so that the computation can fail only on an [atom] without
    children, with [IndexError]; a node without a parent is not surrounded. *)
Theorem surrounded_by_parens_spec (parent : option node) :
  (surrounded_by_parens parent = Ok true <->
   exists ch n0 n1,
     parent = Some (Node "atom" ch) /\
     head ch = Some (Leaf n0 "(") /\ last ch = Some (Leaf n1 ")")) /\
  (forall e, surrounded_by_parens parent = Err e ->
     e = IndexError /\ exists par,
       parent = Some par /\ NodeName par = "atom" /\ children par = []) /\
  surrounded_by_parens None = Ok false.
Proof.
  split; [| split; [| done]].
  - split.
    + destruct parent as [par |]; [| done]. simpl.
      destruct (String.eqb (NodeName par) "atom") eqn:En; [| done].
      apply String.eqb_eq in En. simpl. rewrite item_first.
      destruct par as [name v | name ch]; [done |]. simpl in *. subst name.
      destruct ch as [| c0 ch]; [done |]. simpl.
      destruct c0 as [n0 v0 | n0 ch0]; [| done]. simpl.
      destruct (String.eqb v0 "(") eqn:E0; [| done]. simpl.
      apply String.eqb_eq in E0. subst v0. rewrite item_last.
      destruct (last (Leaf n0 "(" :: ch)) as [cl |] eqn:El; [| done]. simpl.
      destruct cl as [n1 v1 | n1 ch1]; [| done]. simpl.
      intros [= E1]. apply String.eqb_eq in E1. subst v1.
      by exists (Leaf n0 "(" :: ch), n0, n1.
    + intros (ch & n0 & n1 & -> & Hh & Hl). simpl.
      destruct ch as [| c0 ch]; [done |]. injection Hh as ->.
      rewrite item_first. simpl. rewrite item_last, Hl. done.
  - intros e. destruct parent as [par |]; [| done]. simpl.
    destruct (String.eqb (NodeName par) "atom") eqn:En; [| done].
    apply String.eqb_eq in En. simpl. rewrite item_first.
    destruct (children par) as [| c0 ch] eqn:Ech.
    { intros [= <-]. split; [done |]. by exists par. }
    simpl. destruct c0 as [n0 v0 | n0 ch0]; [| done]. simpl.
    destruct (String.eqb v0 "("); [| done]. simpl. rewrite item_last.
    destruct (last (Leaf n0 v0 :: ch)) as [cl |] eqn:El.
    + simpl. by destruct cl.
    + by apply last_None in El.
Qed.

(** ** The arithmetic rule on Python 3 *)

Lemma FirstChildNode_not_later p n first k :
  FirstChildNode p n = Ok first -> 1 <= k -> first <> p ++ [k].
Proof.
  intros (j & -> & _)%FirstChildNode_spec Hk E. apply app_inv_head in E.
  destruct j as [| [| j]]; simpl in E; [done | | done].
  injection E as <-. lia.
Qed.

(** On Python 3 the visit of a comparison, of an arithmetic expression or of
    a term does not return when a child after the first is a token without a
    penalty, as the operator of a sum is until a rule marks it: the visit
    raises, and the exception is [TypeError] whenever the visit of the
    children returns and the node has a first leaf. *)
Theorem arithmetic_visit_python3_unmarked (parent : option node) (p : path)
    (name : string) (ch : list node) (k : nat) (n v : string) (h : heap) :
  In (rule_of name) [R_comparison; R_arith_expr; R_term] ->
  1 <= k -> ch !! k = Some (Leaf n v) -> annot h !! (p ++ [k]) = None ->
  exists e,
    Visit Python3 parent p (Node name ch) h = Err e /\
    (forall hv first,
       DefaultNodeVisit
         (fun i c => Visit Python3 (Some (Node name ch)) (p ++ [i]) c) ch h = Ok hv ->
       FirstChildNode p (Node name ch) = Ok first ->
       e = TypeError).
Proof.
  intros Hin Hk Hc Hnone. rewrite (Visit_arith_rule _ _ _ _ _ Hin).
  unfold Visit_arith, seq.
  destruct (DefaultNodeVisit _ ch h) as [hv | e] eqn:Hv; cbn [mbind result_bind].
  2:{ exists e. split; [done |]. by intros hv first [=]. }
  assert (Hnone' : annot hv !! (p ++ [k]) = None).
  { rewrite <- Hnone. eapply children_visit_leaf. exact Hv. }
  destruct (FirstChildNode p (Node name ch)) as [first | e] eqn:Hf.
  2:{ exists e. split; [| by intros hv' first _ [=]].
      unfold _SetArithmeticExpression. cbn [fst snd]. by rewrite Hf. }
  exists TypeError. split; [| done].
  apply (SetArithmeticExpression_python3 _ _ first); [done |].
  exists (p ++ [k]). split; [| done]. unfold arith_leaf.
  rewrite (leaf_under_child _ _ _ _ _ _ Hc).
  - rewrite bool_decide_eq_true_2; [done |].
    intros E. by eapply FirstChildNode_not_later.
  - rewrite leaf_under_Leaf. by apply bool_decide_eq_true_2.
Qed.

Lemma arithmetic_visit_python3_unmarked_witness :
  exists e,
    Visit Python3 None [] x_plus_y no_annotations = Err e /\
    (forall hv first,
       DefaultNodeVisit (fun i c => Visit Python3 (Some x_plus_y) ([] ++ [i]) c)
         [Leaf "NAME" "x"; Leaf "PLUS" "+"; Leaf "NAME" "y"] no_annotations = Ok hv ->
       FirstChildNode [] x_plus_y = Ok first ->
       e = TypeError).
Proof.
  apply (arithmetic_visit_python3_unmarked None [] "arith_expr"
           [Leaf "NAME" "x"; Leaf "PLUS" "+"; Leaf "NAME" "y"] 1 "PLUS" "+"
           no_annotations).
  - right. by left.
  - lia.
  - reflexivity.
  - reflexivity.
Defined.
